(** * QmlPanorama: the PhotoSphere item, its render-state snapshot and its meshes

    A shallow embedding of [src/photosphere.h] and [src/photosphere.cpp].

    - [qreal] is [double]: IEEE 754 binary64, carried by Rocq's primitive
      [float] (same format, same rounding, one NaN).
    - [float] (binary32) values are carried as the binary64 values they
      denote exactly; [to_float32] is the rounding conversion.
    - [int] is carried by [Z]; the code only compares, copies and takes minima.
    - Qt's implicitly shared containers ([QByteArray], [QMap]) carry the
      address of their shared data block next to their content, because
      [isSharedWith] compares that address.
    - Member functions that mutate the item, schedule repaints or emit signals
      are computations in a state monad over [World]. *)

From Stdlib Require Import ZArith Floats Lia.
From stdpp Require Import gmap strings list.

Open Scope Z_scope.

(** ** Numeric helpers from libm and QtGlobal *)

(** [std::fmod] on doubles: the exact remainder of the division truncated
    towards zero, with the sign of [x] (C11 7.12.10.1, F.10.7.1). It is a
    libm function; the result is always representable, so the final
    normalisation never rounds. *)
Definition fmod (x y : float) : float :=
  match Prim2SF x, Prim2SF y with
  | S754_nan, _ | _, S754_nan => nan
  | S754_infinity _, _ => nan
  | _, S754_zero _ => nan
  | S754_zero _, _ => x
  | S754_finite _ _ _, S754_infinity _ => x
  | S754_finite sx mx ex, S754_finite _ my ey =>
      let e := Z.min ex ey in
      let X := Z.pos mx * 2 ^ (ex - e) in
      let Y := Z.pos my * 2 ^ (ey - e) in
      SF2Prim (binary_normalize prec emax (cond_Zopp sx (Z.rem X Y)) e sx)
  end.

(** Conversion [double -> float]: round to nearest even in binary32. *)
Definition to_float32 (x : float) : float :=
  match Prim2SF x with
  | S754_finite s m e =>
      SF2Prim (binary_normalize 24 128 (cond_Zopp s (Z.pos m)) e s)
  | _ => x
  end.

(** [qIsFinite(double)]. *)
Definition qIsFinite (d : float) : bool := is_finite d.

(** [qMin], [qMax] and [qBound] are templates over [operator<]:
    [qMin(a,b) = (a < b) ? a : b], [qMax(a,b) = (a < b) ? b : a],
    [qBound(min,val,max) = qMax(min, qMin(max, val))]. *)
Definition qMin_double (a b : float) : float := if (a <? b)%float then a else b.
Definition qMax_double (a b : float) : float := if (a <? b)%float then b else a.
Definition qBound_double (min val max : float) : float :=
  qMax_double min (qMin_double max val).

Definition qMin (a b : Z) : Z := if a <? b then a else b.

(** [std::numeric_limits<int>::max()]. *)
Definition INT_MAX : Z := 2147483647.

(** ** Qt value types *)

(** [enum CubeFace { PX = 0, PY, PZ, MX, MY, MZ, InvalidFace }]. *)
Inductive CubeFace := PX | PY | PZ | MX | MY | MZ | InvalidFace.

Definition CubeFace_to_int (f : CubeFace) : Z :=
  match f with
  | PX => 0 | PY => 1 | PZ => 2 | MX => 3 | MY => 4 | MZ => 5 | InvalidFace => 6
  end.

Definition CubeFace_of_nat (n : nat) : CubeFace :=
  match n with
  | 0%nat => PX | 1%nat => PY | 2%nat => PZ
  | 3%nat => MX | 4%nat => MY | 5%nat => MZ | _ => InvalidFace
  end.

Definition CubeFace_to_nat (f : CubeFace) : nat := Z.to_nat (CubeFace_to_int f).

#[global] Instance CubeFace_eq_dec : EqDecision CubeFace.
Proof. solve_decision. Defined.

#[global] Instance CubeFace_countable : Countable CubeFace.
Proof.
  apply (inj_countable' CubeFace_to_nat CubeFace_of_nat).
  intros []; reflexivity.
Defined.

(** [enum RendererType { CubeRenderer = 0, SphereRenderer }]. *)
Inductive RendererType := CubeRenderer | SphereRenderer.

#[global] Instance RendererType_eq_dec : EqDecision RendererType.
Proof. solve_decision. Defined.

(** A [QByteArray]: the address of its shared data block ([0] is the static
    [shared_null] block every null array points to) and its bytes. Copying a
    [QByteArray] copies the record, hence keeps the address. *)
Record QByteArray := {
  ba_d : N;
  ba_bytes : list Byte.byte
}.

Definition QByteArray_null : QByteArray := {| ba_d := 0%N; ba_bytes := [] |}.

(** [QByteArray::isSharedWith]: [d == other.d]. *)
Definition ba_isSharedWith (a b : QByteArray) : bool := (ba_d a =? ba_d b)%N.

Definition ba_isEmpty (a : QByteArray) : bool :=
  match ba_bytes a with [] => true | _ => false end.

(** A [QMap<CubeFace, QByteArray>], again with the address of its shared
    data block ([0] for the shared empty map). *)
Record QMapFaces := {
  map_d : N;
  map_entries : gmap CubeFace QByteArray
}.

Definition QMapFaces_empty : QMapFaces := {| map_d := 0%N; map_entries := ∅ |}.

(** [QMap::isSharedWith]: [d == other.d]. *)
Definition map_isSharedWith (a b : QMapFaces) : bool := (map_d a =? map_d b)%N.

Definition map_isEmpty (a : QMapFaces) : bool := bool_decide (map_entries a = ∅).

(** The [QVariant]s that can sit in a [QVariantMap] handed to the item: a
    string, a boolean (which converts to the strings [true] and [false]), an
    invalid variant, or a payload with no conversion to [QString]: a value
    of one more type, which converts neither to nor from a string or a
    boolean (a [QSize], say), [tag] standing for the value. *)
Inductive QVariant :=
| VInvalid
| VString (s : string)
| VBool (b : bool)
| VOpaque (tag : N).

#[global] Instance QVariant_eq_dec : EqDecision QVariant.
Proof. solve_decision. Defined.

(** [QVariant::canConvert<QString>()]. *)
Definition canConvert_QString (v : QVariant) : bool :=
  match v with
  | VString _ | VBool _ => true
  | VInvalid | VOpaque _ => false
  end.

(** [QVariant::toString()] / [value<QString>()]. *)
Definition toString (v : QVariant) : string :=
  match v with
  | VString s => s
  | VBool true => "true"
  | VBool false => "false"
  | VInvalid | VOpaque _ => EmptyString
  end.

(** [QVariantMap] is [QMap<QString, QVariant>]. *)
Abbreviation QVariantMap := (gmap string QVariant).

(** [QChar::toLower] on a Latin-1 code unit below 128: only the capital
    letters [A] to [Z] change. *)
Definition QChar_toLower (c : Ascii.ascii) : Ascii.ascii :=
  let n := Ascii.nat_of_ascii c in
  if (65 <=? n)%nat && (n <=? 90)%nat then Ascii.ascii_of_nat (n + 32) else c.

(** [QString::toLower], character by character. *)
Fixpoint QString_toLower (s : string) : string :=
  match s with
  | EmptyString => EmptyString
  | String c s => String (QChar_toLower c) (QString_toLower s)
  end.

(** The conversion of a string to [bool] that [QVariant::convert] makes:
    false for the empty string and, in any letter case, for [0] and
    [false]; true for everything else. *)
Definition QString_toBool (s : string) : bool :=
  let str := QString_toLower s in
  negb (bool_decide (str = EmptyString) || bool_decide (str = "0")
        || bool_decide (str = "false")).

(** [QVariant::operator==] of Qt 5, [v1] being [*this]: two variants of
    one type compare by value (two invalid ones are equal); otherwise the
    argument is converted to the type of [*this] when it can be, else
    [*this] to the type of the argument, and the comparison fails when
    neither converts. A string converts to [bool] and a [bool] to a string;
    nothing converts to or from the invalid variant or an opaque payload. *)
Definition QVariant_cmp (v1 v2 : QVariant) : bool :=
  match v1, v2 with
  | VInvalid, VInvalid => true
  | VString s1, VString s2 => bool_decide (s1 = s2)
  | VBool b1, VBool b2 => bool_decide (b1 = b2)
  | VOpaque t1, VOpaque t2 => bool_decide (t1 = t2)
  | VBool b1, VString s2 => bool_decide (b1 = QString_toBool s2)
  | VString s1, VBool b2 => bool_decide (s1 = toString (VBool b2))
  | _, _ => false
  end.

(** [QMap::operator==] on two [QVariantMap]s, [a] being [*this]: the sizes
    are equal and, walking both maps in key order, every key of [a] is the
    key of [b] at the same place and its value compares equal to the value
    there; with equal sizes that is: every key of [a] is a key of [b], with
    a value that compares equal. *)
Definition QVariantMap_eq (a b : QVariantMap) : bool :=
  (size a =? size b)%nat
  && bool_decide (map_Forall (fun k v =>
                    match b !! k with
                    | Some v' => QVariant_cmp v v'
                    | None => false
                    end = true) a).

(** The value of the [source] property: a plain variant or a variant map. *)
Inductive SourceVariant :=
| SrcValue (v : QVariant)
| SrcMap (m : QVariantMap).

(** A decoded [QImage]. *)
Record QImage := {
  img_isNull : bool;
  img_width : Z;
  img_height : Z
}.

(** What the item obtains from outside the repository during one call:
    the network, the image decoders, [QUrl] parsing, the allocator and the
    OpenGL driver. *)
Record Platform := {
  (** [fetchUrl(QUrl)]: the bytes of the finished reply. *)
  fetchUrl : string -> QByteArray;
  (** [QImage::loadFromData]: [None] when it returns [false]. *)
  loadFromData : QByteArray -> option QImage;
  (** [QUrl(s).isValid()]. *)
  urlIsValid : string -> bool;
  (** Address of the data block allocated for a map built during the call. *)
  newMapData : N;
  (** [glGetIntegerv(GL_MAX_TEXTURE_SIZE)]. *)
  glMaxTextureSize : Z
}.

(** ** The item *)

(** The data members of [class QmlPhotoSphere]. *)
Record QmlPhotoSphere := {
  m_azimuth : float;
  m_elevation : float;
  m_fieldOfView : float;
  m_recreateRenderer : bool;
  m_nodeDirty : bool;
  m_maximumTextureSize : Z;
  m_glMaxTexSize : Z;
  m_image : QByteArray;
  m_imageUrl : string;
  m_cubeMap : QMapFaces;
  m_cubeMapUrls : QVariantMap;
  m_rendererType : RendererType
}.

(** The in-class member initialisers. *)
Definition QmlPhotoSphere_new : QmlPhotoSphere := {|
  m_azimuth := 0;
  m_elevation := 0;
  m_fieldOfView := 90;
  m_recreateRenderer := false;
  m_nodeDirty := false;
  m_maximumTextureSize := 65536;
  m_glMaxTexSize := -1;
  m_image := QByteArray_null;
  m_imageUrl := EmptyString;
  m_cubeMap := QMapFaces_empty;
  m_cubeMapUrls := ∅;
  m_rendererType := CubeRenderer
|}.

Definition set_m_azimuth (v : float) (i : QmlPhotoSphere) :=
  {| m_azimuth := v; m_elevation := m_elevation i;
     m_fieldOfView := m_fieldOfView i;
     m_recreateRenderer := m_recreateRenderer i; m_nodeDirty := m_nodeDirty i;
     m_maximumTextureSize := m_maximumTextureSize i;
     m_glMaxTexSize := m_glMaxTexSize i; m_image := m_image i;
     m_imageUrl := m_imageUrl i; m_cubeMap := m_cubeMap i;
     m_cubeMapUrls := m_cubeMapUrls i; m_rendererType := m_rendererType i |}.

Definition set_m_elevation (v : float) (i : QmlPhotoSphere) :=
  {| m_azimuth := m_azimuth i; m_elevation := v;
     m_fieldOfView := m_fieldOfView i;
     m_recreateRenderer := m_recreateRenderer i; m_nodeDirty := m_nodeDirty i;
     m_maximumTextureSize := m_maximumTextureSize i;
     m_glMaxTexSize := m_glMaxTexSize i; m_image := m_image i;
     m_imageUrl := m_imageUrl i; m_cubeMap := m_cubeMap i;
     m_cubeMapUrls := m_cubeMapUrls i; m_rendererType := m_rendererType i |}.

Definition set_m_fieldOfView (v : float) (i : QmlPhotoSphere) :=
  {| m_azimuth := m_azimuth i; m_elevation := m_elevation i;
     m_fieldOfView := v;
     m_recreateRenderer := m_recreateRenderer i; m_nodeDirty := m_nodeDirty i;
     m_maximumTextureSize := m_maximumTextureSize i;
     m_glMaxTexSize := m_glMaxTexSize i; m_image := m_image i;
     m_imageUrl := m_imageUrl i; m_cubeMap := m_cubeMap i;
     m_cubeMapUrls := m_cubeMapUrls i; m_rendererType := m_rendererType i |}.

Definition set_m_recreateRenderer (v : bool) (i : QmlPhotoSphere) :=
  {| m_azimuth := m_azimuth i; m_elevation := m_elevation i;
     m_fieldOfView := m_fieldOfView i;
     m_recreateRenderer := v; m_nodeDirty := m_nodeDirty i;
     m_maximumTextureSize := m_maximumTextureSize i;
     m_glMaxTexSize := m_glMaxTexSize i; m_image := m_image i;
     m_imageUrl := m_imageUrl i; m_cubeMap := m_cubeMap i;
     m_cubeMapUrls := m_cubeMapUrls i; m_rendererType := m_rendererType i |}.

Definition set_m_nodeDirty (v : bool) (i : QmlPhotoSphere) :=
  {| m_azimuth := m_azimuth i; m_elevation := m_elevation i;
     m_fieldOfView := m_fieldOfView i;
     m_recreateRenderer := m_recreateRenderer i; m_nodeDirty := v;
     m_maximumTextureSize := m_maximumTextureSize i;
     m_glMaxTexSize := m_glMaxTexSize i; m_image := m_image i;
     m_imageUrl := m_imageUrl i; m_cubeMap := m_cubeMap i;
     m_cubeMapUrls := m_cubeMapUrls i; m_rendererType := m_rendererType i |}.

Definition set_m_maximumTextureSize (v : Z) (i : QmlPhotoSphere) :=
  {| m_azimuth := m_azimuth i; m_elevation := m_elevation i;
     m_fieldOfView := m_fieldOfView i;
     m_recreateRenderer := m_recreateRenderer i; m_nodeDirty := m_nodeDirty i;
     m_maximumTextureSize := v;
     m_glMaxTexSize := m_glMaxTexSize i; m_image := m_image i;
     m_imageUrl := m_imageUrl i; m_cubeMap := m_cubeMap i;
     m_cubeMapUrls := m_cubeMapUrls i; m_rendererType := m_rendererType i |}.

Definition set_m_glMaxTexSize (v : Z) (i : QmlPhotoSphere) :=
  {| m_azimuth := m_azimuth i; m_elevation := m_elevation i;
     m_fieldOfView := m_fieldOfView i;
     m_recreateRenderer := m_recreateRenderer i; m_nodeDirty := m_nodeDirty i;
     m_maximumTextureSize := m_maximumTextureSize i;
     m_glMaxTexSize := v; m_image := m_image i;
     m_imageUrl := m_imageUrl i; m_cubeMap := m_cubeMap i;
     m_cubeMapUrls := m_cubeMapUrls i; m_rendererType := m_rendererType i |}.

Definition set_m_image (v : QByteArray) (i : QmlPhotoSphere) :=
  {| m_azimuth := m_azimuth i; m_elevation := m_elevation i;
     m_fieldOfView := m_fieldOfView i;
     m_recreateRenderer := m_recreateRenderer i; m_nodeDirty := m_nodeDirty i;
     m_maximumTextureSize := m_maximumTextureSize i;
     m_glMaxTexSize := m_glMaxTexSize i; m_image := v;
     m_imageUrl := m_imageUrl i; m_cubeMap := m_cubeMap i;
     m_cubeMapUrls := m_cubeMapUrls i; m_rendererType := m_rendererType i |}.

Definition set_m_imageUrl (v : string) (i : QmlPhotoSphere) :=
  {| m_azimuth := m_azimuth i; m_elevation := m_elevation i;
     m_fieldOfView := m_fieldOfView i;
     m_recreateRenderer := m_recreateRenderer i; m_nodeDirty := m_nodeDirty i;
     m_maximumTextureSize := m_maximumTextureSize i;
     m_glMaxTexSize := m_glMaxTexSize i; m_image := m_image i;
     m_imageUrl := v; m_cubeMap := m_cubeMap i;
     m_cubeMapUrls := m_cubeMapUrls i; m_rendererType := m_rendererType i |}.

Definition set_m_cubeMap (v : QMapFaces) (i : QmlPhotoSphere) :=
  {| m_azimuth := m_azimuth i; m_elevation := m_elevation i;
     m_fieldOfView := m_fieldOfView i;
     m_recreateRenderer := m_recreateRenderer i; m_nodeDirty := m_nodeDirty i;
     m_maximumTextureSize := m_maximumTextureSize i;
     m_glMaxTexSize := m_glMaxTexSize i; m_image := m_image i;
     m_imageUrl := m_imageUrl i; m_cubeMap := v;
     m_cubeMapUrls := m_cubeMapUrls i; m_rendererType := m_rendererType i |}.

Definition set_m_cubeMapUrls (v : QVariantMap) (i : QmlPhotoSphere) :=
  {| m_azimuth := m_azimuth i; m_elevation := m_elevation i;
     m_fieldOfView := m_fieldOfView i;
     m_recreateRenderer := m_recreateRenderer i; m_nodeDirty := m_nodeDirty i;
     m_maximumTextureSize := m_maximumTextureSize i;
     m_glMaxTexSize := m_glMaxTexSize i; m_image := m_image i;
     m_imageUrl := m_imageUrl i; m_cubeMap := m_cubeMap i;
     m_cubeMapUrls := v; m_rendererType := m_rendererType i |}.

Definition set_m_rendererType (v : RendererType) (i : QmlPhotoSphere) :=
  {| m_azimuth := m_azimuth i; m_elevation := m_elevation i;
     m_fieldOfView := m_fieldOfView i;
     m_recreateRenderer := m_recreateRenderer i; m_nodeDirty := m_nodeDirty i;
     m_maximumTextureSize := m_maximumTextureSize i;
     m_glMaxTexSize := m_glMaxTexSize i; m_image := m_image i;
     m_imageUrl := m_imageUrl i; m_cubeMap := m_cubeMap i;
     m_cubeMapUrls := m_cubeMapUrls i; m_rendererType := v |}.

(** The signals of the item, with their arguments. *)
Inductive Signal :=
| azimuthChanged (azimuth : float)
| elevationChanged (elevation : float)
| fieldOfViewChanged (fov : float)
| sourceChanged
| maximumTextureSizeChanged.

(** One emission: the signal, and the item as a slot connected directly to
    the signal finds it, since [emit] calls such slots before it returns. *)
Record Emission := {
  em_signal : Signal;
  em_item : QmlPhotoSphere
}.

(** The item together with the part of the host it acts on: the geometry
    inherited from [QQuickItem] (already converted to [int]), the [polish()]
    and [update()] requests, the signals emitted so far (oldest first) and
    the slots queued through [QMetaObject::invokeMethod]. *)
Record World := {
  item : QmlPhotoSphere;
  itemWidth : Z;
  itemHeight : Z;
  polishCalls : nat;
  updateCalls : nat;
  emitted : list Emission;
  queuedSlots : list string
}.

Definition World_new : World := {|
  item := QmlPhotoSphere_new;
  itemWidth := 0; itemHeight := 0;
  polishCalls := 0; updateCalls := 0;
  emitted := []; queuedSlots := []
|}.

(** ** The state monad of member functions *)

Definition M (A : Type) : Type := World -> A * World.

Definition ret {A} (a : A) : M A := fun w => (a, w).

Definition bind {A B} (m : M A) (k : A -> M B) : M B :=
  fun w => let '(a, w') := m w in k a w'.

Notation "x <- m ;; k" := (bind m (fun x => k))
  (at level 65, m at next level, right associativity).
Notation "m ;;; k" := (bind m (fun _ => k))
  (at level 65, right associativity).

Definition this : M QmlPhotoSphere := fun w => (item w, w).

Definition assign (f : QmlPhotoSphere -> QmlPhotoSphere) : M unit :=
  fun w => (tt, {| item := f (item w);
                   itemWidth := itemWidth w; itemHeight := itemHeight w;
                   polishCalls := polishCalls w; updateCalls := updateCalls w;
                   emitted := emitted w; queuedSlots := queuedSlots w |}).

Definition polish : M unit :=
  fun w => (tt, {| item := item w;
                   itemWidth := itemWidth w; itemHeight := itemHeight w;
                   polishCalls := S (polishCalls w); updateCalls := updateCalls w;
                   emitted := emitted w; queuedSlots := queuedSlots w |}).

Definition update : M unit :=
  fun w => (tt, {| item := item w;
                   itemWidth := itemWidth w; itemHeight := itemHeight w;
                   polishCalls := polishCalls w; updateCalls := S (updateCalls w);
                   emitted := emitted w; queuedSlots := queuedSlots w |}).

Definition emit (s : Signal) : M unit :=
  fun w => (tt, {| item := item w;
                   itemWidth := itemWidth w; itemHeight := itemHeight w;
                   polishCalls := polishCalls w; updateCalls := updateCalls w;
                   emitted := emitted w ++ [{| em_signal := s; em_item := item w |}];
                   queuedSlots := queuedSlots w |}).

Definition invokeMethod_queued (slot : string) : M unit :=
  fun w => (tt, {| item := item w;
                   itemWidth := itemWidth w; itemHeight := itemHeight w;
                   polishCalls := polishCalls w; updateCalls := updateCalls w;
                   emitted := emitted w;
                   queuedSlots := queuedSlots w ++ [slot] |}).

(** The world after running a member function. *)
Definition exec {A} (m : M A) (w : World) : World := snd (m w).

(** The signals emitted so far, without the item states. *)
Definition signals (w : World) : list Signal := em_signal <$> emitted w.

(** ** Member functions of [QmlPhotoSphere] *)

(** [QmlPhotoSphere::updateSphere]. *)
Definition updateSphere : M unit :=
  assign (set_m_nodeDirty true) ;;;
  polish ;;;
  update.

(** [QmlPhotoSphere::azimuth]. *)
Definition azimuth (i : QmlPhotoSphere) : float := m_azimuth i.

(** [QmlPhotoSphere::setAzimuth]. *)
Definition setAzimuth (azimuth : float) : M unit :=
  if negb (qIsFinite azimuth) then ret tt else
  let azimuth := fmod azimuth 360 in
  let azimuth := if (azimuth <? 0)%float then (azimuth + 360)%float else azimuth in
  i <- this ;;
  if (azimuth =? m_azimuth i)%float then ret tt else
  assign (set_m_azimuth azimuth) ;;;
  updateSphere ;;;
  emit (azimuthChanged azimuth).

(** The value [setAzimuth] compares with the stored azimuth and stores. *)
Definition normalizedAzimuth (azimuth : float) : float :=
  let azimuth := fmod azimuth 360 in
  if (azimuth <? 0)%float then (azimuth + 360)%float else azimuth.

(** [QmlPhotoSphere::elevation]. *)
Definition elevation (i : QmlPhotoSphere) : float := m_elevation i.

(** [QmlPhotoSphere::setElevation]. *)
Definition setElevation (elevation : float) : M unit :=
  i <- this ;;
  if (elevation =? m_elevation i)%float || negb (qIsFinite elevation)
  then ret tt else
  let elevation := qBound_double (-90) elevation 90 in
  assign (set_m_elevation elevation) ;;;
  updateSphere ;;;
  emit (elevationChanged elevation).

(** [QmlPhotoSphere::fieldOfView]. *)
Definition fieldOfView (i : QmlPhotoSphere) : float := m_fieldOfView i.

(** [QmlPhotoSphere::setFieldOfView]. *)
Definition setFieldOfView (fov : float) : M unit :=
  i <- this ;;
  if (fov =? m_fieldOfView i)%float || (fov <? 3)%float || (150 <? fov)%float
  then ret tt else
  assign (set_m_fieldOfView fov) ;;;
  updateSphere ;;;
  emit (fieldOfViewChanged fov).

(** [QmlPhotoSphere::source]. *)
Definition source (i : QmlPhotoSphere) : SourceVariant :=
  if negb (bool_decide (m_cubeMapUrls i = ∅))
  then SrcMap (m_cubeMapUrls i)
  else SrcValue (VString (m_imageUrl i)).

(** [image.isNull() || !image.width() || !image.height()]. *)
Definition emptyImage (image : QImage) : bool :=
  img_isNull image || (img_width image =? 0) || (img_height image =? 0).

(** [QmlPhotoSphere::loadFromUrl]. The [qWarning] lines only log. *)
Definition loadFromUrl (p : Platform) (url : string) : M bool :=
  if bool_decide (url = EmptyString) then ret false else
  i <- this ;;
  if bool_decide (url = m_imageUrl i) then ret true else
  if negb (urlIsValid p url) then ret false else
  let data := fetchUrl p url in
  match loadFromData p data with
  | None => ret false
  | Some image =>
      if emptyImage image then ret false else
      assign (set_m_imageUrl url) ;;;
      assign (set_m_image data) ;;;
      updateSphere ;;;
      emit sourceChanged ;;;
      ret true
  end.

(** The map [nameToCubeFace] of the anonymous namespace. *)
Definition nameToCubeFace : gmap string CubeFace :=
  list_to_map
    [("PositiveZ", PZ); ("PositiveX", PX); ("PositiveY", PY);
     ("NegativeZ", MZ); ("NegativeY", MY); ("NegativeX", MX)].

(** [nameToCubeFace.value(k)]: a missing key gives the default [CubeFace(0)]. *)
Definition nameToCubeFace_value (k : string) : CubeFace :=
  default PX (nameToCubeFace !! k).

(** The list [requiredKeys] of [loadFromCubeMap]. *)
Definition requiredKeys : list string :=
  ["PositiveX"; "PositiveY"; "PositiveZ"; "NegativeX"; "NegativeY"; "NegativeZ"].

(** [QVariantMap::value(k)]: a missing key gives an invalid variant. *)
Definition variant_value (cubeMap : QVariantMap) (k : string) : QVariant :=
  default VInvalid (cubeMap !! k).

(** First loop of [loadFromCubeMap]: every required key is present and its
    value converts to a string. [Q_ASSERT(false)] is compiled out of release
    builds; a debug build aborts there, the item untouched. *)
Fixpoint checkRequiredKeys (cubeMap : QVariantMap) (ks : list string) : bool :=
  match ks with
  | [] => true
  | k :: ks =>
      if negb (bool_decide (is_Some (cubeMap !! k))) then false
      else if negb (canConvert_QString (variant_value cubeMap k)) then false
      else checkRequiredKeys cubeMap ks
  end.

(** Second loop: every locator parses as a valid [QUrl]. *)
Fixpoint checkUrls (p : Platform) (cubeMap : QVariantMap) (ks : list string) : bool :=
  match ks with
  | [] => true
  | k :: ks =>
      if negb (urlIsValid p (toString (variant_value cubeMap k))) then false
      else checkUrls p cubeMap ks
  end.

(** [cubeMapImages[face] = data]: [operator[]] detaches first, so a map that
    still points to the shared empty block gets a block of its own. *)
Definition map_assign (p : Platform) (face : CubeFace) (data : QByteArray)
    (m : QMapFaces) : QMapFaces :=
  {| map_d := if (map_d m =? 0)%N then newMapData p else map_d m;
     map_entries := <[face := data]> (map_entries m) |}.

(** Third loop: fetch and decode face by face into the local
    [cubeMapImages]; [None] is the early [return false]. *)
Fixpoint fetchFaces (p : Platform) (cubeMap : QVariantMap) (ks : list string)
    (cubeMapImages : QMapFaces) : option QMapFaces :=
  match ks with
  | [] => Some cubeMapImages
  | k :: ks =>
      let data := fetchUrl p (toString (variant_value cubeMap k)) in
      match loadFromData p data with
      | None => None
      | Some image =>
          if emptyImage image then None
          else fetchFaces p cubeMap ks
                 (map_assign p (nameToCubeFace_value k) data cubeMapImages)
      end
  end.

(** [QmlPhotoSphere::loadFromCubeMap]. The test [m_cubeMapUrls == cubeMap]
    is [QMap::operator==], which compares the values with
    [QVariant::operator==]. *)
Definition loadFromCubeMap (p : Platform) (cubeMap : QVariantMap) : M bool :=
  if (size cubeMap =? 0)%nat then ret false else
  i <- this ;;
  if QVariantMap_eq (m_cubeMapUrls i) cubeMap then ret true else
  if negb (checkRequiredKeys cubeMap requiredKeys) then ret false else
  if negb (checkUrls p cubeMap requiredKeys) then ret false else
  match fetchFaces p cubeMap requiredKeys QMapFaces_empty with
  | None => ret false
  | Some cubeMapImages =>
      assign (set_m_cubeMap cubeMapImages) ;;;
      assign (set_m_cubeMapUrls cubeMap) ;;;
      updateSphere ;;;
      emit sourceChanged ;;;
      ret true
  end.

(** [QmlPhotoSphere::setSource]. A variant map does not convert to a string;
    a variant that converts to neither falls through both branches. *)
Definition setSource (p : Platform) (source : SourceVariant) : M unit :=
  match source with
  | SrcValue v =>
      if canConvert_QString v then
        let url := toString v in
        ok <- loadFromUrl p url ;;
        if ok : bool then
          i <- this ;;
          (if bool_decide (m_rendererType i <> SphereRenderer)
           then assign (set_m_recreateRenderer true) else ret tt) ;;;
          assign (set_m_rendererType SphereRenderer) ;;;
          assign (set_m_cubeMap QMapFaces_empty) ;;;
          assign (set_m_cubeMapUrls ∅)
        else ret tt
      else ret tt
  | SrcMap cubeMap =>
      ok <- loadFromCubeMap p cubeMap ;;
      if ok : bool then
        i <- this ;;
        (if bool_decide (m_rendererType i <> CubeRenderer)
         then assign (set_m_recreateRenderer true) else ret tt) ;;;
        assign (set_m_rendererType CubeRenderer) ;;;
        assign (set_m_image QByteArray_null) ;;;
        assign (set_m_imageUrl EmptyString)
      else ret tt
  end.

(** [QmlPhotoSphere::maximumTextureSize]. *)
Definition maximumTextureSize (i : QmlPhotoSphere) : Z :=
  qMin (m_maximumTextureSize i) (m_glMaxTexSize i).

(** [QmlPhotoSphere::signalUpdatedMaxSize]. *)
Definition signalUpdatedMaxSize : M unit :=
  emit maximumTextureSizeChanged.

(** [QmlPhotoSphere::setMaximumTextureSize]. *)
Definition setMaximumTextureSize (maxTexSize : Z) : M unit :=
  i <- this ;;
  if maxTexSize =? m_maximumTextureSize i then ret tt else
  let oldSz := maximumTextureSize i in
  assign (set_m_maximumTextureSize maxTexSize) ;;;
  i' <- this ;;
  let newSz := maximumTextureSize i' in
  if oldSz =? newSz then ret tt else
  updateSphere ;;;
  emit maximumTextureSizeChanged.

(** The calls an embedding application can make on the item: the [WRITE]
    accessors of its properties. A [setSource] call comes with the platform
    it runs against, which may differ from call to call. *)
Inductive Call :=
| SetAzimuth (azimuth : float)
| SetElevation (elevation : float)
| SetFieldOfView (fov : float)
| SetSource (p : Platform) (source : SourceVariant)
| SetMaximumTextureSize (maxTexSize : Z).

Definition call (c : Call) : M unit :=
  match c with
  | SetAzimuth a => setAzimuth a
  | SetElevation e => setElevation e
  | SetFieldOfView f => setFieldOfView f
  | SetSource p s => setSource p s
  | SetMaximumTextureSize v => setMaximumTextureSize v
  end.

Fixpoint calls (cs : list Call) : M unit :=
  match cs with
  | [] => ret tt
  | c :: cs => call c ;;; calls cs
  end.

(** ** The render-state snapshot *)

Module PhotoSphereRenderState.

(** [struct PhotoSphereRenderState]; the three angles are [float]s. *)
Record t := {
  azimuth : float;
  elevation : float;
  fov : float;
  viewportWidth : Z;
  viewportHeight : Z;
  source : QByteArray;
  sourceCube : QMapFaces;
  maxTexSize : Z
}.

(** The default member initialisers. *)
Definition new : t := {|
  azimuth := 0; elevation := 0; fov := 90;
  viewportWidth := 0; viewportHeight := 0;
  source := QByteArray_null; sourceCube := QMapFaces_empty;
  maxTexSize := INT_MAX
|}.

(** [PhotoSphereRenderState::operator==]. *)
Definition operator_eq (s o : t) : bool :=
  (azimuth s =? azimuth o)%float
  && (elevation s =? elevation o)%float
  && (fov s =? fov o)%float
  && (viewportHeight s =? viewportHeight o)
  && (viewportWidth s =? viewportWidth o)
  && ba_isSharedWith (source s) (source o)
  && map_isSharedWith (sourceCube s) (sourceCube o)
  && (maxTexSize s =? maxTexSize o).



End PhotoSphereRenderState.

(** ** The renderer base class *)

Module PhotoSphereRendererBase.

(** The members of [class PhotoSphereRendererBase] that [synchronize]
    reads and writes; [m_shader] is kept as "the pointer is not null". *)
Record t := {
  m_shader : bool;
  m_state : PhotoSphereRenderState.t;
  m_oldState : PhotoSphereRenderState.t;
  m_glMaxTexSize : Z
}.

(** A freshly constructed renderer. *)
Definition new : t := {|
  m_shader := false;
  m_state := PhotoSphereRenderState.new;
  m_oldState := PhotoSphereRenderState.new;
  m_glMaxTexSize := INT_MAX
|}.

End PhotoSphereRendererBase.

(** [PhotoSphereRendererBase::initBase]. *)
Definition initBase (p : Platform) (r : PhotoSphereRendererBase.t)
    : PhotoSphereRendererBase.t :=
  {| PhotoSphereRendererBase.m_shader := true;
     PhotoSphereRendererBase.m_state := PhotoSphereRendererBase.m_state r;
     PhotoSphereRendererBase.m_oldState := PhotoSphereRendererBase.m_oldState r;
     PhotoSphereRendererBase.m_glMaxTexSize := glMaxTextureSize p |}.

(** [init] of both renderer subclasses, as far as the base is concerned. *)
Definition init (p : Platform) (r : PhotoSphereRendererBase.t)
    : PhotoSphereRendererBase.t :=
  if negb (PhotoSphereRendererBase.m_shader r) then initBase p r else r.

(** [PhotoSphereRendererBase::updateState]. *)
Definition updateState (r : PhotoSphereRendererBase.t)
    : M PhotoSphereRendererBase.t :=
  itm <- this ;;
  w <- (fun w => (w, w)) ;;
  let r' :=
    {| PhotoSphereRendererBase.m_shader := PhotoSphereRendererBase.m_shader r;
       PhotoSphereRendererBase.m_oldState := PhotoSphereRendererBase.m_state r;
       PhotoSphereRendererBase.m_state :=
         {| PhotoSphereRenderState.azimuth := to_float32 (azimuth itm);
            PhotoSphereRenderState.elevation := to_float32 (elevation itm);
            PhotoSphereRenderState.fov := to_float32 (fieldOfView itm);
            PhotoSphereRenderState.viewportWidth := itemWidth w;
            PhotoSphereRenderState.viewportHeight := itemHeight w;
            PhotoSphereRenderState.source := m_image itm;
            PhotoSphereRenderState.sourceCube := m_cubeMap itm;
            PhotoSphereRenderState.maxTexSize :=
              qMin (PhotoSphereRendererBase.m_glMaxTexSize r)
                   (m_maximumTextureSize itm) |};
       PhotoSphereRendererBase.m_glMaxTexSize :=
         PhotoSphereRendererBase.m_glMaxTexSize r |} in
  (if negb (m_glMaxTexSize itm =? PhotoSphereRendererBase.m_glMaxTexSize r) then
     let oldValue := qMin (m_glMaxTexSize itm) (m_maximumTextureSize itm) in
     assign (set_m_glMaxTexSize (PhotoSphereRendererBase.m_glMaxTexSize r)) ;;;
     itm' <- this ;;
     let newValue := qMin (m_glMaxTexSize itm') (m_maximumTextureSize itm') in
     if negb (oldValue =? newValue)
     then invokeMethod_queued "signalUpdatedMaxSize"
     else ret tt
   else ret tt) ;;;
  ret r'.

(** [PhotoSphereRendererBase::synchronize]: [true] when the rest of the
    subclass's [synchronize] has to run. *)
Definition synchronize (p : Platform) (r : PhotoSphereRendererBase.t)
    : M (bool * PhotoSphereRendererBase.t) :=
  let r := init p r in
  r' <- updateState r ;;
  ret (negb (PhotoSphereRenderState.operator_eq
               (PhotoSphereRendererBase.m_state r')
               (PhotoSphereRendererBase.m_oldState r')),
       r').

(** ** The meshes *)

(** [QVector3D] and [QVector2D] hold [float]s; their constructors take
    [float]s, so the [double] arguments of the code are rounded on entry. *)
Record QVector3D := { v3_x : float; v3_y : float; v3_z : float }.
Record QVector2D := { v2_x : float; v2_y : float }.

Definition QVector3D_of_doubles (x y z : float) : QVector3D :=
  {| v3_x := to_float32 x; v3_y := to_float32 y; v3_z := to_float32 z |}.

Definition QVector2D_of_doubles (x y : float) : QVector2D :=
  {| v2_x := to_float32 x; v2_y := to_float32 y |}.

(** [qFuzzyIsNull(float f)]: [qAbs(f) <= 0.00001f]; the literal is the
    binary32 value nearest to 0.00001. *)
Definition qFuzzyIsNull (f : float) : bool := (abs f <=? 0x1.4f8b58p-17)%float.

(** [M_PI] and [M_PI_2] of [<cmath>], as doubles. *)
Definition M_PI : float := 0x1.921fb54442d18p+1.
Definition M_PI_2 : float := 0x1.921fb54442d18p+0.

Module Sphere3D.
Section WithLibm.

(** [cos] and [sin] of libm. *)
Variables cos sin : float -> float.

(** The two vectors of [struct Sphere3D] that [generateSphere] fills. *)
Record t := {
  m_sphereVertices : list QVector3D;
  m_texCoords : list QVector2D
}.

Definition step : float := 0.015625.
Definition pi : float := M_PI.
Definition pi2 : float := 2 * pi.
Definition di : float := step.
Definition dj : float := step * 2.
Definition du : float := di * 2 * pi.
Definition dv : float := dj * pi.

(** The "nullify zeroes" loop on one vertex. *)
Definition nullify (v : QVector3D) : QVector3D :=
  {| v3_x := if qFuzzyIsNull (v3_x v) then 0%float else v3_x v;
     v3_y := if qFuzzyIsNull (v3_y v) then 0%float else v3_y v;
     v3_z := if qFuzzyIsNull (v3_z v) then 0%float else v3_z v |}.

(** The body of the two nested loops, for the cell at [(i, j)]. *)
Definition cell (i j : float) (s : t) : t :=
  let u := (i * pi2 + M_PI_2)%float in
  let v := (M_PI_2 - j * pi)%float in
  let bl := QVector3D_of_doubles
              (cos u * cos (v - dv)) (sin (v - dv)) ((- sin u) * cos (v - dv)) in
  let br := QVector3D_of_doubles
              (cos (u + du) * cos (v - dv)) (sin (v - dv))
              ((- sin (u + du)) * cos (v - dv)) in
  let tr := QVector3D_of_doubles
              (cos (u + du) * cos v) (sin v) ((- sin (u + du)) * cos v) in
  let tl := QVector3D_of_doubles
              (cos u * cos v) (sin v) ((- sin u) * cos v) in
  let bl := nullify bl in
  let br := nullify br in
  let tr := nullify tr in
  let tl := nullify tl in
  let texBl := QVector2D_of_doubles (1 - i) (j + dj) in
  let texBr := QVector2D_of_doubles (1 - i - di) (j + dj) in
  let texTr := QVector2D_of_doubles (1 - i - di) j in
  let texTl := QVector2D_of_doubles (1 - i) j in
  {| m_sphereVertices := m_sphereVertices s ++ [bl; tl; tr; bl; tr; br];
     m_texCoords := m_texCoords s ++ [texBl; texTl; texTr; texBl; texTr; texBr] |}.

(** [for (double j = 0; j < 1.0; j += dj)], entered at [j]; the loop
    counter is a [double], so the recursion is bounded by [fuel] and
    [None] means that the bound was too small. *)
Fixpoint vertical (fuel : nat) (i j : float) (s : t) : option t :=
  if (j <? 1)%float then
    match fuel with
    | O => None
    | S fuel => vertical fuel i (j + dj) (cell i j s)
    end
  else Some s.

(** [for (double i = 0; i < 1.0; i += di)], entered at [i]; [fuelj]
    bounds each run of the inner loop. *)
Fixpoint horizontal (fuel fuelj : nat) (i : float) (s : t) : option t :=
  if (i <? 1)%float then
    match fuel with
    | O => None
    | S fuel =>
        match vertical fuelj i 0 s with
        | None => None
        | Some s' => horizontal fuel fuelj (i + di) s'
        end
    end
  else Some s.

(** [Sphere3D::generateSphere], run by the constructor on empty vectors. *)
Definition generateSphere (fuel : nat) : option t :=
  horizontal fuel fuel 0 {| m_sphereVertices := []; m_texCoords := [] |}.

(** The cells of one sector, for the inner counters [jv], and of all the
    sectors [iv]: what the loops amount to once their counters are known. *)
Definition column (i : float) (s : t) (jv : list float) : t :=
  foldl (fun s j => cell i j s) s jv.

Definition columns (jv : list float) (s : t) (iv : list float) : t :=
  foldl (fun s i => column i s jv) s iv.

End WithLibm.

(** The values a loop counter [for (x; x < 1.0; x += dx)] goes through,
    under the same bound. *)
Fixpoint counters (fuel : nat) (x dx : float) : option (list float) :=
  if (x <? 1)%float then
    match fuel with
    | O => None
    | S fuel => cons x <$> counters fuel (x + dx) dx
    end
  else Some [].

End Sphere3D.

Module Cube3D.

(** The arrays of [struct Cube3D]. *)
Record t := {
  m_scale : float;
  m_cubeVertices : list QVector3D;
  m_indices : list nat;
  m_texCoordsFace : list QVector2D;
  m_vertices : list QVector3D;
  m_texCoords : list QVector2D
}.

Definition QVector3D_zero : QVector3D := {| v3_x := 0; v3_y := 0; v3_z := 0 |}.
Definition QVector2D_zero : QVector2D := {| v2_x := 0; v2_y := 0 |}.

(** Unchecked [operator[]] of [std::array]; every index the constructor
    uses is in range. *)
Definition at3 (a : list QVector3D) (i : nat) : QVector3D :=
  default QVector3D_zero (a !! i).
Definition at2 (a : list QVector2D) (i : nat) : QVector2D :=
  default QVector2D_zero (a !! i).
Definition atIndex (a : list nat) (i : nat) : nat := default 0%nat (a !! i).

(** The member initialisers; the products [±1.0f * m_scale] are exact. *)
Definition cubeVertices (m_scale : float) : list QVector3D :=
  [ {| v3_x := -1 * m_scale; v3_y := 1 * m_scale; v3_z := 1 * m_scale |};
    {| v3_x := -1 * m_scale; v3_y := -1 * m_scale; v3_z := 1 * m_scale |};
    {| v3_x := 1 * m_scale; v3_y := -1 * m_scale; v3_z := 1 * m_scale |};
    {| v3_x := 1 * m_scale; v3_y := 1 * m_scale; v3_z := 1 * m_scale |};
    {| v3_x := -1 * m_scale; v3_y := 1 * m_scale; v3_z := -1 * m_scale |};
    {| v3_x := -1 * m_scale; v3_y := -1 * m_scale; v3_z := -1 * m_scale |};
    {| v3_x := 1 * m_scale; v3_y := -1 * m_scale; v3_z := -1 * m_scale |};
    {| v3_x := 1 * m_scale; v3_y := 1 * m_scale; v3_z := -1 * m_scale |} ]%float.

Definition indices : list nat :=
  [ 3; 2; 6; 7;
    4; 0; 3; 7;
    0; 1; 2; 3;
    4; 5; 1; 0;
    1; 5; 6; 2;
    7; 6; 5; 4 ]%nat.

Definition texCoordsFace : list QVector2D :=
  [ {| v2_x := 1; v2_y := 0 |};
    {| v2_x := 1; v2_y := 1 |};
    {| v2_x := 0; v2_y := 1 |};
    {| v2_x := 0; v2_y := 0 |} ]%float.

(** One turn of the loop in the constructor's body. *)
Definition fill (c : t) (i : nat) : t :=
  {| m_scale := m_scale c;
     m_cubeVertices := m_cubeVertices c;
     m_indices := m_indices c;
     m_texCoordsFace := m_texCoordsFace c;
     m_vertices :=
       <[i := at3 (m_cubeVertices c) (atIndex (m_indices c) i)]> (m_vertices c);
     m_texCoords :=
       <[i := at2 (m_texCoordsFace c) (i mod 4)]> (m_texCoords c) |}.

(** [Cube3D::Cube3D(float scale)]: [m_vertices] and [m_texCoords] are
    [std::array]s of 24 default-constructed vectors before the loop. *)
Definition Cube3D (scale : float) : t :=
  let c := {| m_scale := scale;
              m_cubeVertices := cubeVertices scale;
              m_indices := indices;
              m_texCoordsFace := texCoordsFace;
              m_vertices := replicate 24 QVector3D_zero;
              m_texCoords := replicate 24 QVector2D_zero |} in
  foldl fill c (seq 0 (length (m_indices c))).

End Cube3D.

(** ** Which source variant is populated *)

(** The single-image variant holds something: bytes or a locator. *)
Definition singlePopulated (i : QmlPhotoSphere) : bool :=
  negb (ba_isEmpty (m_image i)) || negb (bool_decide (m_imageUrl i = EmptyString)).

(** The cube-map variant holds something: face bytes or locators. *)
Definition cubePopulated (i : QmlPhotoSphere) : bool :=
  negb (map_isEmpty (m_cubeMap i)) || negb (bool_decide (m_cubeMapUrls i = ∅)).

(** At most one of the two variants is populated. *)
Definition variantsExclusive (i : QmlPhotoSphere) : bool :=
  negb (singlePopulated i && cubePopulated i).

(** The face named [k] of [cubeMap] fetches and decodes to a non-empty image. *)
Definition faceLoads (p : Platform) (cubeMap : QVariantMap) (k : string) : bool :=
  match loadFromData p (fetchUrl p (toString (variant_value cubeMap k))) with
  | None => false
  | Some image => negb (emptyImage image)
  end.

(** The face named [k] of [cubeMap] passes the three loops of
    [loadFromCubeMap]. *)
Definition faceAccepted (p : Platform) (cubeMap : QVariantMap) (k : string) : Prop :=
  is_Some (cubeMap !! k)
  /\ canConvert_QString (variant_value cubeMap k) = true
  /\ urlIsValid p (toString (variant_value cubeMap k)) = true
  /\ faceLoads p cubeMap k = true.

(** The stored locator map is empty or has passed the first loop of
    [loadFromCubeMap]. *)
Definition storedComplete (i : QmlPhotoSphere) : Prop :=
  m_cubeMapUrls i = ∅ \/ checkRequiredKeys (m_cubeMapUrls i) requiredKeys = true.

(** What [setSource] does to the item after a successful single-image load. *)
Definition switchToSphere (i : QmlPhotoSphere) : QmlPhotoSphere :=
  set_m_cubeMapUrls ∅
    (set_m_cubeMap QMapFaces_empty
       (set_m_rendererType SphereRenderer
          (if bool_decide (m_rendererType i <> SphereRenderer)
           then set_m_recreateRenderer true i else i))).

(** What [setSource] does to the item after a successful cube-map load. *)
Definition switchToCube (i : QmlPhotoSphere) : QmlPhotoSphere :=
  set_m_imageUrl EmptyString
    (set_m_image QByteArray_null
       (set_m_rendererType CubeRenderer
          (if bool_decide (m_rendererType i <> CubeRenderer)
           then set_m_recreateRenderer true i else i))).

(** ** Concrete data for the examples *)

(** A device whose largest texture is 4096 texels wide, a network that
    answers every request with the same four bytes, and decoders that read
    them as a 2 x 1 image. *)
Definition examplePlatform : Platform := {|
  fetchUrl := fun _ => {| ba_d := 7%N; ba_bytes := [Byte.x89; Byte.x50; Byte.x4e; Byte.x47] |};
  loadFromData := fun _ => Some {| img_isNull := false; img_width := 2; img_height := 1 |};
  urlIsValid := fun _ => true;
  newMapData := 9%N;
  glMaxTextureSize := 4096
|}.

(** The same device, with decoders that reject everything. *)
Definition brokenPlatform : Platform := {|
  fetchUrl := fun _ => QByteArray_null;
  loadFromData := fun _ => None;
  urlIsValid := fun _ => true;
  newMapData := 11%N;
  glMaxTextureSize := 4096
|}.

Definition exampleCubeMap : QVariantMap :=
  list_to_map
    [("PositiveX", VString "px.png"); ("PositiveY", VString "py.png");
     ("PositiveZ", VString "pz.png"); ("NegativeX", VString "nx.png");
     ("NegativeY", VString "ny.png"); ("NegativeZ", VString "nz.png")].

(** Six other faces. *)
Definition otherCubeMap : QVariantMap :=
  list_to_map
    [("PositiveX", VString "right.jpg"); ("PositiveY", VString "top.jpg");
     ("PositiveZ", VString "front.jpg"); ("NegativeX", VString "left.jpg");
     ("NegativeY", VString "bottom.jpg"); ("NegativeZ", VString "back.jpg")].

(** Five of the six faces. *)
Definition fiveFaces : QVariantMap := delete "NegativeZ" exampleCubeMap.

(** An item showing [exampleCubeMap]. *)
Definition cubeWorld : World :=
  exec (setSource examplePlatform (SrcMap exampleCubeMap)) World_new.

(** ** Predicates on the item *)

(** The stored elevation lies in [-90, 90]. *)
Definition elevationInRange (i : QmlPhotoSphere) : bool :=
  ((-90 <=? m_elevation i) && (m_elevation i <=? 90))%float.

(** The stored field of view is NaN or lies in [3, 150]. *)
Definition fieldOfViewInRangeOrNaN (i : QmlPhotoSphere) : bool :=
  is_nan (m_fieldOfView i)
  || ((3 <=? m_fieldOfView i) && (m_fieldOfView i <=? 150))%float.

(** A change signal of a numeric property carries the value that is stored
    when it is emitted. *)
Definition carriesStoredValue (e : Emission) : Prop :=
  match em_signal e with
  | azimuthChanged a => m_azimuth (em_item e) = a
  | elevationChanged x => m_elevation (em_item e) = x
  | fieldOfViewChanged f => m_fieldOfView (em_item e) = f
  | sourceChanged | maximumTextureSizeChanged => True
  end.

(** The item shows a cube map: the renderer type is the cube renderer's
    and the single-image members are cleared. *)
Definition cubeShown (i : QmlPhotoSphere) : Prop :=
  m_rendererType i = CubeRenderer
  /\ m_image i = QByteArray_null
  /\ m_imageUrl i = EmptyString.

(** Some source is loaded. *)
Definition populated (i : QmlPhotoSphere) : bool :=
  singlePopulated i || cubePopulated i.

(** The renderer type is the one of the populated variant. *)
Definition rendererMatchesSource (i : QmlPhotoSphere) : Prop :=
  (singlePopulated i = true -> m_rendererType i = SphereRenderer)
  /\ (cubePopulated i = true -> m_rendererType i = CubeRenderer).

(** The numeric property a call writes, if any. *)
Definition numericProperty (c : Call) : option string :=
  match c with
  | SetAzimuth _ => Some "azimuth"
  | SetElevation _ => Some "elevation"
  | SetFieldOfView _ => Some "fieldOfView"
  | SetMaximumTextureSize _ => Some "maximumTextureSize"
  | SetSource _ _ => None
  end.

(** ** The paint node *)

(** The two classes [createRenderer] instantiates. *)
Inductive RendererClass :=
| PhotoSphereRendererCube_class
| PhotoSphereRenderer_class.

(** [QmlPhotoSphere::createRenderer]. *)
Definition createRenderer (i : QmlPhotoSphere) : RendererClass :=
  if bool_decide (m_rendererType i = CubeRenderer)
  then PhotoSphereRendererCube_class
  else PhotoSphereRenderer_class.

(** The statements of [QmlPhotoSphere::updatePaintNode] before the call of
    the base class. A node is kept as the class of the renderer it holds;
    the result is the node handed to the base class. [releaseResources()]
    only resets the item's private node pointer. *)
Definition updatePaintNode_discard (oldNode : option RendererClass)
    : M (option RendererClass) :=
  i <- this ;;
  if bool_decide (is_Some oldNode) && m_recreateRenderer i then
    assign (set_m_recreateRenderer false) ;;;
    ret None
  else ret oldNode.

(** [QmlPhotoSphere::updatePaintNode], over the implementation of the base
    class [QQuickFramebufferObject]. *)
Definition updatePaintNode
    (base_updatePaintNode : option RendererClass -> M (option RendererClass))
    (oldNode : option RendererClass) : M (option RendererClass) :=
  n <- updatePaintNode_discard oldNode ;;
  base_updatePaintNode n.

(** What happens to an item between two frames: a property is written, or
    the scene graph asks for its paint node. *)
Inductive HostStep :=
| Write (c : Call)
| Paint.

Definition hostStep
    (base_updatePaintNode : option RendererClass -> M (option RendererClass))
    (s : HostStep) (st : World * option RendererClass)
    : World * option RendererClass :=
  match s with
  | Write c => (exec (call c) (fst st), snd st)
  | Paint =>
      let '(n, w) := updatePaintNode base_updatePaintNode (snd st) (fst st) in
      (w, n)
  end.

Definition hostSteps
    (base_updatePaintNode : option RendererClass -> M (option RendererClass))
    (ss : list HostStep) (st : World * option RendererClass)
    : World * option RendererClass :=
  foldl (fun st s => hostStep base_updatePaintNode s st) st ss.

(** A base class that always has a node when it returns, with a renderer
    made by [createRenderer] when the node is new. *)
Definition exampleBase (n : option RendererClass) : M (option RendererClass) :=
  i <- this ;;
  match n with
  | Some c => ret (Some c)
  | None => ret (Some (createRenderer i))
  end.

(** What holds between any two steps. *)
Definition nodeInvariant (st : World * option RendererClass) : Prop :=
  snd st = None
  \/ m_recreateRenderer (item (fst st)) = true
  \/ snd st = Some (createRenderer (item (fst st))).

(** What holds right after [updatePaintNode]. *)
Definition nodeCurrent (st : World * option RendererClass) : Prop :=
  snd st = None \/ snd st = Some (createRenderer (item (fst st))).

(** ** The two renderers *)

#[global] Instance byte_eq_dec : EqDecision Byte.byte := Byte.byte_eq_dec.

(** [QByteArray::operator!=] compares the bytes. *)
Definition ba_differs (a b : QByteArray) : bool :=
  negb (bool_decide (ba_bytes a = ba_bytes b)).

(** [QMap::operator!=] compares the keys and, key by key, the values. *)
Definition map_differs (a b : QMapFaces) : bool :=
  negb (bool_decide ((ba_bytes <$> map_entries a) = (ba_bytes <$> map_entries b))).

(** [QMap::value(key)]: the stored value, or a default-constructed one. *)
Definition map_value (m : QMapFaces) (f : CubeFace) : QByteArray :=
  default QByteArray_null (map_entries m !! f).

(** A null [QImage]. *)
Definition QImage_null : QImage :=
  {| img_isNull := true; img_width := 0; img_height := 0 |}.

(** [QImage::fromData]: the image stays null when loading fails. *)
Definition QImage_fromData (p : Platform) (data : QByteArray) : QImage :=
  default QImage_null (loadFromData p data).

(** Conversion [int -> float]. *)
Definition float_of_int (z : Z) : float :=
  SF2Prim (binary_normalize 24 128 z 0 false).

(** A [QMatrix4x4], kept as the calls that made it. *)
Inductive QMatrix4x4 :=
| M_identity
| M_perspective (m : QMatrix4x4) (verticalAngle aspectRatio nearPlane farPlane : float)
| M_rotate (m : QMatrix4x4) (angle x y z : float)
| M_mul (a b : QMatrix4x4).

(** The view-projection matrix both [synchronize]s compute from the
    snapshot. *)
Definition viewProjection (s : PhotoSphereRenderState.t) : QMatrix4x4 :=
  let ar := to_float32
              (float_of_int (PhotoSphereRenderState.viewportWidth s)
               / float_of_int (PhotoSphereRenderState.viewportHeight s)) in
  let matProjection :=
    M_perspective M_identity (PhotoSphereRenderState.fov s) ar
      (to_float32 0x1.0624dd2f1a9fcp-10) 200 in
  let matAzimuth := M_rotate M_identity (PhotoSphereRenderState.azimuth s) 0 1 0 in
  let matElevation :=
    M_rotate M_identity (PhotoSphereRenderState.elevation s) (-1) 0 0 in
  M_mul (M_mul (M_mul M_identity matProjection) matElevation) matAzimuth.

(** The sampling parameters the renderers set on a texture. *)
Inductive TextureCall :=
| setAutoMipMapGenerationEnabled (enabled : bool)
| setMaximumAnisotropy (anisotropy : float)
| setWrapMode_ClampToEdge
| setMinificationFilter_LinearMipMapLinear
| setMagnificationFilter_Linear.

(** A [QOpenGLTexture]: the image in its storage, if it has storage, and
    the parameter calls made on it so far, oldest first. *)
Record QOpenGLTexture := {
  tex_storage : option QImage;
  tex_calls : list TextureCall
}.

Definition QOpenGLTexture_new : QOpenGLTexture :=
  {| tex_storage := None; tex_calls := [] |}.

(** [QOpenGLTexture::destroy]. *)
Definition tex_destroy (t : QOpenGLTexture) : QOpenGLTexture :=
  {| tex_storage := None; tex_calls := tex_calls t |}.

(** [QOpenGLTexture::setData(QImage)] on a texture without storage: a null
    image is refused with a warning. *)
Definition tex_setData (image : QImage) (t : QOpenGLTexture) : QOpenGLTexture :=
  if img_isNull image then t
  else {| tex_storage := Some image; tex_calls := tex_calls t |}.

Definition tex_call (c : TextureCall) (t : QOpenGLTexture) : QOpenGLTexture :=
  {| tex_storage := tex_storage t; tex_calls := tex_calls t ++ [c] |}.

(** The members of [class PhotoSphereRenderer] and of its base that its
    [synchronize] writes; [sphere_fboInvalidations] counts the calls of
    [invalidateFramebufferObject()], [m_texPhotoSphere] is [None] while the
    pointer is null. *)
Record PhotoSphereRenderer := {
  sphere_base : PhotoSphereRendererBase.t;
  sphere_mvp : QMatrix4x4;
  sphere_fboInvalidations : nat;
  m_texPhotoSphere : option QOpenGLTexture
}.

Definition PhotoSphereRenderer_new : PhotoSphereRenderer := {|
  sphere_base := PhotoSphereRendererBase.new;
  sphere_mvp := M_identity;
  sphere_fboInvalidations := 0;
  m_texPhotoSphere := None
|}.

(** The same for [class PhotoSphereRendererCube]. *)
Record PhotoSphereRendererCube := {
  cube_base : PhotoSphereRendererBase.t;
  cube_mvp : QMatrix4x4;
  cube_fboInvalidations : nat;
  m_texFaces : gmap CubeFace QOpenGLTexture
}.

Definition PhotoSphereRendererCube_new : PhotoSphereRendererCube := {|
  cube_base := PhotoSphereRendererBase.new;
  cube_mvp := M_identity;
  cube_fboInvalidations := 0;
  m_texFaces := ∅
|}.

(** The faces in the order of [for (int i = PX; i != InvalidFace; i++)]. *)
Definition cubeFaces : list CubeFace := [PX; PY; PZ; MX; MY; MZ].

(** The viewport test of both [synchronize]s. *)
Definition viewportChanged (st old : PhotoSphereRenderState.t) : bool :=
  negb (PhotoSphereRenderState.viewportHeight st
        =? PhotoSphereRenderState.viewportHeight old)
  || negb (PhotoSphereRenderState.viewportWidth st
           =? PhotoSphereRenderState.viewportWidth old).

Section Renderers.

(** The resampling of [QImage::scaledToWidth] for a non-null image and a
    positive width, which is Qt's. *)
Variable resample : QImage -> Z -> QImage.

(** [QImage::scaledToWidth]: a null image or a width that is not positive
    gives a null image. *)
Definition scaledToWidth (image : QImage) (w : Z) : QImage :=
  if img_isNull image || (w <=? 0) then QImage_null else resample image w.

(** [PhotoSphereRenderer::init]. *)
Definition PhotoSphereRenderer_init (p : Platform) (r : PhotoSphereRenderer)
    : PhotoSphereRenderer :=
  if negb (PhotoSphereRendererBase.m_shader (sphere_base r)) then
    {| sphere_base := initBase p (sphere_base r);
       sphere_mvp := sphere_mvp r;
       sphere_fboInvalidations := sphere_fboInvalidations r;
       m_texPhotoSphere := Some QOpenGLTexture_new |}
  else r.

(** The upload at the end of [PhotoSphereRenderer::synchronize]. *)
Definition uploadPhotoSphere (m_glMaxTexSize : Z) (image : QImage)
    (t : QOpenGLTexture) : QOpenGLTexture :=
  let t := tex_destroy t in
  let image := if m_glMaxTexSize <? img_width image
               then scaledToWidth image m_glMaxTexSize else image in
  let t := tex_setData image t in
  let t := tex_call (setAutoMipMapGenerationEnabled true) t in
  let t := tex_call (setMaximumAnisotropy 16) t in
  let t := tex_call setMinificationFilter_LinearMipMapLinear t in
  tex_call setMagnificationFilter_Linear t.

(** [PhotoSphereRenderer::synchronize]; the base class's [synchronize]
    calls the virtual [init] first. *)
Definition PhotoSphereRenderer_synchronize (p : Platform)
    (r : PhotoSphereRenderer) : M PhotoSphereRenderer :=
  let r := PhotoSphereRenderer_init p r in
  cb <- synchronize p (sphere_base r) ;;
  let base := snd cb in
  let m_state := PhotoSphereRendererBase.m_state base in
  let m_oldState := PhotoSphereRendererBase.m_oldState base in
  if negb (fst cb) then
    ret {| sphere_base := base; sphere_mvp := sphere_mvp r;
           sphere_fboInvalidations := sphere_fboInvalidations r;
           m_texPhotoSphere := m_texPhotoSphere r |}
  else
    let invalidations :=
      if viewportChanged m_state m_oldState
      then S (sphere_fboInvalidations r) else sphere_fboInvalidations r in
    let m_mvp := viewProjection m_state in
    if ba_differs (PhotoSphereRenderState.source m_oldState)
                  (PhotoSphereRenderState.source m_state) then
      let image := QImage_fromData p (PhotoSphereRenderState.source m_state) in
      if emptyImage image then
        ret {| sphere_base := base; sphere_mvp := m_mvp;
               sphere_fboInvalidations := invalidations;
               m_texPhotoSphere := m_texPhotoSphere r |}
      else
        ret {| sphere_base := base; sphere_mvp := m_mvp;
               sphere_fboInvalidations := invalidations;
               m_texPhotoSphere :=
                 uploadPhotoSphere
                   (PhotoSphereRendererBase.m_glMaxTexSize base) image
                 <$> m_texPhotoSphere r |}
    else
      ret {| sphere_base := base; sphere_mvp := m_mvp;
             sphere_fboInvalidations := invalidations;
             m_texPhotoSphere := m_texPhotoSphere r |}.

(** [PhotoSphereRendererCube::init]: one texture per face. *)
Definition PhotoSphereRendererCube_init (p : Platform)
    (r : PhotoSphereRendererCube) : PhotoSphereRendererCube :=
  if negb (PhotoSphereRendererBase.m_shader (cube_base r)) then
    {| cube_base := initBase p (cube_base r);
       cube_mvp := cube_mvp r;
       cube_fboInvalidations := cube_fboInvalidations r;
       m_texFaces :=
         foldl (fun texs face => <[face := QOpenGLTexture_new]> texs)
               (m_texFaces r) cubeFaces |}
  else r.

(** One turn of the reload loop of [PhotoSphereRendererCube::synchronize],
    on the texture of [face]. *)
Definition uploadFace (p : Platform) (m_state : PhotoSphereRenderState.t)
    (m_glMaxTexSize : Z) (face : CubeFace) (t : QOpenGLTexture)
    : QOpenGLTexture :=
  let t := tex_destroy t in
  let image :=
    QImage_fromData p (map_value (PhotoSphereRenderState.sourceCube m_state) face) in
  let maxSz := qMin (PhotoSphereRenderState.maxTexSize m_state) m_glMaxTexSize in
  let image := if maxSz <? img_width image
               then scaledToWidth image maxSz else image in
  let t := tex_setData image t in
  let t := tex_call (setAutoMipMapGenerationEnabled true) t in
  let t := tex_call (setMaximumAnisotropy 16) t in
  let t := tex_call setWrapMode_ClampToEdge t in
  let t := tex_call setMinificationFilter_LinearMipMapLinear t in
  tex_call setMagnificationFilter_Linear t.

(** The reload loop; after [init] every face has its texture. *)
Definition reloadFaces (p : Platform) (m_state : PhotoSphereRenderState.t)
    (m_glMaxTexSize : Z) (texs : gmap CubeFace QOpenGLTexture)
    : gmap CubeFace QOpenGLTexture :=
  foldl (fun texs face => alter (uploadFace p m_state m_glMaxTexSize face) face texs)
        texs cubeFaces.

(** [PhotoSphereRendererCube::synchronize]. *)
Definition PhotoSphereRendererCube_synchronize (p : Platform)
    (r : PhotoSphereRendererCube) : M PhotoSphereRendererCube :=
  let r := PhotoSphereRendererCube_init p r in
  cb <- synchronize p (cube_base r) ;;
  let base := snd cb in
  let m_state := PhotoSphereRendererBase.m_state base in
  let m_oldState := PhotoSphereRendererBase.m_oldState base in
  if negb (fst cb) then
    ret {| cube_base := base; cube_mvp := cube_mvp r;
           cube_fboInvalidations := cube_fboInvalidations r;
           m_texFaces := m_texFaces r |}
  else
    let invalidations :=
      if viewportChanged m_state m_oldState
      then S (cube_fboInvalidations r) else cube_fboInvalidations r in
    let m_mvp := viewProjection m_state in
    if map_differs (PhotoSphereRenderState.sourceCube m_oldState)
                   (PhotoSphereRenderState.sourceCube m_state)
       || negb (PhotoSphereRenderState.maxTexSize m_oldState
                =? PhotoSphereRenderState.maxTexSize m_state) then
      ret {| cube_base := base; cube_mvp := m_mvp;
             cube_fboInvalidations := invalidations;
             m_texFaces :=
               reloadFaces p m_state
                 (PhotoSphereRendererBase.m_glMaxTexSize base) (m_texFaces r) |}
    else
      ret {| cube_base := base; cube_mvp := m_mvp;
             cube_fboInvalidations := invalidations;
             m_texFaces := m_texFaces r |}.

End Renderers.

(** A platform whose decoders read every reply as a 8192 x 4096 image, on a
    device limited to 16384. *)
Definition widePlatform : Platform := {|
  fetchUrl := fun _ => {| ba_d := 7%N; ba_bytes := [Byte.x89; Byte.x50] |};
  loadFromData := fun _ => Some {| img_isNull := false; img_width := 8192;
                                   img_height := 4096 |};
  urlIsValid := fun _ => true;
  newMapData := 9%N;
  glMaxTextureSize := 16384
|}.

(** A resampling that keeps the aspect ratio by integer division. *)
Definition exampleResample (image : QImage) (w : Z) : QImage :=
  {| img_isNull := false; img_width := w;
     img_height := img_height image * w / img_width image |}.

(** ** What is drawn *)

(** What [Cube3D::drawFace] draws: [Cube3D::init] points the attributes of
    the vertex array object of face [i] at entry [4 * i] of the two
    buffers, and [glDrawArrays(GL_TRIANGLE_FAN, 0, 4)] reads four entries
    from there.  [m_vao] has six entries; for [InvalidFace] the list is
    empty. *)
Definition drawFace (c : Cube3D.t) (face : CubeFace)
    : list (QVector3D * QVector2D) :=
  let faceId := Z.to_nat (CubeFace_to_int face) in
  zip (take 4 (drop (4 * faceId) (Cube3D.m_vertices c)))
      (take 4 (drop (4 * faceId) (Cube3D.m_texCoords c))).

(** The side of the cube of half-width [scale] that a face names. *)
Definition onSide (scale : float) (face : CubeFace) (v : QVector3D) : Prop :=
  match face with
  | PX => v3_x v = (1 * scale)%float
  | PY => v3_y v = (1 * scale)%float
  | PZ => v3_z v = (1 * scale)%float
  | MX => v3_x v = (-1 * scale)%float
  | MY => v3_y v = (-1 * scale)%float
  | MZ => v3_z v = (-1 * scale)%float
  | InvalidFace => False
  end.

(** A texture coordinate inside the texture. *)
Definition inUnitSquare (uv : QVector2D) : bool :=
  ((0 <=? v2_x uv) && (v2_x uv <=? 1) && (0 <=? v2_y uv) && (v2_y uv <=? 1))%float.

(** * Properties *)

(** ** The libm model on familiar inputs *)

Example fmod_370 : fmod 370 360 = 10%float.
Proof. reflexivity. Qed.

Example fmod_minus_10 : fmod (-10) 360 = (-10)%float.
Proof. reflexivity. Qed.

Example fmod_minus_720 : fmod (-720) 360 = (-0)%float.
Proof. reflexivity. Qed.

Example fmod_inf : fmod 5.5 infinity = 5.5%float.
Proof. reflexivity. Qed.

(** ** Running member functions *)

Ltac run :=
  unfold exec, call, setAzimuth, setElevation, setFieldOfView, setSource,
    setMaximumTextureSize, loadFromUrl, loadFromCubeMap, updateSphere,
    signalUpdatedMaxSize, synchronize, updateState, invokeMethod_queued,
    emit, update, polish, assign, this, bind, ret in *;
  simpl in *.

Lemma exec_calls_cons c cs w :
  exec (calls (c :: cs)) w = exec (calls cs) (exec (call c) w).
Proof.
  unfold exec. simpl. unfold bind. destruct (call c w). reflexivity.
Qed.

(** ** Comparison of variants and of variant maps *)

Lemma QVariant_cmp_refl v : QVariant_cmp v v = true.
Proof. destruct v; simpl; try reflexivity; apply bool_decide_eq_true_2; reflexivity. Qed.

Lemma QVariantMap_eq_refl m : QVariantMap_eq m m = true.
Proof.
  unfold QVariantMap_eq. rewrite Nat.eqb_refl. cbn [andb].
  apply bool_decide_eq_true_2. intros k v Hk. rewrite Hk.
  apply QVariant_cmp_refl.
Qed.

Lemma QVariant_cmp_canConvert v v' :
  QVariant_cmp v v' = true -> canConvert_QString v = canConvert_QString v'.
Proof. destruct v, v'; simpl; congruence. Qed.

Lemma QVariantMap_eq_size a b :
  QVariantMap_eq a b = true -> size a = size b.
Proof.
  unfold QVariantMap_eq. intros H. apply andb_true_iff in H as [H _].
  apply Nat.eqb_eq in H. exact H.
Qed.

(** Key by key. *)
Lemma QVariantMap_eq_lookup a b k :
  QVariantMap_eq a b = true ->
  match a !! k, b !! k with
  | Some v, Some v' => QVariant_cmp v v' = true
  | None, None => True
  | _, _ => False
  end.
Proof.
  unfold QVariantMap_eq. intros H. apply andb_true_iff in H as [Hs Hall].
  apply Nat.eqb_eq in Hs. apply bool_decide_eq_true in Hall.
  assert (dom a ⊆ dom b) as Hsub.
  { intros x Hx. apply elem_of_dom in Hx as [v Hv].
    specialize (Hall x v Hv). simpl in Hall.
    apply elem_of_dom. destruct (b !! x); [eauto|discriminate]. }
  assert (dom a = dom b) as Hdom.
  { apply set_subseteq_size_eq; [exact Hsub|]. rewrite !size_dom. lia. }
  destruct (a !! k) as [v|] eqn:Ea.
  - specialize (Hall k v Ea). simpl in Hall.
    destruct (b !! k); [exact Hall|discriminate].
  - destruct (b !! k) as [v'|] eqn:Eb; [|exact I].
    apply not_elem_of_dom in Ea. apply Ea. rewrite Hdom.
    apply elem_of_dom. eauto.
Qed.

Lemma QVariantMap_eq_empty_l b :
  b <> ∅ -> QVariantMap_eq ∅ b = false.
Proof.
  intros Hb. unfold QVariantMap_eq. rewrite map_size_empty.
  destruct (size b) eqn:E; [|reflexivity].
  apply map_size_empty_iff in E. contradiction.
Qed.

Example QVariant_cmp_bool_string :
  QVariant_cmp (VBool true) (VString "Yes") = true
  /\ QVariant_cmp (VString "Yes") (VBool true) = false
  /\ QVariant_cmp (VBool false) (VString "FALSE") = true
  /\ QVariant_cmp (VString "true") (VBool true) = true.
Proof. vm_compute. repeat split. Qed.

Example QVariantMap_eq_converts :
  QVariantMap_eq (<["a" := VBool true]> (<["b" := VString "x"]> ∅))
                 (<["a" := VString "yes"]> (<["b" := VString "x"]> ∅)) = true.
Proof. vm_compute. reflexivity. Qed.

(** ** The two loaders and [setSource] *)

(** [loadFromUrl] as a cascade of tests on one world. *)
Lemma loadFromUrl_unfold p url w :
  loadFromUrl p url w
  = if bool_decide (url = EmptyString) then (false, w)
    else if bool_decide (url = m_imageUrl (item w)) then (true, w)
    else if negb (urlIsValid p url) then (false, w)
    else match loadFromData p (fetchUrl p url) with
         | None => (false, w)
         | Some image =>
             if emptyImage image then (false, w) else
             let i := set_m_nodeDirty true
                        (set_m_image (fetchUrl p url)
                           (set_m_imageUrl url (item w))) in
             (true,
              {| item := i;
                 itemWidth := itemWidth w; itemHeight := itemHeight w;
                 polishCalls := S (polishCalls w);
                 updateCalls := S (updateCalls w);
                 emitted := emitted w ++ [{| em_signal := sourceChanged;
                                             em_item := i |}];
                 queuedSlots := queuedSlots w |})
         end.
Proof.
  unfold loadFromUrl, bind, this, ret.
  destruct (bool_decide (url = EmptyString)); [reflexivity|].
  cbn beta iota.
  destruct (bool_decide (url = m_imageUrl (item w))); [reflexivity|].
  destruct (negb (urlIsValid p url)); [reflexivity|].
  destruct (loadFromData p (fetchUrl p url)) as [image|]; [|reflexivity].
  destruct (emptyImage image); reflexivity.
Qed.

(** [loadFromCubeMap] as a cascade of tests on one world. *)
Lemma loadFromCubeMap_unfold p cubeMap w :
  loadFromCubeMap p cubeMap w
  = if (size cubeMap =? 0)%nat then (false, w)
    else if QVariantMap_eq (m_cubeMapUrls (item w)) cubeMap then (true, w)
    else if negb (checkRequiredKeys cubeMap requiredKeys) then (false, w)
    else if negb (checkUrls p cubeMap requiredKeys) then (false, w)
    else match fetchFaces p cubeMap requiredKeys QMapFaces_empty with
         | None => (false, w)
         | Some cubeMapImages =>
             let i := set_m_nodeDirty true
                        (set_m_cubeMapUrls cubeMap
                           (set_m_cubeMap cubeMapImages (item w))) in
             (true,
              {| item := i;
                 itemWidth := itemWidth w; itemHeight := itemHeight w;
                 polishCalls := S (polishCalls w);
                 updateCalls := S (updateCalls w);
                 emitted := emitted w ++ [{| em_signal := sourceChanged;
                                             em_item := i |}];
                 queuedSlots := queuedSlots w |})
         end.
Proof.
  unfold loadFromCubeMap, bind, this, ret.
  destruct (size cubeMap =? 0)%nat; [reflexivity|].
  cbn beta iota.
  destruct (QVariantMap_eq (m_cubeMapUrls (item w)) cubeMap); [reflexivity|].
  destruct (negb (checkRequiredKeys cubeMap requiredKeys)); [reflexivity|].
  destruct (negb (checkUrls p cubeMap requiredKeys)); [reflexivity|].
  destruct (fetchFaces p cubeMap requiredKeys QMapFaces_empty); reflexivity.
Qed.

(** A failed single-image load changes nothing. *)
Lemma loadFromUrl_false p url w :
  fst (loadFromUrl p url w) = false -> snd (loadFromUrl p url w) = w.
Proof.
  rewrite loadFromUrl_unfold.
  repeat case_match; cbn [fst snd]; congruence.
Qed.

(** A successful one leaves [url] as the stored locator, is not for the
    empty string, and touches neither the cube-map members nor the cached
    device limit. *)
Lemma loadFromUrl_true p url w :
  fst (loadFromUrl p url w) = true ->
  let w' := snd (loadFromUrl p url w) in
  url <> EmptyString
  /\ m_imageUrl (item w') = url
  /\ m_cubeMap (item w') = m_cubeMap (item w)
  /\ m_cubeMapUrls (item w') = m_cubeMapUrls (item w)
  /\ m_glMaxTexSize (item w') = m_glMaxTexSize (item w).
Proof.
  rewrite loadFromUrl_unfold.
  repeat case_bool_decide; repeat case_match; cbn [fst snd item];
    try discriminate; intros _; repeat split; solve [congruence | reflexivity].
Qed.

(** A failed cube-map load changes nothing. *)
Lemma loadFromCubeMap_false p cubeMap w :
  fst (loadFromCubeMap p cubeMap w) = false ->
  snd (loadFromCubeMap p cubeMap w) = w.
Proof.
  rewrite loadFromCubeMap_unfold.
  repeat case_match; cbn [fst snd]; congruence.
Qed.

(** A successful one, for a [cubeMap] that is not empty, has either found
    the stored locator map equal to [cubeMap] and changed nothing, or stored
    [cubeMap], whose required keys it has checked; it touches neither the
    single-image members nor the cached device limit. *)
Lemma loadFromCubeMap_true p cubeMap w :
  fst (loadFromCubeMap p cubeMap w) = true ->
  let w' := snd (loadFromCubeMap p cubeMap w) in
  cubeMap <> ∅
  /\ QVariantMap_eq (m_cubeMapUrls (item w')) cubeMap = true
  /\ m_image (item w') = m_image (item w)
  /\ m_imageUrl (item w') = m_imageUrl (item w)
  /\ m_glMaxTexSize (item w') = m_glMaxTexSize (item w)
  /\ ((QVariantMap_eq (m_cubeMapUrls (item w)) cubeMap = true /\ w' = w)
      \/ (QVariantMap_eq (m_cubeMapUrls (item w)) cubeMap = false
          /\ m_cubeMapUrls (item w') = cubeMap
          /\ checkRequiredKeys cubeMap requiredKeys = true)).
Proof.
  rewrite loadFromCubeMap_unfold.
  destruct (size cubeMap =? 0)%nat eqn:Es; [discriminate|].
  assert (cubeMap <> ∅) as Hne.
  { intros ->. rewrite map_size_empty in Es. discriminate. }
  destruct (QVariantMap_eq (m_cubeMapUrls (item w)) cubeMap) eqn:Heq;
    [intros _; cbn [fst snd]; auto 10|].
  destruct (checkRequiredKeys cubeMap requiredKeys); [|discriminate].
  repeat case_match; cbn [fst snd item]; try discriminate.
  intros _. split; [exact Hne|]. split; [apply QVariantMap_eq_refl|].
  repeat split; auto.
Qed.

(** The stored locator map is not empty after a successful load. *)
Lemma loadFromCubeMap_true_stored p cubeMap w :
  fst (loadFromCubeMap p cubeMap w) = true ->
  m_cubeMapUrls (item (snd (loadFromCubeMap p cubeMap w))) <> ∅.
Proof.
  intros Hok. destruct (loadFromCubeMap_true p cubeMap w Hok) as (Hne & Heq & _).
  intros He. rewrite He, QVariantMap_eq_empty_l in Heq by exact Hne.
  discriminate.
Qed.

(** [setSource] with a plain variant: a single-image switch after a
    successful load, nothing otherwise. *)
Lemma setSource_value p v w :
  exec (setSource p (SrcValue v)) w
  = if canConvert_QString v && fst (loadFromUrl p (toString v) w)
    then exec (assign switchToSphere) (snd (loadFromUrl p (toString v) w))
    else w.
Proof.
  unfold setSource. destruct (canConvert_QString v); [|reflexivity].
  pose proof (loadFromUrl_false p (toString v) w) as Hf.
  unfold exec, bind in *. destruct (loadFromUrl p (toString v) w) as [[] w1];
    simpl in *; [|auto].
  unfold switchToSphere, this, assign, ret. simpl.
  destruct (bool_decide (m_rendererType (item w1) <> SphereRenderer)); reflexivity.
Qed.

(** [setSource] with a variant map: a cube-map switch after a successful
    load, nothing otherwise. *)
Lemma setSource_map p cubeMap w :
  exec (setSource p (SrcMap cubeMap)) w
  = if fst (loadFromCubeMap p cubeMap w)
    then exec (assign switchToCube) (snd (loadFromCubeMap p cubeMap w))
    else w.
Proof.
  unfold setSource.
  pose proof (loadFromCubeMap_false p cubeMap w) as Hf.
  unfold exec, bind in *. destruct (loadFromCubeMap p cubeMap w) as [[] w1];
    simpl in *; [|auto].
  unfold switchToCube, this, assign, ret. simpl.
  destruct (bool_decide (m_rendererType (item w1) <> CubeRenderer)); reflexivity.
Qed.

Lemma variantsExclusive_cube_cleared i :
  m_cubeMap i = QMapFaces_empty -> m_cubeMapUrls i = ∅ ->
  variantsExclusive i = true.
Proof.
  intros H1 H2. unfold variantsExclusive, cubePopulated, map_isEmpty.
  rewrite H1, H2. simpl. rewrite !bool_decide_eq_true_2 by reflexivity.
  simpl. rewrite andb_false_r. reflexivity.
Qed.

Lemma variantsExclusive_image_cleared i :
  m_image i = QByteArray_null -> m_imageUrl i = EmptyString ->
  variantsExclusive i = true.
Proof.
  intros H1 H2. unfold variantsExclusive, singlePopulated.
  rewrite H1, H2. reflexivity.
Qed.

Lemma switchToSphere_fields i :
  m_cubeMap (switchToSphere i) = QMapFaces_empty
  /\ m_cubeMapUrls (switchToSphere i) = ∅
  /\ m_imageUrl (switchToSphere i) = m_imageUrl i
  /\ m_image (switchToSphere i) = m_image i.
Proof. unfold switchToSphere. case_bool_decide; repeat split. Qed.

Lemma switchToCube_fields i :
  m_image (switchToCube i) = QByteArray_null
  /\ m_imageUrl (switchToCube i) = EmptyString
  /\ m_cubeMap (switchToCube i) = m_cubeMap i
  /\ m_cubeMapUrls (switchToCube i) = m_cubeMapUrls i.
Proof. unfold switchToCube. case_bool_decide; repeat split. Qed.

Lemma switchToSphere_m_glMaxTexSize i :
  m_glMaxTexSize (switchToSphere i) = m_glMaxTexSize i.
Proof. unfold switchToSphere. case_bool_decide; reflexivity. Qed.

Lemma switchToCube_m_glMaxTexSize i :
  m_glMaxTexSize (switchToCube i) = m_glMaxTexSize i.
Proof. unfold switchToCube. case_bool_decide; reflexivity. Qed.

(** No property write touches the cached device limit. *)
Lemma call_m_glMaxTexSize c w :
  m_glMaxTexSize (item (exec (call c) w)) = m_glMaxTexSize (item w).
Proof.
  destruct c as [a|e|f|p [v|cubeMap]|v].
  1-3, 6: run; repeat case_match; simplify_eq/=; reflexivity.
  - unfold call. rewrite setSource_value.
    destruct (canConvert_QString v); [|reflexivity]. cbn [andb].
    destruct (fst (loadFromUrl p (toString v) w)) eqn:Hok; [|reflexivity].
    unfold exec, assign. cbn [snd item].
    rewrite switchToSphere_m_glMaxTexSize.
    apply (loadFromUrl_true p (toString v) w Hok).
  - unfold call. rewrite setSource_map.
    destruct (fst (loadFromCubeMap p cubeMap w)) eqn:Hok; [|reflexivity].
    unfold exec, assign. cbn [snd item].
    rewrite switchToCube_m_glMaxTexSize.
    apply (loadFromCubeMap_true p cubeMap w Hok).
Qed.

(** The four members that hold the source. *)
Lemma invariant_ext i j :
  m_image j = m_image i -> m_imageUrl j = m_imageUrl i ->
  m_cubeMap j = m_cubeMap i -> m_cubeMapUrls j = m_cubeMapUrls i ->
  variantsExclusive i = true /\ storedComplete i ->
  variantsExclusive j = true /\ storedComplete j.
Proof.
  unfold variantsExclusive, singlePopulated, cubePopulated, storedComplete.
  intros -> -> -> ->. tauto.
Qed.

(** The writes of the numeric properties leave them alone. *)
Lemma numeric_call_source_members c w :
  (forall p s, c <> SetSource p s) ->
  m_image (item (exec (call c) w)) = m_image (item w)
  /\ m_imageUrl (item (exec (call c) w)) = m_imageUrl (item w)
  /\ m_cubeMap (item (exec (call c) w)) = m_cubeMap (item w)
  /\ m_cubeMapUrls (item (exec (call c) w)) = m_cubeMapUrls (item w).
Proof.
  intros Hc. destruct c as [a|e|f|p s|v]; [| | |destruct (Hc p s eq_refl)|];
    unfold exec, call, setAzimuth, setElevation, setFieldOfView,
      setMaximumTextureSize, updateSphere, emit, update, polish, assign,
      this, bind, ret;
    repeat case_match; simplify_eq/=; repeat split.
Qed.

(** Every property write keeps the two variants exclusive and the stored
    locator map complete. *)
Lemma call_invariant c w :
  variantsExclusive (item w) = true /\ storedComplete (item w) ->
  variantsExclusive (item (exec (call c) w)) = true
  /\ storedComplete (item (exec (call c) w)).
Proof.
  intros [Hx Hc]. destruct c as [a|e|f|p [v|cubeMap]|v].
  1-3, 6: match goal with |- context [call ?c] =>
            destruct (numeric_call_source_members c w) as (?&?&?&?);
              [discriminate|]
          end;
          eapply invariant_ext; eauto.
  - unfold call. rewrite setSource_value.
    destruct (canConvert_QString v && fst (loadFromUrl p (toString v) w));
      [|split; assumption].
    unfold exec, assign. simpl.
    destruct (switchToSphere_fields (item (snd (loadFromUrl p (toString v) w))))
      as (H1 & H2 & _).
    split; [apply variantsExclusive_cube_cleared; assumption|].
    left; assumption.
  - unfold call. rewrite setSource_map.
    destruct (fst (loadFromCubeMap p cubeMap w)) eqn:Hok; [|split; assumption].
    unfold exec, assign. simpl.
    destruct (switchToCube_fields (item (snd (loadFromCubeMap p cubeMap w))))
      as (H1 & H2 & _ & H4).
    split; [apply variantsExclusive_image_cleared; assumption|].
    unfold storedComplete. rewrite H4.
    destruct (loadFromCubeMap_true p cubeMap w Hok)
      as (_ & _ & _ & _ & _ & [[_ ->]|(_ & -> & Hk)]).
    + exact Hc.
    + right; exact Hk.
Qed.

Lemma calls_invariant cs : forall w,
  variantsExclusive (item w) = true /\ storedComplete (item w) ->
  variantsExclusive (item (exec (calls cs) w)) = true
  /\ storedComplete (item (exec (calls cs) w)).
Proof.
  induction cs as [|c cs IH]; intros w H; [exact H|].
  rewrite exec_calls_cons. apply IH, call_invariant, H.
Qed.

Lemma World_new_invariant :
  variantsExclusive (item World_new) = true /\ storedComplete (item World_new).
Proof. split; [reflexivity | left; reflexivity]. Qed.

(** ** C1: [setFieldOfView] *)

(** The three rejections the guard does make leave the world as it is. *)
Lemma setFieldOfView_rejected fov w :
  (fov =? m_fieldOfView (item w))%float = true
  \/ (fov <? 3)%float = true \/ (150 <? fov)%float = true ->
  setFieldOfView fov w = (tt, w).
Proof.
  intros H. run.
  destruct (fov =? _)%float, (fov <? 3)%float, (150 <? fov)%float;
    try reflexivity.
  destruct H as [H|[H|H]]; discriminate.
Qed.

(** Both infinities fall under the range test. *)
Lemma setFieldOfView_infinite w :
  setFieldOfView infinity w = (tt, w)
  /\ setFieldOfView neg_infinity w = (tt, w).
Proof.
  split; apply setFieldOfView_rejected; right; [right|left]; reflexivity.
Qed.

(** Any other value is stored, with one repaint request and one signal. *)
Lemma setFieldOfView_accepted fov w :
  (fov =? m_fieldOfView (item w))%float = false ->
  (fov <? 3)%float = false -> (150 <? fov)%float = false ->
  let w' := exec (setFieldOfView fov) w in
  item w' = set_m_fieldOfView fov (set_m_nodeDirty true (item w))
  /\ updateCalls w' = S (updateCalls w)
  /\ emitted w' = emitted w ++ [{| em_signal := fieldOfViewChanged fov;
                                   em_item := item w' |}].
Proof.
  intros H1 H2 H3. run. rewrite H1, H2, H3. simpl. repeat split.
Qed.

(** C1. [setFieldOfView(NaN)] on a freshly constructed item is not a no-op:
    every comparison in the guard is false on NaN, so NaN is stored as the
    field of view, a repaint is requested and [fieldOfViewChanged(NaN)] is
    emitted; the stored field of view is no longer finite. *)
Theorem setFieldOfView_nan_is_stored :
  let w := exec (setFieldOfView nan) World_new in
  m_fieldOfView (item w) = nan
  /\ qIsFinite (m_fieldOfView (item w)) = false
  /\ signals w = [fieldOfViewChanged nan]
  /\ updateCalls w = 1%nat.
Proof. vm_compute. repeat split. Qed.

(** ** C2: [setElevation] *)

(** A non-finite elevation, or one equal to the stored one, changes nothing. *)
Lemma setElevation_rejected elevation w :
  qIsFinite elevation = false
  \/ (elevation =? m_elevation (item w))%float = true ->
  setElevation elevation w = (tt, w).
Proof.
  intros H. run.
  destruct (elevation =? _)%float; [reflexivity|].
  destruct H as [->|H]; [reflexivity | discriminate].
Qed.

(** Any other elevation is clamped and stored, with one repaint request and
    one signal, whether or not the clamped value differs from the stored one. *)
Lemma setElevation_accepted elevation w :
  qIsFinite elevation = true ->
  (elevation =? m_elevation (item w))%float = false ->
  let w' := exec (setElevation elevation) w in
  m_elevation (item w') = qBound_double (-90) elevation 90
  /\ updateCalls w' = S (updateCalls w)
  /\ emitted w' = emitted w
       ++ [{| em_signal := elevationChanged (qBound_double (-90) elevation 90);
              em_item := item w' |}].
Proof.
  intros H1 H2. run. rewrite H1, H2. simpl. repeat split.
Qed.

(** C2. With 90 stored as the elevation, [setElevation(100)] is not a no-op
    although 100 clamps to the stored 90: the comparison with the stored
    value comes before the clamping, so the call requests a repaint and emits
    [elevationChanged(90)] a second time. *)
Theorem setElevation_notifies_unchanged_value :
  let w0 := exec (setElevation 90) World_new in
  let w := exec (setElevation 100) w0 in
  m_elevation (item w0) = 90%float
  /\ qBound_double (-90) 100 90 = 90%float
  /\ m_elevation (item w) = 90%float
  /\ signals w0 = [elevationChanged 90]
  /\ signals w = [elevationChanged 90; elevationChanged 90]
  /\ updateCalls w = S (updateCalls w0).
Proof. vm_compute. repeat split. Qed.

(** ** C3: [setAzimuth] *)

(** A non-finite azimuth, or one whose normal form equals the stored
    azimuth, changes nothing. *)
Lemma setAzimuth_rejected azimuth w :
  qIsFinite azimuth = false
  \/ (normalizedAzimuth azimuth =? m_azimuth (item w))%float = true ->
  setAzimuth azimuth w = (tt, w).
Proof.
  intros H. unfold normalizedAzimuth in H. run.
  destruct (qIsFinite azimuth); simpl; [|reflexivity].
  destruct H as [H|H]; [discriminate|]. rewrite H. reflexivity.
Qed.

(** Otherwise the normal form is stored, with one repaint request and one
    signal. *)
Lemma setAzimuth_accepted azimuth w :
  qIsFinite azimuth = true ->
  (normalizedAzimuth azimuth =? m_azimuth (item w))%float = false ->
  let w' := exec (setAzimuth azimuth) w in
  m_azimuth (item w') = normalizedAzimuth azimuth
  /\ updateCalls w' = S (updateCalls w)
  /\ emitted w' = emitted w
       ++ [{| em_signal := azimuthChanged (normalizedAzimuth azimuth);
              em_item := item w' |}].
Proof.
  intros H1 H2. unfold normalizedAzimuth in *. run. rewrite H1. simpl.
  rewrite H2. simpl. repeat split.
Qed.

(** On familiar inputs the normal form is the wrapped angle. *)
Example normalizedAzimuth_samples :
  normalizedAzimuth 370 = 10%float
  /\ normalizedAzimuth (-10) = 350%float
  /\ normalizedAzimuth 360 = 0%float
  /\ normalizedAzimuth 725.5 = 5.5%float.
Proof. vm_compute. repeat split. Qed.

(** C3. [setAzimuth(-2^-70)] on a freshly constructed item stores 360, which
    is outside [0,360): [fmod] returns the tiny negative input unchanged and
    adding 360.0 to it rounds to 360.0. The double computation
    [fmod(fmod(a,360)+360,360)] gives 0 on the same input. *)
Theorem setAzimuth_tiny_negative_stores_360 :
  let a := (-0x1p-70)%float in
  let w := exec (setAzimuth a) World_new in
  qIsFinite a = true
  /\ fmod a 360 = a
  /\ m_azimuth (item w) = 360%float
  /\ (m_azimuth (item w) <? 360)%float = false
  /\ fmod (fmod a 360 + 360) 360 = 0%float
  /\ signals w = [azimuthChanged 360].
Proof. vm_compute. repeat split. Qed.

(** ** C4: [loadFromCubeMap] is all-or-nothing *)

Lemma checkRequiredKeys_fails cubeMap k : forall ks,
  k ∈ ks ->
  cubeMap !! k = None \/ canConvert_QString (variant_value cubeMap k) = false ->
  checkRequiredKeys cubeMap ks = false.
Proof.
  induction ks as [|k' ks IH]; intros Hin Hk; [by apply elem_of_nil in Hin|].
  simpl. apply elem_of_cons in Hin as [<-|Hin].
  - destruct Hk as [Hk|Hk]; rewrite Hk.
    + rewrite bool_decide_eq_false_2; [reflexivity|].
      intros [? ?]; discriminate.
    + simpl. destruct (negb (bool_decide _)); reflexivity.
  - rewrite IH by assumption. repeat case_match; reflexivity.
Qed.

Lemma checkRequiredKeys_passes cubeMap k : forall ks,
  checkRequiredKeys cubeMap ks = true -> k ∈ ks ->
  is_Some (cubeMap !! k) /\ canConvert_QString (variant_value cubeMap k) = true.
Proof.
  induction ks as [|k' ks IH]; intros Hc Hin; [by apply elem_of_nil in Hin|].
  simpl in Hc. case_bool_decide; simpl in Hc; [|discriminate].
  destruct (canConvert_QString (variant_value cubeMap k')) eqn:E;
    simpl in Hc; [|discriminate].
  apply elem_of_cons in Hin as [->|Hin]; [split; assumption | auto].
Qed.

Lemma checkUrls_fails p cubeMap k : forall ks,
  k ∈ ks -> urlIsValid p (toString (variant_value cubeMap k)) = false ->
  checkUrls p cubeMap ks = false.
Proof.
  induction ks as [|k' ks IH]; intros Hin Hk; [by apply elem_of_nil in Hin|].
  simpl. apply elem_of_cons in Hin as [<-|Hin].
  - rewrite Hk. reflexivity.
  - rewrite IH by assumption. destruct (negb _); reflexivity.
Qed.

Lemma checkUrls_passes p cubeMap k : forall ks,
  checkUrls p cubeMap ks = true -> k ∈ ks ->
  urlIsValid p (toString (variant_value cubeMap k)) = true.
Proof.
  induction ks as [|k' ks IH]; intros Hc Hin; [by apply elem_of_nil in Hin|].
  simpl in Hc.
  destruct (urlIsValid p (toString (variant_value cubeMap k'))) eqn:E;
    simpl in Hc; [|discriminate].
  apply elem_of_cons in Hin as [->|Hin]; auto.
Qed.

Lemma fetchFaces_fails p cubeMap k : forall ks m,
  k ∈ ks -> faceLoads p cubeMap k = false ->
  fetchFaces p cubeMap ks m = None.
Proof.
  induction ks as [|k' ks IH]; intros m Hin Hk; [by apply elem_of_nil in Hin|].
  simpl. apply elem_of_cons in Hin as [<-|Hin].
  - unfold faceLoads in Hk.
    destruct (loadFromData p _); [|reflexivity].
    apply negb_false_iff in Hk. rewrite Hk. reflexivity.
  - repeat case_match; auto.
Qed.

(** The faces the third loop has stored when it completes. *)
Lemma fetchFaces_passes p cubeMap : forall ks m0 m,
  fetchFaces p cubeMap ks m0 = Some m ->
  (forall k, k ∈ ks -> faceLoads p cubeMap k = true)
  /\ map_entries m
     = foldl (fun acc k =>
                <[nameToCubeFace_value k
                  := fetchUrl p (toString (variant_value cubeMap k))]> acc)
             (map_entries m0) ks
  /\ map_d m = match ks with
               | [] => map_d m0
               | _ => if (map_d m0 =? 0)%N then newMapData p else map_d m0
               end.
Proof.
  induction ks as [|k ks IH]; intros m0 m H; simpl in H.
  - simplify_eq. split; [intros k Hk; by apply elem_of_nil in Hk|].
    split; reflexivity.
  - destruct (loadFromData p _) as [image|] eqn:El; [|discriminate].
    destruct (emptyImage image) eqn:Ee; [discriminate|].
    apply IH in H as (Hall & Hentries & Hd). split; [|split].
    + intros k' Hk'. apply elem_of_cons in Hk' as [->|Hk']; [|auto].
      unfold faceLoads. rewrite El, Ee. reflexivity.
    + exact Hentries.
    + rewrite Hd. simpl. destruct ks; [reflexivity|].
      destruct (map_d m0 =? 0)%N eqn:E0; [|rewrite E0; reflexivity].
      destruct (newMapData p =? 0)%N; reflexivity.
Qed.

Lemma nameToCubeFace_values :
  nameToCubeFace_value "PositiveX" = PX /\ nameToCubeFace_value "PositiveY" = PY
  /\ nameToCubeFace_value "PositiveZ" = PZ /\ nameToCubeFace_value "NegativeX" = MX
  /\ nameToCubeFace_value "NegativeY" = MY /\ nameToCubeFace_value "NegativeZ" = MZ.
Proof. vm_compute. repeat split. Qed.

(** For the six required keys: six entries, one per face, each holding
    the bytes fetched for its key, in one freshly allocated map. *)
Lemma fetchFaces_required p cubeMap m :
  fetchFaces p cubeMap requiredKeys QMapFaces_empty = Some m ->
  map_d m = newMapData p
  /\ size (map_entries m) = 6%nat
  /\ forall k, k ∈ requiredKeys ->
       faceLoads p cubeMap k = true
       /\ map_entries m !! nameToCubeFace_value k
          = Some (fetchUrl p (toString (variant_value cubeMap k))).
Proof.
  intros H. apply fetchFaces_passes in H as (Hall & Hentries & Hd).
  split; [exact Hd|].
  unfold requiredKeys in *. simpl in Hentries.
  destruct nameToCubeFace_values as (E1 & E2 & E3 & E4 & E5 & E6).
  rewrite E1, E2, E3, E4, E5, E6 in Hentries.
  split.
  - rewrite Hentries. rewrite !map_size_insert_None; [rewrite map_size_empty; reflexivity|..];
      by simplify_map_eq.
  - intros k Hk. split; [auto|].
    repeat (apply elem_of_cons in Hk as [->|Hk]);
      [..|by apply elem_of_nil in Hk];
      rewrite Hentries, ?E1, ?E2, ?E3, ?E4, ?E5, ?E6; by simplify_map_eq.
Qed.

(** The three loops succeed when every key they visit is good. *)
Lemma checkRequiredKeys_all cubeMap : forall ks,
  (forall k, k ∈ ks ->
     is_Some (cubeMap !! k) /\ canConvert_QString (variant_value cubeMap k) = true) ->
  checkRequiredKeys cubeMap ks = true.
Proof.
  induction ks as [|k ks IH]; intros H; [reflexivity|].
  simpl. destruct (H k) as [Hs Hc]; [left|].
  rewrite bool_decide_eq_true_2 by exact Hs. rewrite Hc. cbn [negb].
  apply IH. intros k' Hk'. apply H. right. exact Hk'.
Qed.

Lemma checkUrls_all p cubeMap : forall ks,
  (forall k, k ∈ ks -> urlIsValid p (toString (variant_value cubeMap k)) = true) ->
  checkUrls p cubeMap ks = true.
Proof.
  induction ks as [|k ks IH]; intros H; [reflexivity|].
  simpl. rewrite (H k) by left. cbn [negb].
  apply IH. intros k' Hk'. apply H. right. exact Hk'.
Qed.

Lemma fetchFaces_all p cubeMap : forall ks m0,
  (forall k, k ∈ ks -> faceLoads p cubeMap k = true) ->
  exists m, fetchFaces p cubeMap ks m0 = Some m.
Proof.
  induction ks as [|k ks IH]; intros m0 H; [eexists; reflexivity|].
  simpl. assert (faceLoads p cubeMap k = true) as Hk by (apply H; left).
  unfold faceLoads in Hk.
  destruct (loadFromData p _) as [image|]; [|discriminate].
  apply negb_true_iff in Hk. rewrite Hk.
  apply IH. intros k' Hk'. apply H. right. exact Hk'.
Qed.

(** Maps that compare equal pass or fail the first loop together. *)
Lemma checkRequiredKeys_eq (a b : QVariantMap) : forall ks,
  QVariantMap_eq a b = true ->
  checkRequiredKeys a ks = checkRequiredKeys b ks.
Proof.
  intros ks Heq. induction ks as [|k ks IH]; [reflexivity|].
  simpl. rewrite IH. unfold variant_value.
  pose proof (QVariantMap_eq_lookup a b k Heq) as Hk.
  destruct (a !! k) as [v|], (b !! k) as [v'|]; try contradiction.
  - rewrite !bool_decide_eq_true_2 by eauto. simpl.
    rewrite (QVariant_cmp_canConvert v v' Hk). reflexivity.
  - reflexivity.
Qed.

(** What a load that goes past the comparison with the stored map does
    when all six faces are good. *)
Lemma loadFromCubeMap_replacing p cubeMap w :
  QVariantMap_eq (m_cubeMapUrls (item w)) cubeMap = false ->
  (forall k, k ∈ requiredKeys -> faceAccepted p cubeMap k) ->
  exists m,
    fetchFaces p cubeMap requiredKeys QMapFaces_empty = Some m
    /\ loadFromCubeMap p cubeMap w
       = (true,
          {| item := set_m_nodeDirty true
                       (set_m_cubeMapUrls cubeMap (set_m_cubeMap m (item w)));
             itemWidth := itemWidth w; itemHeight := itemHeight w;
             polishCalls := S (polishCalls w);
             updateCalls := S (updateCalls w);
             emitted := emitted w
                        ++ [{| em_signal := sourceChanged;
                               em_item := set_m_nodeDirty true
                                            (set_m_cubeMapUrls cubeMap
                                               (set_m_cubeMap m (item w))) |}];
             queuedSlots := queuedSlots w |}).
Proof.
  intros Hneq Hgood.
  destruct (fetchFaces_all p cubeMap requiredKeys QMapFaces_empty) as [m Hm].
  { intros k Hk. apply (Hgood k Hk). }
  exists m. split; [exact Hm|].
  rewrite loadFromCubeMap_unfold, Hneq, Hm.
  assert ((size cubeMap =? 0)%nat = false) as ->.
  { apply Nat.eqb_neq. intros Hs. apply map_size_empty_iff in Hs.
    destruct (Hgood "PositiveX") as ([v Hv] & _); [left|].
    rewrite Hs in Hv. discriminate. }
  rewrite checkRequiredKeys_all by (intros k Hk; split; apply (Hgood k Hk)).
  rewrite checkUrls_all by (intros k Hk; apply (Hgood k Hk)).
  reflexivity.
Qed.

(** C4, as the code has it. A failed [loadFromCubeMap] leaves the item, the
    repaint requests and the emitted signals exactly as they were, and an
    empty input fails. A non-empty input that compares equal to the stored
    locator map as a whole ([QMap::operator==]: the same keys, the six
    required ones or not, with values equal under the converting
    [QVariant::operator==]) succeeds at once and changes nothing. Any other
    input succeeds exactly when each of the six required keys is present
    with a value that converts to a string, is a valid URL and fetches and
    decodes to a non-empty image; the call then replaces the byte map, by
    six freshly fetched entries in a new map, and the locator map, by the
    input, changes no other member but the dirty flag, asks for one repaint
    and emits one [sourceChanged], which already carries both new maps.
    Between property writes a missing key or a value that does not convert
    makes the call fail whatever is stored. *)
Theorem loadFromCubeMap_all_or_nothing
    (p : Platform) (cubeMap : QVariantMap) (w : World) :
  let ok := fst (loadFromCubeMap p cubeMap w) in
  let w' := snd (loadFromCubeMap p cubeMap w) in
  (ok = false -> w' = w)
  /\ (cubeMap = ∅ -> ok = false)
  /\ (cubeMap <> ∅ ->
      QVariantMap_eq (m_cubeMapUrls (item w)) cubeMap = true ->
      ok = true /\ w' = w)
  /\ (QVariantMap_eq (m_cubeMapUrls (item w)) cubeMap = false ->
      (ok = true <-> forall k, k ∈ requiredKeys -> faceAccepted p cubeMap k))
  /\ (QVariantMap_eq (m_cubeMapUrls (item w)) cubeMap = false ->
      (forall k, k ∈ requiredKeys -> faceAccepted p cubeMap k) ->
      (forall k, k ∈ requiredKeys ->
         map_entries (m_cubeMap (item w')) !! nameToCubeFace_value k
         = Some (fetchUrl p (toString (variant_value cubeMap k))))
      /\ size (map_entries (m_cubeMap (item w'))) = 6%nat
      /\ map_d (m_cubeMap (item w')) = newMapData p
      /\ m_cubeMapUrls (item w') = cubeMap
      /\ item w' = set_m_nodeDirty true
                     (set_m_cubeMapUrls cubeMap
                        (set_m_cubeMap (m_cubeMap (item w')) (item w)))
      /\ updateCalls w' = S (updateCalls w)
      /\ polishCalls w' = S (polishCalls w)
      /\ emitted w' = emitted w ++ [{| em_signal := sourceChanged;
                                       em_item := item w' |}])
  /\ (forall cs, w = exec (calls cs) World_new ->
      (exists k, k ∈ requiredKeys
         /\ (cubeMap !! k = None
             \/ canConvert_QString (variant_value cubeMap k) = false)) ->
      ok = false).
Proof.
  cbv zeta. split; [apply loadFromCubeMap_false|].
  split; [|split; [|split; [|split]]].
  - intros ->. rewrite loadFromCubeMap_unfold. reflexivity.
  - intros Hne Heq. rewrite loadFromCubeMap_unfold, Heq.
    destruct (size cubeMap =? 0)%nat eqn:Es; [|split; reflexivity].
    apply Nat.eqb_eq, map_size_empty_iff in Es. contradiction.
  - intros Hneq. split.
    + rewrite loadFromCubeMap_unfold, Hneq.
      destruct (size cubeMap =? 0)%nat; [discriminate|].
      destruct (checkRequiredKeys cubeMap requiredKeys) eqn:Ek; [|discriminate].
      destruct (checkUrls p cubeMap requiredKeys) eqn:Eu; [|discriminate].
      destruct (fetchFaces p cubeMap requiredKeys QMapFaces_empty) as [m|] eqn:Ef;
        [|discriminate].
      intros _ k Hk.
      destruct (checkRequiredKeys_passes cubeMap k _ Ek Hk) as [? ?].
      pose proof (checkUrls_passes p cubeMap k _ Eu Hk).
      destruct (fetchFaces_required p cubeMap m Ef) as (_ & _ & Hfaces).
      destruct (Hfaces k Hk) as [? _]. repeat split; assumption.
    + intros Hgood.
      destruct (loadFromCubeMap_replacing p cubeMap w Hneq Hgood) as (m & _ & ->).
      reflexivity.
  - intros Hneq Hgood.
    destruct (loadFromCubeMap_replacing p cubeMap w Hneq Hgood) as (m & Hm & ->).
    cbn [fst snd item updateCalls polishCalls emitted].
    destruct (fetchFaces_required p cubeMap m Hm) as (Hd & Hsz & Hfaces).
    split; [intros k Hk; apply (Hfaces k Hk)|].
    repeat split; assumption.
  - intros cs -> (k & Hk & Hbad).
    assert (checkRequiredKeys cubeMap requiredKeys = false) as Ek
      by (apply (checkRequiredKeys_fails cubeMap k); assumption).
    destruct (calls_invariant cs World_new World_new_invariant) as [_ Hc].
    rewrite loadFromCubeMap_unfold.
    destruct (size cubeMap =? 0)%nat eqn:Es; [reflexivity|].
    destruct (QVariantMap_eq _ cubeMap) eqn:Heq; [|rewrite Ek; reflexivity].
    exfalso. rewrite <- (checkRequiredKeys_eq _ _ _ Heq) in Ek.
    unfold storedComplete in Hc. destruct Hc as [Hc|Hc]; [|congruence].
    rewrite Hc, QVariantMap_eq_empty_l in Heq; [discriminate|].
    intros ->. rewrite map_size_empty in Es. discriminate.
Qed.

(** On the item showing the example cube map: six other faces that all load
    replace both maps, and five of six faces fail and leave everything. *)
Lemma loadFromCubeMap_all_or_nothing_witness :
  (fst (loadFromCubeMap examplePlatform otherCubeMap cubeWorld) = true
   /\ m_cubeMapUrls (item (snd (loadFromCubeMap examplePlatform otherCubeMap
                                  cubeWorld))) = otherCubeMap)
  /\ fst (loadFromCubeMap examplePlatform fiveFaces cubeWorld) = false
  /\ snd (loadFromCubeMap examplePlatform fiveFaces cubeWorld) = cubeWorld.
Proof.
  assert (forall k, k ∈ requiredKeys ->
            faceAccepted examplePlatform otherCubeMap k) as Hgood.
  { intros k Hk. unfold requiredKeys in Hk.
    repeat (apply elem_of_cons in Hk as [->|Hk]);
      [..|by apply elem_of_nil in Hk];
      (split; [vm_compute; eauto|repeat split; vm_compute; reflexivity]). }
  split.
  - destruct (loadFromCubeMap_all_or_nothing examplePlatform otherCubeMap
                cubeWorld) as (_ & _ & _ & Hiff & Hrepl & _).
    split.
    + apply Hiff; [vm_compute; reflexivity|exact Hgood].
    + apply Hrepl; [vm_compute; reflexivity|exact Hgood].
  - destruct (loadFromCubeMap_all_or_nothing examplePlatform fiveFaces
                cubeWorld) as (Hsame & _ & _ & Hiff & _).
    assert (fst (loadFromCubeMap examplePlatform fiveFaces cubeWorld) = false)
      as Hf.
    { apply not_true_is_false. intros E.
      pose proof (proj1 (Hiff ltac:(vm_compute; reflexivity)) E) as Hall.
      destruct (Hall "NegativeZ") as ([v Hv] & _);
        [unfold requiredKeys; repeat constructor|].
      vm_compute in Hv. discriminate. }
    split; [exact Hf | exact (Hsame Hf)].
Defined.

(** C4, on the item showing the example cube map, given the same six
    locators with one more entry. The six input locators equal the stored
    ones, yet the call is no immediate no-op: the maps differ in size, so all
    six faces are fetched again, the locator map is replaced, a repaint is
    requested and a second [sourceChanged] is emitted; and when the faces no
    longer load the call fails. *)
Lemma loadFromCubeMap_same_locators_reloads :
  let cubeMap := <["Comment" := VString "harbour"]> exampleCubeMap in
  let r := loadFromCubeMap examplePlatform cubeMap cubeWorld in
  m_cubeMapUrls (item cubeWorld) = exampleCubeMap
  /\ (forall k, k ∈ requiredKeys ->
        cubeMap !! k = m_cubeMapUrls (item cubeWorld) !! k)
  /\ fst r = true
  /\ snd r <> cubeWorld
  /\ m_cubeMapUrls (item (snd r)) = cubeMap
  /\ updateCalls (snd r) = S (updateCalls cubeWorld)
  /\ signals cubeWorld = [sourceChanged]
  /\ signals (snd r) = [sourceChanged; sourceChanged]
  /\ loadFromCubeMap brokenPlatform cubeMap cubeWorld = (false, cubeWorld).
Proof.
  cbv zeta.
  split; [vm_compute; reflexivity|].
  split.
  { intros k Hk. unfold requiredKeys in Hk.
    repeat (apply elem_of_cons in Hk as [->|Hk]);
      [..|by apply elem_of_nil in Hk]; vm_compute; reflexivity. }
  split; [vm_compute; reflexivity|].
  split.
  { intros H. apply (f_equal updateCalls) in H. vm_compute in H. discriminate. }
  split; [vm_compute; reflexivity|].
  split; [vm_compute; reflexivity|].
  split; [vm_compute; reflexivity|].
  split; [vm_compute; reflexivity|].
  vm_compute. reflexivity.
Qed.

(** The comparison with the stored map converts: with [true] stored under
    one more key, an input that has the string [yes] there compares equal,
    so the call returns at once, whatever the network would answer; the
    other way round the maps differ and the faces are fetched. *)
Example loadFromCubeMap_converting_comparison :
  let stored := <["Flip" := VBool true]> exampleCubeMap in
  let input := <["Flip" := VString "yes"]> exampleCubeMap in
  let w := exec (setSource examplePlatform (SrcMap stored)) World_new in
  let w' := exec (setSource examplePlatform (SrcMap input)) World_new in
  m_cubeMapUrls (item w) = stored
  /\ loadFromCubeMap brokenPlatform input w = (true, w)
  /\ loadFromCubeMap brokenPlatform stored w' = (false, w').
Proof.
  cbv zeta. split; [vm_compute; reflexivity|].
  split; vm_compute; reflexivity.
Qed.

(** Six faces that do not decode: the call fails in the third loop and the
    cube map that is being shown stays as it is. *)
Example loadFromCubeMap_decode_failure :
  loadFromCubeMap brokenPlatform otherCubeMap cubeWorld = (false, cubeWorld).
Proof. vm_compute. reflexivity. Qed.

(** The same six faces on a working platform replace both maps. *)
Example loadFromCubeMap_replaces :
  let w := snd (loadFromCubeMap examplePlatform otherCubeMap cubeWorld) in
  m_cubeMapUrls (item w) = otherCubeMap
  /\ size (map_entries (m_cubeMap (item w))) = 6%nat
  /\ signals w = [sourceChanged; sourceChanged].
Proof. vm_compute. repeat split. Qed.

(** ** C5: the [source] round trip and the exclusive variants *)

Lemma source_of_single i :
  m_cubeMapUrls i = ∅ -> source i = SrcValue (VString (m_imageUrl i)).
Proof.
  intros H. unfold source. rewrite bool_decide_eq_true_2 by exact H. reflexivity.
Qed.

Lemma source_of_cube i :
  m_cubeMapUrls i <> ∅ -> source i = SrcMap (m_cubeMapUrls i).
Proof.
  intros H. unfold source. rewrite bool_decide_eq_false_2 by exact H. reflexivity.
Qed.

(** After a successful single-image [setSource]. *)
Lemma setSource_single_loaded p url w :
  fst (loadFromUrl p url w) = true ->
  let w' := exec (setSource p (SrcValue (VString url))) w in
  source (item w') = SrcValue (VString url)
  /\ m_imageUrl (item w') = url
  /\ m_cubeMap (item w') = QMapFaces_empty
  /\ m_cubeMapUrls (item w') = ∅.
Proof.
  intros Hok. cbv zeta. rewrite setSource_value. simpl toString.
  cbn [canConvert_QString andb]. rewrite Hok.
  destruct (loadFromUrl_true p url w Hok) as (_ & Hurl & _).
  unfold exec, assign. cbn [snd item].
  destruct (switchToSphere_fields (item (snd (loadFromUrl p url w))))
    as (H1 & H2 & H3 & _).
  rewrite source_of_single by exact H2. rewrite H3, Hurl. auto.
Qed.

(** After a successful cube-map [setSource] with a map that does not
    compare equal to the stored one. *)
Lemma setSource_cube_loaded p cubeMap w :
  QVariantMap_eq (m_cubeMapUrls (item w)) cubeMap = false ->
  fst (loadFromCubeMap p cubeMap w) = true ->
  let w' := exec (setSource p (SrcMap cubeMap)) w in
  source (item w') = SrcMap cubeMap
  /\ m_cubeMapUrls (item w') = cubeMap
  /\ m_image (item w') = QByteArray_null
  /\ m_imageUrl (item w') = EmptyString.
Proof.
  intros Hneq Hok. cbv zeta. rewrite setSource_map, Hok.
  destruct (loadFromCubeMap_true p cubeMap w Hok)
    as (Hne & _ & _ & _ & _ & [[Heq _]|(_ & Hurls & _)]); [congruence|].
  unfold exec, assign. cbn [snd item].
  destruct (switchToCube_fields (item (snd (loadFromCubeMap p cubeMap w))))
    as (H1 & H2 & _ & H4).
  rewrite source_of_cube by (rewrite H4, Hurls; exact Hne).
  rewrite H4, Hurls. auto.
Qed.

(** C5. After a successful [setSource] with a single-image locator the
    [source] property reads that locator, and the cube-map byte and locator
    maps are empty; after a successful [setSource] with a cube map it reads
    that map, and the single-image bytes and locator are empty. So a single
    image, then a cube map, then a single image again leaves only the last
    locator readable and the cube-map members empty. After any sequence of
    property writes on a new item at most one of the two variants is
    populated. *)
Theorem source_roundtrip_and_exclusivity :
  (forall p url w,
      fst (loadFromUrl p url w) = true ->
      let w' := exec (setSource p (SrcValue (VString url))) w in
      source (item w') = SrcValue (VString url)
      /\ m_cubeMap (item w') = QMapFaces_empty
      /\ m_cubeMapUrls (item w') = ∅)
  /\ (forall p1 url1 p2 cubeMap p3 url3 w0,
      let w1 := exec (setSource p1 (SrcValue (VString url1))) w0 in
      let w2 := exec (setSource p2 (SrcMap cubeMap)) w1 in
      let w3 := exec (setSource p3 (SrcValue (VString url3))) w2 in
      fst (loadFromUrl p1 url1 w0) = true ->
      fst (loadFromCubeMap p2 cubeMap w1) = true ->
      fst (loadFromUrl p3 url3 w2) = true ->
      source (item w1) = SrcValue (VString url1)
      /\ source (item w2) = SrcMap cubeMap
      /\ m_image (item w2) = QByteArray_null
      /\ m_imageUrl (item w2) = EmptyString
      /\ source (item w3) = SrcValue (VString url3)
      /\ m_cubeMap (item w3) = QMapFaces_empty
      /\ m_cubeMapUrls (item w3) = ∅)
  /\ (forall cs, variantsExclusive (item (exec (calls cs) World_new)) = true).
Proof.
  split; [|split].
  - intros p url w Hok.
    destruct (setSource_single_loaded p url w Hok) as (? & ? & ? & ?). auto.
  - intros p1 url1 p2 cubeMap p3 url3 w0 w1 w2 w3 H1 H2 H3.
    destruct (setSource_single_loaded p1 url1 w0 H1) as (? & _ & _ & Hempty).
    fold w1 in Hempty.
    assert (QVariantMap_eq (m_cubeMapUrls (item w1)) cubeMap = false) as Hneq.
    { rewrite Hempty. apply QVariantMap_eq_empty_l.
      apply (loadFromCubeMap_true p2 cubeMap w1 H2). }
    destruct (setSource_cube_loaded p2 cubeMap w1 Hneq H2) as (? & _ & ? & ?).
    destruct (setSource_single_loaded p3 url3 w2 H3) as (? & _ & ? & ?).
    repeat split; assumption.
  - intros cs. apply (calls_invariant cs World_new World_new_invariant).
Qed.

(** A panorama, then the example cube map, then another panorama. *)
Lemma source_roundtrip_and_exclusivity_witness :
  let w1 := exec (setSource examplePlatform (SrcValue (VString "a.jpg"))) World_new in
  let w2 := exec (setSource examplePlatform (SrcMap exampleCubeMap)) w1 in
  let w3 := exec (setSource examplePlatform (SrcValue (VString "b.jpg"))) w2 in
  source (item w1) = SrcValue (VString "a.jpg")
  /\ source (item w2) = SrcMap exampleCubeMap
  /\ source (item w3) = SrcValue (VString "b.jpg")
  /\ m_cubeMapUrls (item w3) = ∅.
Proof.
  destruct source_roundtrip_and_exclusivity as (_ & Hswitch & _).
  destruct (Hswitch examplePlatform "a.jpg" examplePlatform exampleCubeMap
              examplePlatform "b.jpg" World_new)
    as (H1 & H2 & _ & _ & H3 & _ & H4); try (vm_compute; reflexivity).
  cbv zeta. auto.
Defined.

(** ** C6: snapshot equality *)

(** A snapshot equals itself exactly when none of its angles is NaN. *)
Lemma operator_eq_refl_iff (s : PhotoSphereRenderState.t) :
  PhotoSphereRenderState.operator_eq s s = true
  <-> is_nan (PhotoSphereRenderState.azimuth s) = false
      /\ is_nan (PhotoSphereRenderState.elevation s) = false
      /\ is_nan (PhotoSphereRenderState.fov s) = false.
Proof.
  unfold PhotoSphereRenderState.operator_eq, is_nan,
    ba_isSharedWith, map_isSharedWith.
  rewrite !Z.eqb_refl, !N.eqb_refl, !andb_true_r, !andb_true_iff,
    !negb_false_iff.
  tauto.
Qed.



(** ** C7: the meshes *)

Section SphereLoops.

Variables cos sin : float -> float.

(** The inner loop visits the counters in order. *)
Lemma vertical_counters fuel i : forall j s,
  Sphere3D.vertical cos sin fuel i j s
  = Sphere3D.column cos sin i s <$> Sphere3D.counters fuel j Sphere3D.dj.
Proof.
  induction fuel as [|fuel IH]; intros j s; simpl;
    destruct (j <? 1)%float; try reflexivity.
  rewrite IH. destruct (Sphere3D.counters fuel _ _); reflexivity.
Qed.

(** So does the outer loop, once the inner one has fuel enough. *)
Lemma horizontal_counters fuelj jv :
  Sphere3D.counters fuelj 0 Sphere3D.dj = Some jv ->
  forall fuel i s,
    Sphere3D.horizontal cos sin fuel fuelj i s
    = Sphere3D.columns cos sin jv s <$> Sphere3D.counters fuel i Sphere3D.di.
Proof.
  intros Hjv. induction fuel as [|fuel IH]; intros i s; simpl;
    destruct (i <? 1)%float; try reflexivity.
  rewrite vertical_counters, Hjv. simpl. rewrite IH.
  destruct (Sphere3D.counters fuel _ _); reflexivity.
Qed.

Lemma column_length i jv : forall s,
  length (Sphere3D.m_sphereVertices (Sphere3D.column cos sin i s jv))
  = (length (Sphere3D.m_sphereVertices s) + 6 * length jv)%nat
  /\ length (Sphere3D.m_texCoords (Sphere3D.column cos sin i s jv))
     = (length (Sphere3D.m_texCoords s) + 6 * length jv)%nat.
Proof.
  induction jv as [|j jv IH]; intros s; [simpl; lia|].
  change (Sphere3D.column cos sin i s (j :: jv))
    with (Sphere3D.column cos sin i (Sphere3D.cell cos sin i j s) jv).
  destruct (IH (Sphere3D.cell cos sin i j s)) as [-> ->].
  unfold Sphere3D.cell; simpl. rewrite !length_app; simpl. lia.
Qed.

Lemma columns_length jv iv : forall s,
  length (Sphere3D.m_sphereVertices (Sphere3D.columns cos sin jv s iv))
  = (length (Sphere3D.m_sphereVertices s) + 6 * (length iv * length jv))%nat
  /\ length (Sphere3D.m_texCoords (Sphere3D.columns cos sin jv s iv))
     = (length (Sphere3D.m_texCoords s) + 6 * (length iv * length jv))%nat.
Proof.
  induction iv as [|i iv IH]; intros s; [simpl; lia|].
  change (Sphere3D.columns cos sin jv s (i :: iv))
    with (Sphere3D.columns cos sin jv (Sphere3D.column cos sin i s jv) iv).
  destruct (IH (Sphere3D.column cos sin i s jv)) as [-> ->].
  destruct (column_length i jv s) as [-> ->]. simpl. lia.
Qed.

(** Whatever the bound, a run that completes has gone through the cells
    of [iv] times [jv], six vertices each. *)
Lemma generateSphere_cells fuel iv jv :
  Sphere3D.counters fuel 0 Sphere3D.di = Some iv ->
  Sphere3D.counters fuel 0 Sphere3D.dj = Some jv ->
  exists s,
    Sphere3D.generateSphere cos sin fuel = Some s
    /\ s = Sphere3D.columns cos sin jv
             {| Sphere3D.m_sphereVertices := [];
                Sphere3D.m_texCoords := [] |} iv
    /\ length (Sphere3D.m_sphereVertices s) = (6 * (length iv * length jv))%nat
    /\ length (Sphere3D.m_texCoords s) = (6 * (length iv * length jv))%nat.
Proof.
  intros Hiv Hjv. unfold Sphere3D.generateSphere.
  rewrite (horizontal_counters fuel jv Hjv), Hiv. simpl.
  eexists; split; [reflexivity|]. split; [reflexivity|].
  apply columns_length.
Qed.

End SphereLoops.

(** The outer counter takes the 64 values [k/64], the inner one the 32
    values [k/32]; a larger bound changes nothing. *)
Lemma sphere_counters :
  exists iv jv,
    Sphere3D.counters 64 0 Sphere3D.di = Some iv
    /\ Sphere3D.counters 1000 0 Sphere3D.di = Some iv
    /\ Sphere3D.counters 64 0 Sphere3D.dj = Some jv
    /\ Sphere3D.counters 1000 0 Sphere3D.dj = Some jv
    /\ length iv = 64%nat /\ length jv = 32%nat
    /\ iv !! 1%nat = Some 0x1p-6%float /\ iv !! 63%nat = Some 0x1.f8p-1%float
    /\ jv !! 1%nat = Some 0x1p-5%float /\ jv !! 31%nat = Some 0x1.fp-1%float.
Proof.
  eexists; eexists.
  split; [vm_compute; reflexivity|].
  split; [vm_compute; reflexivity|].
  split; [vm_compute; reflexivity|].
  split; [vm_compute; reflexivity|].
  vm_compute. repeat split.
Qed.

(** C7. For any libm, the sphere generator terminates (a bound of 64 turns
    per loop is enough, and a larger bound gives the same mesh). Its outer
    counter, stepped by 1/64, takes 64 values and its inner counter, stepped
    by 2/64, takes 32; with six vertices per cell the mesh has exactly 12288
    vertex positions and 12288 UV coordinates. For any scale, the cube has
    exactly 24 vertices and 24 UV coordinates, entry [i] being corner
    [m_indices[i]] with the UV [m_texCoordsFace[i % 4]]. *)
Theorem mesh_vertex_counts (cos sin : float -> float) (scale : float) :
  (exists iv jv s,
      Sphere3D.di = 0x1p-6%float /\ Sphere3D.dj = 0x1p-5%float
      /\ Sphere3D.counters 64 0 Sphere3D.di = Some iv /\ length iv = 64%nat
      /\ Sphere3D.counters 64 0 Sphere3D.dj = Some jv /\ length jv = 32%nat
      /\ Sphere3D.generateSphere cos sin 64 = Some s
      /\ Sphere3D.generateSphere cos sin 1000 = Some s
      /\ s = Sphere3D.columns cos sin jv
               {| Sphere3D.m_sphereVertices := [];
                  Sphere3D.m_texCoords := [] |} iv
      /\ length (Sphere3D.m_sphereVertices s) = (6 * (64 * 32))%nat
      /\ length (Sphere3D.m_texCoords s) = (6 * (64 * 32))%nat
      /\ (6 * (64 * 32) = 12288)%nat)
  /\ (let c := Cube3D.Cube3D scale in
      length (Cube3D.m_vertices c) = 24%nat
      /\ length (Cube3D.m_texCoords c) = 24%nat
      /\ (4 * 6 = 24)%nat
      /\ Cube3D.m_vertices c
         = (fun i => Cube3D.at3 (Cube3D.cubeVertices scale)
                       (Cube3D.atIndex Cube3D.indices i)) <$> seq 0 24
      /\ Cube3D.m_texCoords c
         = (fun i => Cube3D.at2 Cube3D.texCoordsFace (i mod 4)) <$> seq 0 24).
Proof.
  split.
  - destruct sphere_counters
      as (iv & jv & Hi & Hi' & Hj & Hj' & Hli & Hlj & _).
    destruct (generateSphere_cells cos sin 64 iv jv Hi Hj)
      as (s & Hs & Heq & Hv & Ht).
    destruct (generateSphere_cells cos sin 1000 iv jv Hi' Hj')
      as (s' & Hs' & Heq' & _).
    exists iv, jv, s. rewrite Hli, Hlj in Hv, Ht.
    split; [reflexivity|]. split; [reflexivity|].
    split; [exact Hi|]. split; [exact Hli|].
    split; [exact Hj|]. split; [exact Hlj|].
    split; [exact Hs|]. split; [congruence|]. split; [exact Heq|].
    split; [exact Hv|]. split; [exact Ht|]. reflexivity.
  - cbv zeta. split; [reflexivity|]. split; [reflexivity|].
    split; [reflexivity|]. split; reflexivity.
Qed.

(** ** C8: [setMaximumTextureSize] *)

(** C8, on a device limited to 4096: raising the user limit from 65536 to
    8192 leaves the effective cap at 4096, yet the item is not left
    unchanged, because the new limit is stored. *)
Lemma setMaximumTextureSize_same_cap_changes_item :
  let w0 := exec (synchronize examplePlatform PhotoSphereRendererBase.new) World_new in
  let w := exec (setMaximumTextureSize 8192) w0 in
  maximumTextureSize (item w0) = 4096
  /\ qMin 8192 (m_glMaxTexSize (item w0)) = maximumTextureSize (item w0)
  /\ m_maximumTextureSize (item w0) = 65536
  /\ m_maximumTextureSize (item w) = 8192
  /\ item w <> item w0.
Proof.
  cbv zeta. repeat split; try reflexivity.
  intros H. apply (f_equal m_maximumTextureSize) in H.
  vm_compute in H. discriminate.
Qed.

(** C8, as the code has it. [setMaximumTextureSize(v)] always leaves [v] as
    the stored limit. If [v] yields the same effective cap as before, that
    is all it does: no repaint is requested, no signal is emitted and the
    value read through [maximumTextureSize] is the same. Otherwise it also
    marks the node dirty, requests a repaint and emits
    [maximumTextureSizeChanged] once. *)
Theorem setMaximumTextureSize_effect (v : Z) (w : World) :
  let w' := exec (setMaximumTextureSize v) w in
  m_maximumTextureSize (item w') = v
  /\ (qMin v (m_glMaxTexSize (item w)) = maximumTextureSize (item w) ->
      w' = exec (assign (set_m_maximumTextureSize v)) w
      /\ maximumTextureSize (item w') = maximumTextureSize (item w)
      /\ emitted w' = emitted w
      /\ updateCalls w' = updateCalls w
      /\ polishCalls w' = polishCalls w)
  /\ (qMin v (m_glMaxTexSize (item w)) <> maximumTextureSize (item w) ->
      w' = exec (assign (set_m_maximumTextureSize v) ;;;
                 updateSphere ;;;
                 emit maximumTextureSizeChanged) w
      /\ m_nodeDirty (item w') = true
      /\ updateCalls w' = S (updateCalls w)
      /\ polishCalls w' = S (polishCalls w)
      /\ emitted w' = emitted w ++ [{| em_signal := maximumTextureSizeChanged;
                                       em_item := item w' |}]).
Proof.
  destruct w as [i iw ih pc uc em qs].
  destruct i as [az el fv rr nd mts gl img iu cm cmu rt].
  run. unfold maximumTextureSize. simpl.
  destruct (v =? mts) eqn:E.
  - apply Z.eqb_eq in E. subst v. simpl.
    split; [reflexivity|]. split.
    + intros _. repeat split.
    + intros H. congruence.
  - simpl. destruct (qMin mts gl =? qMin v gl) eqn:E'; simpl.
    + apply Z.eqb_eq in E'. split; [reflexivity|]. split.
      * intros _. repeat split. congruence.
      * intros H. congruence.
    + apply Z.eqb_neq in E'. split; [reflexivity|]. split.
      * intros H. congruence.
      * intros _. repeat split.
Qed.

(** Both cases on the device limited to 4096. *)
Lemma setMaximumTextureSize_effect_witness :
  let w0 := exec (synchronize examplePlatform PhotoSphereRendererBase.new) World_new in
  (signals (exec (setMaximumTextureSize 8192) w0) = signals w0
   /\ maximumTextureSize (item (exec (setMaximumTextureSize 8192) w0)) = 4096)
  /\ updateCalls (exec (setMaximumTextureSize 1024) w0) = S (updateCalls w0).
Proof.
  cbv zeta.
  set (w0 := exec (synchronize examplePlatform PhotoSphereRendererBase.new) World_new).
  destruct (setMaximumTextureSize_effect 8192 w0) as (_ & Hsame & _).
  destruct (setMaximumTextureSize_effect 1024 w0) as (_ & _ & Hdiff).
  split.
  - destruct Hsame as (_ & Hcap & Hem & _); [reflexivity|].
    unfold signals. rewrite Hem, Hcap. split; reflexivity.
  - destruct Hdiff as (_ & _ & Hup & _); [vm_compute; discriminate|].
    exact Hup.
Defined.

(** ** C9: [maximumTextureSize] before and after the first synchronize *)

Lemma calls_m_glMaxTexSize cs : forall w,
  m_glMaxTexSize (item (exec (calls cs) w)) = m_glMaxTexSize (item w).
Proof.
  induction cs as [|c cs IH]; intros w; [reflexivity|].
  rewrite exec_calls_cons, IH. apply call_m_glMaxTexSize.
Qed.

(** The first synchronize of a renderer copies the device limit into the
    item and leaves the user limit alone. *)
Lemma synchronize_new_renderer p w :
  let w' := exec (synchronize p PhotoSphereRendererBase.new) w in
  m_glMaxTexSize (item w') = glMaxTextureSize p
  /\ m_maximumTextureSize (item w') = m_maximumTextureSize (item w).
Proof.
  run. unfold init, initBase. simpl.
  destruct (m_glMaxTexSize (item w) =? glMaxTextureSize p) eqn:E; simpl.
  - apply Z.eqb_eq in E. split; [exact E | reflexivity].
  - repeat case_match; simplify_eq/=; split; reflexivity.
Qed.

(** C9, with a user limit below the sentinel: before any synchronize,
    after [setMaximumTextureSize(-5)], the property reads -5, not -1. *)
Lemma maximumTextureSize_before_sync_negative_limit :
  let w := exec (calls [SetMaximumTextureSize (-5)]) World_new in
  m_glMaxTexSize (item w) = -1
  /\ m_maximumTextureSize (item w) = -5
  /\ maximumTextureSize (item w) = -5
  /\ maximumTextureSize (item w) <> -1.
Proof. cbv zeta. repeat split; try reflexivity. vm_compute. discriminate. Qed.

(** C9, as the code has it. After any sequence of property writes and no
    synchronize, the cached device limit is still the sentinel -1 and the
    property reads [min(user limit, -1)]: -1 for every user limit of at
    least -1 (the default 65536 among them), the user limit itself below
    that. After the first synchronize of a renderer the cached value is the
    device's and the property reads [min(user limit, device limit)]. *)
Theorem maximumTextureSize_before_and_after_sync (cs : list Call) (p : Platform) :
  let w := exec (calls cs) World_new in
  let w' := exec (synchronize p PhotoSphereRendererBase.new) w in
  m_glMaxTexSize (item w) = -1
  /\ maximumTextureSize (item w) = qMin (m_maximumTextureSize (item w)) (-1)
  /\ (-1 <= m_maximumTextureSize (item w) -> maximumTextureSize (item w) = -1)
  /\ (m_maximumTextureSize (item w) < -1 ->
      maximumTextureSize (item w) = m_maximumTextureSize (item w))
  /\ m_glMaxTexSize (item w') = glMaxTextureSize p
  /\ maximumTextureSize (item w')
     = qMin (m_maximumTextureSize (item w)) (glMaxTextureSize p).
Proof.
  cbv zeta.
  pose proof (calls_m_glMaxTexSize cs World_new) as Hgl. simpl in Hgl.
  destruct (synchronize_new_renderer p (exec (calls cs) World_new)) as [Hs Hu].
  unfold maximumTextureSize. rewrite Hgl, Hs, Hu.
  repeat split; unfold qMin; intros;
    destruct (Z.ltb_spec (m_maximumTextureSize (item (exec (calls cs) World_new))) (-1));
    lia.
Qed.

(** A limit of 2048 set before the first synchronize reads -1 until the
    device, limited to 4096, has been queried, and 2048 afterwards. *)
Lemma maximumTextureSize_before_and_after_sync_witness :
  let w := exec (calls [SetMaximumTextureSize 2048]) World_new in
  let w' := exec (synchronize examplePlatform PhotoSphereRendererBase.new) w in
  maximumTextureSize (item w) = -1
  /\ maximumTextureSize (item w') = 2048.
Proof.
  cbv zeta.
  destruct (maximumTextureSize_before_and_after_sync
              [SetMaximumTextureSize 2048] examplePlatform)
    as (_ & _ & Hge & _ & _ & Hafter).
  split.
  - apply Hge. vm_compute. discriminate.
  - rewrite Hafter. reflexivity.
Defined.

(** ** C10: [sourceChanged] is emitted before the cube map is cleared *)

(** C10. Let the item show a cube map, with at most one variant populated,
    and let [setSource] be called with a non-empty, valid locator whose
    image fetches and decodes. Then exactly one signal is emitted,
    [sourceChanged], and a slot run by that emission finds the new locator
    and bytes already stored while the cube-map locator and byte maps are
    still the old ones: both variants are populated and the [source]
    property still reads the old cube map. When [setSource] returns the
    cube-map members are empty and [source] reads the new locator. *)
Theorem sourceChanged_emitted_before_cube_cleared
    (p : Platform) (url : string) (image : QImage) (w : World) :
  m_cubeMapUrls (item w) <> ∅ ->
  variantsExclusive (item w) = true ->
  url <> EmptyString ->
  urlIsValid p url = true ->
  loadFromData p (fetchUrl p url) = Some image ->
  emptyImage image = false ->
  let w' := exec (setSource p (SrcValue (VString url))) w in
  (exists e,
      emitted w' = emitted w ++ [e]
      /\ em_signal e = sourceChanged
      /\ source (em_item e) = source (item w)
      /\ source (em_item e) = SrcMap (m_cubeMapUrls (item w))
      /\ m_imageUrl (em_item e) = url
      /\ m_image (em_item e) = fetchUrl p url
      /\ m_cubeMapUrls (em_item e) = m_cubeMapUrls (item w)
      /\ m_cubeMap (em_item e) = m_cubeMap (item w)
      /\ singlePopulated (em_item e) = true
      /\ cubePopulated (em_item e) = true
      /\ variantsExclusive (em_item e) = false)
  /\ source (item w') = SrcValue (VString url)
  /\ m_cubeMapUrls (item w') = ∅
  /\ m_cubeMap (item w') = QMapFaces_empty.
Proof.
  intros Hcube Hx Hurl Hvalid Hload Himg.
  assert (m_imageUrl (item w) = EmptyString) as Hnone.
  { unfold variantsExclusive, singlePopulated, cubePopulated in Hx.
    rewrite (bool_decide_eq_false_2 (m_cubeMapUrls (item w) = ∅)) in Hx
      by exact Hcube.
    rewrite orb_true_r, andb_true_r in Hx.
    apply negb_true_iff, orb_false_iff in Hx as [_ Hx].
    apply negb_false_iff, bool_decide_eq_true in Hx. exact Hx. }
  assert (singlePop : forall i, m_imageUrl i = url -> singlePopulated i = true).
  { intros i Hi. unfold singlePopulated. rewrite Hi.
    rewrite (bool_decide_eq_false_2 (url = EmptyString)) by exact Hurl.
    apply orb_true_r. }
  assert (cubePop : forall i, m_cubeMapUrls i = m_cubeMapUrls (item w) ->
                              cubePopulated i = true).
  { intros i Hi. unfold cubePopulated. rewrite Hi.
    rewrite (bool_decide_eq_false_2 (m_cubeMapUrls (item w) = ∅)) by exact Hcube.
    apply orb_true_r. }
  cbv zeta. rewrite setSource_value. cbn [canConvert_QString toString andb].
  rewrite loadFromUrl_unfold.
  rewrite (bool_decide_eq_false_2 (url = EmptyString)) by exact Hurl.
  rewrite (bool_decide_eq_false_2 (url = m_imageUrl (item w)))
    by (rewrite Hnone; exact Hurl).
  rewrite Hvalid, Hload, Himg. cbn [negb fst snd].
  unfold exec, assign. cbn [snd item emitted].
  set (i := set_m_nodeDirty true _).
  destruct (switchToSphere_fields i) as (H1 & H2 & H3 & _).
  split.
  - exists {| em_signal := sourceChanged; em_item := i |}.
    split; [reflexivity|]. cbn [em_signal em_item].
    split; [reflexivity|].
    rewrite !source_of_cube by exact Hcube.
    split; [reflexivity|]. split; [reflexivity|].
    split; [reflexivity|]. split; [reflexivity|].
    split; [reflexivity|]. split; [reflexivity|].
    split; [apply singlePop; reflexivity|].
    split; [apply cubePop; reflexivity|].
    unfold variantsExclusive.
    rewrite singlePop, cubePop by reflexivity. reflexivity.
  - rewrite source_of_single by exact H2. rewrite H3. auto.
Qed.

(** The item showing the example cube map is given a panorama. *)
Lemma sourceChanged_emitted_before_cube_cleared_witness :
  let w' := exec (setSource examplePlatform (SrcValue (VString "pano.jpg"))) cubeWorld in
  (exists e,
      emitted w' = emitted cubeWorld ++ [e]
      /\ source (em_item e) = SrcMap exampleCubeMap
      /\ m_imageUrl (em_item e) = "pano.jpg")
  /\ source (item w') = SrcValue (VString "pano.jpg").
Proof.
  assert (m_cubeMapUrls (item cubeWorld) <> ∅) as Hcube.
  { intros H. apply (f_equal (fun m => m !! "PositiveX")) in H.
    vm_compute in H. discriminate. }
  assert (variantsExclusive (item cubeWorld) = true) as Hx
    by (vm_compute; reflexivity).
  destruct (sourceChanged_emitted_before_cube_cleared
              examplePlatform "pano.jpg"
              {| img_isNull := false; img_width := 2; img_height := 1 |}
              cubeWorld Hcube Hx)
    as ((e & He & _ & _ & Hsrc & Hurl & _) & Hfinal & _);
    [discriminate | reflexivity | reflexivity | reflexivity |].
  cbv zeta. split; [|exact Hfinal].
  exists e. split; [exact He|]. split; [|exact Hurl].
  rewrite Hsrc. vm_compute. reflexivity.
Defined.

(** * Further properties *)

(** ** Order on doubles *)

Lemma SFcompare_antisym x y :
  SFcompare y x = CompOpp <$> SFcompare x y.
Proof.
  destruct x as [sx|sx| |sx mx ex], y as [sy|sy| |sy my ey]; simpl;
    try reflexivity;
    try (destruct sx; reflexivity); try (destruct sy; reflexivity);
    try (destruct sx, sy; reflexivity).
  destruct sx, sy; try reflexivity;
    rewrite (Z.compare_antisym ey ex);
    destruct (ey ?= ex) eqn:E; simpl; try reflexivity;
    change (Pos.compare_cont Eq mx my) with (mx ?= my)%positive;
    change (Pos.compare_cont Eq my mx) with (my ?= mx)%positive;
    rewrite (Pos.compare_antisym my mx);
    destruct (my ?= mx)%positive; reflexivity.
Qed.

Lemma not_nan_compare x y :
  is_nan x = false -> is_nan y = false ->
  exists c, SFcompare (Prim2SF x) (Prim2SF y) = Some c.
Proof.
  unfold is_nan. rewrite !negb_false_iff, !FloatAxioms.eqb_spec. unfold SFeqb.
  destruct (Prim2SF x), (Prim2SF y); simpl; try discriminate; eauto.
Qed.

(** On doubles that are not NaN, [a < b] failing means [b <= a]. *)
Lemma ltb_false_leb a b :
  is_nan a = false -> is_nan b = false ->
  (a <? b)%float = false -> (b <=? a)%float = true.
Proof.
  intros Ha Hb. rewrite FloatAxioms.ltb_spec, FloatAxioms.leb_spec. unfold SFltb, SFleb.
  rewrite (SFcompare_antisym (Prim2SF a) (Prim2SF b)).
  destruct (not_nan_compare a b Ha Hb) as [c ->]. simpl.
  destruct c; simpl; congruence.
Qed.

Lemma ltb_leb a b : (a <? b)%float = true -> (a <=? b)%float = true.
Proof.
  rewrite FloatAxioms.ltb_spec, FloatAxioms.leb_spec. unfold SFltb, SFleb.
  destruct (SFcompare _ _) as [[]|]; congruence.
Qed.

Lemma qIsFinite_not_nan d : qIsFinite d = true -> is_nan d = false.
Proof.
  unfold qIsFinite, is_finite. rewrite negb_true_iff, orb_false_iff. tauto.
Qed.

Lemma SFeqb_refl x : x <> S754_nan -> SFeqb x x = true.
Proof.
  unfold SFeqb. destruct x as [s|s| |s m e]; simpl; try congruence;
    try (destruct s; reflexivity).
  intros _. change (Pos.compare_cont Eq m m) with (m ?= m)%positive.
  destruct s; rewrite Z.compare_refl, Pos.compare_refl; reflexivity.
Qed.

Lemma leb_not_nan a b :
  (a <=? b)%float = true -> is_nan a = false /\ is_nan b = false.
Proof.
  unfold is_nan. rewrite FloatAxioms.leb_spec, !FloatAxioms.eqb_spec, !negb_false_iff.
  unfold SFleb. intros H.
  split; apply SFeqb_refl; intros E; rewrite E in H;
    [|destruct (Prim2SF a)]; discriminate.
Qed.

(** [qBound(-90, e, 90)] lies between its bounds unless [e] is NaN. *)
Lemma qBound_elevation_range e :
  is_nan e = false ->
  (-90 <=? qBound_double (-90) e 90)%float = true
  /\ (qBound_double (-90) e 90 <=? 90)%float = true.
Proof.
  intros He. unfold qBound_double, qMin_double, qMax_double.
  destruct (90 <? e)%float eqn:E1.
  - vm_compute. split; reflexivity.
  - apply ltb_false_leb in E1; [|reflexivity|exact He].
    destruct (-90 <? e)%float eqn:E2.
    + split; [apply ltb_leb; exact E2 | exact E1].
    + vm_compute. split; reflexivity.
Qed.

(** ** The setters, call by call *)

(** What one property write does around the item: at most one signal, and
    with each signal one [polish()] and one [update()]. *)
Lemma call_effect c w :
  let w' := exec (call c) w in
  exists l,
    emitted w' = emitted w ++ l
    /\ (length l <= 1)%nat
    /\ updateCalls w' = (updateCalls w + length l)%nat
    /\ polishCalls w' = (polishCalls w + length l)%nat
    /\ m_nodeDirty (item w') = (if l is [] then m_nodeDirty (item w) else true)
    /\ Forall carriesStoredValue l
    /\ queuedSlots w' = queuedSlots w.
Proof.
  cbv zeta.
  assert (noop : exists l : list Emission,
             emitted w = emitted w ++ l /\ (length l <= 1)%nat
             /\ updateCalls w = (updateCalls w + length l)%nat
             /\ polishCalls w = (polishCalls w + length l)%nat
             /\ m_nodeDirty (item w) = (if l is [] then m_nodeDirty (item w) else true)
             /\ Forall carriesStoredValue l
             /\ queuedSlots w = queuedSlots w).
  { exists []. rewrite app_nil_r. simpl. repeat split; try lia. constructor. }
  destruct c as [a|e|f|p [v|cubeMap]|v].
  1-3, 6: unfold exec, call, setAzimuth, setElevation, setFieldOfView,
            setMaximumTextureSize, updateSphere, emit, update, polish, assign,
            this, bind, ret;
          repeat case_match; simplify_eq/=; try exact noop;
          try (eexists [_]; simpl; repeat split; try lia;
               repeat constructor).
  - unfold call. rewrite setSource_value.
    destruct (canConvert_QString v); [|exact noop]. cbn [andb].
    rewrite loadFromUrl_unfold.
    destruct (bool_decide (toString v = EmptyString)); [exact noop|].
    destruct (bool_decide (toString v = m_imageUrl (item w))).
    { exists []. rewrite app_nil_r. unfold exec, assign. cbn.
      repeat split; try lia; [|constructor].
      unfold switchToSphere; case_bool_decide; reflexivity. }
    destruct (negb (urlIsValid p (toString v))); [exact noop|].
    destruct (loadFromData p (fetchUrl p (toString v))) as [image|];
      [|exact noop].
    destruct (emptyImage image); [exact noop|].
    eexists [_]. unfold exec, assign. cbn. split; [reflexivity|].
    repeat split; try lia; [|repeat constructor].
    unfold switchToSphere; case_bool_decide; reflexivity.
  - unfold call. rewrite setSource_map, loadFromCubeMap_unfold.
    destruct (size cubeMap =? 0)%nat; [exact noop|].
    destruct (QVariantMap_eq (m_cubeMapUrls (item w)) cubeMap).
    { exists []. rewrite app_nil_r. unfold exec, assign. cbn.
      repeat split; try lia; [|constructor].
      unfold switchToCube; case_bool_decide; reflexivity. }
    destruct (negb (checkRequiredKeys cubeMap requiredKeys)); [exact noop|].
    destruct (negb (checkUrls p cubeMap requiredKeys)); [exact noop|].
    destruct (fetchFaces p cubeMap requiredKeys QMapFaces_empty) as [m|];
      [|exact noop].
    eexists [_]. unfold exec, assign. cbn. split; [reflexivity|].
    repeat split; try lia; [|repeat constructor].
    unfold switchToCube; case_bool_decide; reflexivity.
Qed.

Lemma calls_effect cs : forall w,
  let w' := exec (calls cs) w in
  exists l,
    emitted w' = emitted w ++ l
    /\ (length l <= length cs)%nat
    /\ updateCalls w' = (updateCalls w + length l)%nat
    /\ polishCalls w' = (polishCalls w + length l)%nat
    /\ m_nodeDirty (item w') = (if l is [] then m_nodeDirty (item w) else true)
    /\ Forall carriesStoredValue l
    /\ queuedSlots w' = queuedSlots w.
Proof.
  induction cs as [|c cs IH]; intros w; cbv zeta.
  - exists []. rewrite app_nil_r. unfold exec. simpl.
    repeat split; try lia. constructor.
  - rewrite exec_calls_cons.
    destruct (call_effect c w) as (l1 & E1 & L1 & U1 & P1 & D1 & F1 & Q1).
    destruct (IH (exec (call c) w)) as (l2 & E2 & L2 & U2 & P2 & D2 & F2 & Q2).
    exists (l1 ++ l2). rewrite E2, E1, U2, U1, P2, P1, Q2, Q1, D2, D1.
    rewrite <- app_assoc, !length_app. simpl.
    repeat split; try lia; [|apply Forall_app; split; assumption].
    destruct l1, l2; reflexivity.
Qed.

(** X17. After any sequence of setter calls on a new item, [update()] and
    [polish()] have each been called exactly once per emitted change signal,
    at most one signal was emitted per call, the node is marked dirty exactly
    when some signal was emitted, and no slot was queued. *)
Theorem signals_and_repaints_agree (cs : list Call) :
  let w := exec (calls cs) World_new in
  updateCalls w = length (emitted w)
  /\ polishCalls w = length (emitted w)
  /\ (length (emitted w) <= length cs)%nat
  /\ (m_nodeDirty (item w) = true <-> emitted w <> [])
  /\ queuedSlots w = [].
Proof.
  cbv zeta.
  destruct (calls_effect cs World_new) as (l & E & L & U & P & D & _ & Q).
  simpl in *. rewrite E, U, P, D, Q.
  repeat split; try assumption; destruct l; simpl; congruence.
Qed.

(** X18. Every [azimuthChanged], [elevationChanged] and
    [fieldOfViewChanged] emitted during a sequence of setter calls on a new
    item carries the value the item stores at the moment of the emission. *)
Theorem numeric_signals_carry_stored_value (cs : list Call) (e : Emission) :
  e ∈ emitted (exec (calls cs) World_new) ->
  carriesStoredValue e.
Proof.
  destruct (calls_effect cs World_new) as (l & E & _ & _ & _ & _ & F & _).
  simpl in E. rewrite E. intros He. rewrite Forall_forall in F. auto.
Qed.

Lemma numeric_signals_carry_stored_value_witness :
  carriesStoredValue
    {| em_signal := azimuthChanged 350;
       em_item := item (exec (calls [SetAzimuth (-10)]) World_new) |}.
Proof.
  apply (numeric_signals_carry_stored_value [SetAzimuth (-10)]).
  vm_compute. left.
Defined.

(** The loaders and the two switches leave the numeric members alone. *)
Lemma loadFromUrl_numeric p url w :
  let i := item w in
  let i' := item (snd (loadFromUrl p url w)) in
  m_azimuth i' = m_azimuth i /\ m_elevation i' = m_elevation i
  /\ m_fieldOfView i' = m_fieldOfView i
  /\ m_maximumTextureSize i' = m_maximumTextureSize i
  /\ m_rendererType i' = m_rendererType i
  /\ m_recreateRenderer i' = m_recreateRenderer i.
Proof.
  rewrite loadFromUrl_unfold. repeat case_match; repeat split.
Qed.

Lemma loadFromCubeMap_numeric p cubeMap w :
  let i := item w in
  let i' := item (snd (loadFromCubeMap p cubeMap w)) in
  m_azimuth i' = m_azimuth i /\ m_elevation i' = m_elevation i
  /\ m_fieldOfView i' = m_fieldOfView i
  /\ m_maximumTextureSize i' = m_maximumTextureSize i
  /\ m_rendererType i' = m_rendererType i
  /\ m_recreateRenderer i' = m_recreateRenderer i.
Proof.
  rewrite loadFromCubeMap_unfold. repeat case_match; repeat split.
Qed.

Lemma switchToSphere_numeric i :
  m_azimuth (switchToSphere i) = m_azimuth i
  /\ m_elevation (switchToSphere i) = m_elevation i
  /\ m_fieldOfView (switchToSphere i) = m_fieldOfView i
  /\ m_maximumTextureSize (switchToSphere i) = m_maximumTextureSize i.
Proof. unfold switchToSphere. case_bool_decide; repeat split. Qed.

Lemma switchToCube_numeric i :
  m_azimuth (switchToCube i) = m_azimuth i
  /\ m_elevation (switchToCube i) = m_elevation i
  /\ m_fieldOfView (switchToCube i) = m_fieldOfView i
  /\ m_maximumTextureSize (switchToCube i) = m_maximumTextureSize i.
Proof. unfold switchToCube. case_bool_decide; repeat split. Qed.

Lemma setSource_numeric p s w :
  let i := item w in
  let i' := item (exec (setSource p s) w) in
  m_azimuth i' = m_azimuth i /\ m_elevation i' = m_elevation i
  /\ m_fieldOfView i' = m_fieldOfView i
  /\ m_maximumTextureSize i' = m_maximumTextureSize i.
Proof.
  cbv zeta. destruct s as [v|cubeMap].
  - rewrite setSource_value.
    destruct (canConvert_QString v && _); [|repeat split].
    unfold exec, assign. cbn [snd item].
    destruct (switchToSphere_numeric (item (snd (loadFromUrl p (toString v) w))))
      as (-> & -> & -> & ->).
    destruct (loadFromUrl_numeric p (toString v) w) as (-> & -> & -> & -> & _).
    repeat split.
  - rewrite setSource_map.
    destruct (fst _); [|repeat split].
    unfold exec, assign. cbn [snd item].
    destruct (switchToCube_numeric (item (snd (loadFromCubeMap p cubeMap w))))
      as (-> & -> & -> & ->).
    destruct (loadFromCubeMap_numeric p cubeMap w) as (-> & -> & -> & -> & _).
    repeat split.
Qed.

(** What one call does to the four numeric members. *)
Lemma call_numeric_members (c : Call) (w : World) :
  let i := item w in
  let i' := item (exec (call c) w) in
  (m_azimuth i' = m_azimuth i
   \/ exists a, c = SetAzimuth a /\ qIsFinite a = true
                /\ m_azimuth i' = normalizedAzimuth a)
  /\ (m_elevation i' = m_elevation i
      \/ exists e, c = SetElevation e /\ qIsFinite e = true
                   /\ m_elevation i' = qBound_double (-90) e 90)
  /\ (m_fieldOfView i' = m_fieldOfView i
      \/ exists f, c = SetFieldOfView f
                   /\ (f <? 3)%float = false /\ (150 <? f)%float = false
                   /\ m_fieldOfView i' = f)
  /\ (m_maximumTextureSize i' = m_maximumTextureSize i
      \/ exists v, c = SetMaximumTextureSize v /\ m_maximumTextureSize i' = v).
Proof.
  cbv zeta. destruct c as [a|e|f|p s|v].
  - unfold exec, call, setAzimuth, updateSphere, emit, update, polish,
      assign, this, bind, ret.
    destruct (qIsFinite a) eqn:Ha; simpl; [|tauto].
    fold (normalizedAzimuth a).
    destruct (normalizedAzimuth a =? m_azimuth (item w))%float; simpl;
      [tauto|].
    split; [right; exists a; auto|]. tauto.
  - unfold exec, call, setElevation, updateSphere, emit, update, polish,
      assign, this, bind, ret. simpl.
    destruct (e =? m_elevation (item w))%float; simpl; [tauto|].
    destruct (qIsFinite e) eqn:He; simpl; [|tauto].
    split; [tauto|]. split; [right; exists e; auto|]. tauto.
  - unfold exec, call, setFieldOfView, updateSphere, emit, update, polish,
      assign, this, bind, ret. simpl.
    destruct (f =? m_fieldOfView (item w))%float; simpl; [tauto|].
    destruct (f <? 3)%float eqn:E1; simpl; [tauto|].
    destruct (150 <? f)%float eqn:E2; simpl; [tauto|].
    split; [tauto|]. split; [tauto|]. split; [right; exists f; auto|]. tauto.
  - unfold call. destruct (setSource_numeric p s w) as (-> & -> & -> & ->). tauto.
  - unfold exec, call, setMaximumTextureSize, updateSphere, emit, update,
      polish, assign, this, bind, ret. simpl.
    destruct (v =? m_maximumTextureSize (item w)); simpl; [tauto|].
    destruct (_ =? _); simpl;
      (split; [tauto|]; split; [tauto|]; split; [tauto|];
       right; exists v; auto).
Qed.

Lemma call_elevationInRange c w :
  elevationInRange (item w) = true ->
  elevationInRange (item (exec (call c) w)) = true.
Proof.
  intros H. unfold elevationInRange in *.
  destruct (call_numeric_members c w)
    as (_ & [->|(e & _ & He & ->)] & _); [exact H|].
  apply qIsFinite_not_nan in He.
  destruct (qBound_elevation_range e He) as [-> ->]. reflexivity.
Qed.

(** X1. After any sequence of setter calls on a new item the stored
    elevation lies in [-90, 90] and is not NaN. *)
Theorem elevation_always_in_range (cs : list Call) :
  let i := item (exec (calls cs) World_new) in
  (-90 <=? m_elevation i)%float = true
  /\ (m_elevation i <=? 90)%float = true
  /\ is_nan (m_elevation i) = false.
Proof.
  cbv zeta.
  assert (forall w, elevationInRange (item w) = true ->
                    elevationInRange (item (exec (calls cs) w)) = true) as H.
  { induction cs as [|c cs IH]; intros w Hw; [exact Hw|].
    rewrite exec_calls_cons. apply IH, call_elevationInRange, Hw. }
  specialize (H World_new eq_refl). unfold elevationInRange in H.
  apply andb_true_iff in H as [H1 H2].
  split; [exact H1|]. split; [exact H2|]. apply (leb_not_nan _ _ H2).
Qed.

Lemma call_fieldOfViewInRangeOrNaN c w :
  fieldOfViewInRangeOrNaN (item w) = true ->
  fieldOfViewInRangeOrNaN (item (exec (call c) w)) = true.
Proof.
  intros H. unfold fieldOfViewInRangeOrNaN in *.
  destruct (call_numeric_members c w)
    as (_ & _ & [->|(f & _ & H3 & H150 & ->)] & _); [exact H|].
  destruct (is_nan f) eqn:Hn; [reflexivity|]. simpl.
  rewrite (ltb_false_leb f 3 Hn eq_refl H3).
  rewrite (ltb_false_leb 150 f eq_refl Hn H150). reflexivity.
Qed.

(** X2. After any sequence of setter calls on a new item the stored field
    of view is NaN or lies in [3, 150]. *)
Theorem fieldOfView_in_range_or_nan (cs : list Call) :
  let i := item (exec (calls cs) World_new) in
  is_nan (m_fieldOfView i) = true
  \/ ((3 <=? m_fieldOfView i)%float = true
      /\ (m_fieldOfView i <=? 150)%float = true).
Proof.
  cbv zeta.
  assert (forall w, fieldOfViewInRangeOrNaN (item w) = true ->
                    fieldOfViewInRangeOrNaN (item (exec (calls cs) w)) = true) as H.
  { induction cs as [|c cs IH]; intros w Hw; [exact Hw|].
    rewrite exec_calls_cons. apply IH, call_fieldOfViewInRangeOrNaN, Hw. }
  specialize (H World_new eq_refl). unfold fieldOfViewInRangeOrNaN in H.
  apply orb_true_iff in H as [H|H]; [left; exact H|right].
  apply andb_true_iff in H. exact H.
Qed.

(** X7. One setter call leaves each of azimuth, elevation, field of view
    and user texture limit as it was, unless it is that member's own setter
    with an accepted argument; the member then holds the normalised
    azimuth, the elevation clamped to [-90, 90], the field of view as given
    (not below 3, not above 150), or the limit as given. *)
Theorem numeric_members_change_only_by_own_setter (c : Call) (w : World) :
  let i := item w in
  let i' := item (exec (call c) w) in
  (m_azimuth i' = m_azimuth i
   \/ exists a, c = SetAzimuth a /\ qIsFinite a = true
                /\ m_azimuth i' = normalizedAzimuth a)
  /\ (m_elevation i' = m_elevation i
      \/ exists e, c = SetElevation e /\ qIsFinite e = true
                   /\ m_elevation i' = qBound_double (-90) e 90)
  /\ (m_fieldOfView i' = m_fieldOfView i
      \/ exists f, c = SetFieldOfView f
                   /\ (f <? 3)%float = false /\ (150 <? f)%float = false
                   /\ m_fieldOfView i' = f)
  /\ (m_maximumTextureSize i' = m_maximumTextureSize i
      \/ exists v, c = SetMaximumTextureSize v /\ m_maximumTextureSize i' = v).
Proof. exact (call_numeric_members c w). Qed.

(** On an item that shows a cube map, the switch [setSource] makes after a
    cube-map load changes nothing. *)
Lemma switchToCube_cubeShown i : cubeShown i -> switchToCube i = i.
Proof.
  intros (Ht & Hi & Hu). unfold switchToCube.
  rewrite bool_decide_eq_false_2 by (intros H; apply H; exact Ht).
  destruct i. simpl in *. subst. reflexivity.
Qed.

(** X3. A [setSource] that cannot load leaves everything as it was: item,
    signals, repaint requests. That is the case for a value that is no
    string, an empty locator or an empty map, and for a new locator that is
    invalid, does not decode or decodes to an empty image, or a map with a
    required face that is missing, no string, invalid or that does not
    load, when the stored locator map does not compare equal to it
    ([QMap::operator==]) or the item already shows a cube map, as it does
    between property writes whenever it stores a locator map. *)
Theorem setSource_failure_changes_nothing
    (p : Platform) (s : SourceVariant) (w : World) :
  match s with
  | SrcValue v =>
      canConvert_QString v = false
      \/ toString v = EmptyString
      \/ (toString v <> m_imageUrl (item w)
          /\ (urlIsValid p (toString v) = false
              \/ loadFromData p (fetchUrl p (toString v)) = None
              \/ exists image,
                   loadFromData p (fetchUrl p (toString v)) = Some image
                   /\ emptyImage image = true))
  | SrcMap cubeMap =>
      cubeMap = ∅
      \/ ((QVariantMap_eq (m_cubeMapUrls (item w)) cubeMap = false
           \/ cubeShown (item w))
          /\ exists k, k ∈ requiredKeys
               /\ (cubeMap !! k = None
                   \/ canConvert_QString (variant_value cubeMap k) = false
                   \/ urlIsValid p (toString (variant_value cubeMap k)) = false
                   \/ faceLoads p cubeMap k = false))
  end ->
  exec (setSource p s) w = w.
Proof.
  destruct s as [v|cubeMap]; intros H.
  - rewrite setSource_value.
    destruct (canConvert_QString v); [|reflexivity]. cbn [andb].
    rewrite loadFromUrl_unfold.
    destruct H as [H|[H|(Hne & H)]]; [discriminate| |].
    + rewrite bool_decide_eq_true_2 by exact H. reflexivity.
    + case_bool_decide; [reflexivity|].
      rewrite bool_decide_eq_false_2 by exact Hne.
      destruct H as [->|[H|(image & H & Himg)]]; [reflexivity| |];
        destruct (negb (urlIsValid p (toString v))); try reflexivity;
        rewrite H; [reflexivity|]. rewrite Himg. reflexivity.
  - rewrite setSource_map, loadFromCubeMap_unfold.
    destruct H as [->|(Hne & k & Hk & H)]; [reflexivity|].
    destruct (size cubeMap =? 0)%nat; [reflexivity|].
    destruct (QVariantMap_eq (m_cubeMapUrls (item w)) cubeMap) eqn:Heq.
    { destruct Hne as [Hne|Hshown]; [discriminate|].
      cbn [fst snd]. unfold exec, assign. cbn [snd].
      rewrite (switchToCube_cubeShown _ Hshown). destruct w; reflexivity. }
    destruct (checkRequiredKeys cubeMap requiredKeys) eqn:Ek; [|reflexivity].
    destruct (checkUrls p cubeMap requiredKeys) eqn:Eu; [|reflexivity].
    destruct H as [H|[H|[H|H]]].
    + rewrite (checkRequiredKeys_fails cubeMap k) in Ek by auto. discriminate.
    + rewrite (checkRequiredKeys_fails cubeMap k) in Ek by auto. discriminate.
    + rewrite (checkUrls_fails p cubeMap k) in Eu by auto. discriminate.
    + cbn [negb]. rewrite (fetchFaces_fails p cubeMap k) by auto. reflexivity.
Qed.

Lemma setSource_failure_changes_nothing_witness :
  exec (setSource brokenPlatform (SrcValue (VString "pano.jpg"))) cubeWorld
  = cubeWorld
  /\ exec (setSource examplePlatform (SrcMap fiveFaces)) cubeWorld = cubeWorld
  /\ exec (setSource brokenPlatform (SrcMap exampleCubeMap)) cubeWorld
     = cubeWorld.
Proof.
  split; [|split].
  - apply (setSource_failure_changes_nothing brokenPlatform
             (SrcValue (VString "pano.jpg")) cubeWorld).
    right; right. split; [vm_compute; discriminate|]. right; left. reflexivity.
  - apply (setSource_failure_changes_nothing examplePlatform
             (SrcMap fiveFaces) cubeWorld).
    right. split.
    + left. vm_compute. reflexivity.
    + exists "NegativeZ". split; [|left; reflexivity].
      unfold requiredKeys. repeat constructor.
  - apply (setSource_failure_changes_nothing brokenPlatform
             (SrcMap exampleCubeMap) cubeWorld).
    right. split.
    + right. repeat split; vm_compute; reflexivity.
    + exists "PositiveX". split; [left|].
      right; right; right. reflexivity.
Defined.

Ltac world_fields :=
  cbn [fst snd item itemWidth itemHeight polishCalls updateCalls emitted
       queuedSlots].





(** After a successful single-image [setSource]: the members that matter. *)
Lemma setSource_value_loaded p v w :
  canConvert_QString v = true ->
  fst (loadFromUrl p (toString v) w) = true ->
  let i' := item (exec (setSource p (SrcValue v)) w) in
  m_imageUrl i' = toString v /\ toString v <> EmptyString
  /\ m_cubeMap i' = QMapFaces_empty /\ m_cubeMapUrls i' = ∅
  /\ m_rendererType i' = SphereRenderer.
Proof.
  intros Hc Hok. cbv zeta. rewrite setSource_value, Hc, Hok. cbn [andb].
  destruct (loadFromUrl_true p (toString v) w Hok) as (Hne & Hurl & _).
  unfold exec, assign. world_fields.
  destruct (switchToSphere_fields (item (snd (loadFromUrl p (toString v) w))))
    as (-> & -> & -> & _).
  repeat split; try assumption;
    unfold switchToSphere; case_bool_decide; reflexivity.
Qed.

(** After a successful cube-map [setSource]. *)
Lemma setSource_map_loaded p cubeMap w :
  fst (loadFromCubeMap p cubeMap w) = true ->
  let i' := item (exec (setSource p (SrcMap cubeMap)) w) in
  m_cubeMapUrls i' <> ∅
  /\ m_image i' = QByteArray_null /\ m_imageUrl i' = EmptyString
  /\ m_rendererType i' = CubeRenderer.
Proof.
  intros Hok. cbv zeta. rewrite setSource_map, Hok.
  pose proof (loadFromCubeMap_true_stored p cubeMap w Hok) as Hne.
  unfold exec, assign. world_fields.
  destruct (switchToCube_fields (item (snd (loadFromCubeMap p cubeMap w))))
    as (-> & -> & _ & ->).
  repeat split; try assumption;
    unfold switchToCube; case_bool_decide; reflexivity.
Qed.

Lemma singlePopulated_by_url i :
  m_imageUrl i <> EmptyString -> singlePopulated i = true.
Proof.
  intros H. unfold singlePopulated.
  rewrite (bool_decide_eq_false_2 _ H). apply orb_true_r.
Qed.

Lemma singlePopulated_cleared i :
  m_image i = QByteArray_null -> m_imageUrl i = EmptyString ->
  singlePopulated i = false.
Proof. intros H1 H2. unfold singlePopulated. rewrite H1, H2. reflexivity. Qed.

Lemma cubePopulated_by_urls i :
  m_cubeMapUrls i <> ∅ -> cubePopulated i = true.
Proof.
  intros H. unfold cubePopulated.
  rewrite (bool_decide_eq_false_2 _ H). apply orb_true_r.
Qed.

Lemma cubePopulated_cleared i :
  m_cubeMap i = QMapFaces_empty -> m_cubeMapUrls i = ∅ ->
  cubePopulated i = false.
Proof.
  intros H1 H2. unfold cubePopulated, map_isEmpty. rewrite H1, H2. simpl.
  rewrite !bool_decide_eq_true_2 by reflexivity. reflexivity.
Qed.

(** What a property write does to the source members and the renderer
    type: nothing, or a switch to one populated variant. *)
Lemma call_source_cases c w :
  let i := item w in
  let i' := item (exec (call c) w) in
  (m_image i' = m_image i /\ m_imageUrl i' = m_imageUrl i
   /\ m_cubeMap i' = m_cubeMap i /\ m_cubeMapUrls i' = m_cubeMapUrls i
   /\ m_rendererType i' = m_rendererType i
   /\ (m_recreateRenderer i = true -> m_recreateRenderer i' = true))
  \/ (singlePopulated i' = true /\ cubePopulated i' = false
      /\ m_rendererType i' = SphereRenderer
      /\ (m_rendererType i <> SphereRenderer \/ m_recreateRenderer i = true ->
          m_recreateRenderer i' = true))
  \/ (cubePopulated i' = true /\ singlePopulated i' = false
      /\ m_rendererType i' = CubeRenderer
      /\ (m_rendererType i <> CubeRenderer \/ m_recreateRenderer i = true ->
          m_recreateRenderer i' = true)
      /\ cubeShown i').
Proof.
  cbv zeta. destruct c as [a|e|f|p [v|cubeMap]|v].
  1-3, 6: left;
          match goal with |- context [call ?c] =>
            destruct (numeric_call_source_members c w) as (-> & -> & -> & ->);
              [discriminate|]
          end;
          repeat split;
          unfold exec, call, setAzimuth, setElevation, setFieldOfView,
            setMaximumTextureSize, updateSphere, emit, update, polish, assign,
            this, bind, ret;
          repeat case_match; simplify_eq/=; auto.
  - unfold call.
    destruct (canConvert_QString v) eqn:Hc;
      [|left; rewrite setSource_value, Hc; repeat split; auto].
    destruct (fst (loadFromUrl p (toString v) w)) eqn:Hok;
      [|left; rewrite setSource_value, Hc, Hok; repeat split; auto].
    right; left.
    destruct (setSource_value_loaded p v w Hc Hok) as (Hu & Hne & Hm & Hmu & Ht).
    split; [apply singlePopulated_by_url; congruence|].
    split; [apply cubePopulated_cleared; assumption|].
    split; [exact Ht|].
    rewrite setSource_value, Hc, Hok. cbn [andb].
    unfold exec, assign. world_fields.
    destruct (loadFromUrl_numeric p (toString v) w)
      as (_ & _ & _ & _ & Hty & Hrec).
    unfold switchToSphere. rewrite Hty.
    case_bool_decide; simpl; rewrite ?Hrec; intros [?|?]; tauto.
  - unfold call.
    destruct (fst (loadFromCubeMap p cubeMap w)) eqn:Hok;
      [|left; rewrite setSource_map, Hok; repeat split; auto].
    right; right.
    destruct (setSource_map_loaded p cubeMap w Hok) as (Hne & Hm & Hmu & Ht).
    split; [apply cubePopulated_by_urls; exact Hne|].
    split; [apply singlePopulated_cleared; assumption|].
    split; [exact Ht|].
    split; [|repeat split; assumption].
    rewrite setSource_map, Hok.
    unfold exec, assign. world_fields.
    destruct (loadFromCubeMap_numeric p cubeMap w)
      as (_ & _ & _ & _ & Hty & Hrec).
    unfold switchToCube. rewrite Hty.
    case_bool_decide; simpl; rewrite ?Hrec; intros [?|?]; tauto.
Qed.

(** Between property writes an item that stores a locator map shows a
    cube map. *)
Lemma call_cubeShown c w :
  (m_cubeMapUrls (item w) <> ∅ -> cubeShown (item w)) ->
  m_cubeMapUrls (item (exec (call c) w)) <> ∅ ->
  cubeShown (item (exec (call c) w)).
Proof.
  intros Inv Hne.
  destruct (call_source_cases c w)
    as [(H1 & H2 & _ & H4 & Ht & _)|[(_ & Hc & _)|(_ & _ & _ & _ & Hs)]].
  - unfold cubeShown. rewrite H1, H2, Ht. apply Inv. rewrite <- H4. exact Hne.
  - rewrite cubePopulated_by_urls in Hc by exact Hne. discriminate.
  - exact Hs.
Qed.

Lemma calls_cubeShown cs :
  let i := item (exec (calls cs) World_new) in
  m_cubeMapUrls i <> ∅ -> cubeShown i.
Proof.
  cbv zeta.
  assert (forall w, (m_cubeMapUrls (item w) <> ∅ -> cubeShown (item w)) ->
            m_cubeMapUrls (item (exec (calls cs) w)) <> ∅ ->
            cubeShown (item (exec (calls cs) w))) as H.
  { induction cs as [|c cs IH]; intros w Inv; [exact Inv|].
    rewrite exec_calls_cons. apply IH. apply call_cubeShown. exact Inv. }
  apply H. intros Hne. exfalso. apply Hne. reflexivity.
Qed.

(** So between property writes a [setSource] with a map in which a
    required face is missing, no string, invalid or does not load changes
    nothing, whatever is stored. *)
Lemma setSource_bad_face_between_writes p cubeMap cs k :
  k ∈ requiredKeys ->
  cubeMap !! k = None
  \/ canConvert_QString (variant_value cubeMap k) = false
  \/ urlIsValid p (toString (variant_value cubeMap k)) = false
  \/ faceLoads p cubeMap k = false ->
  exec (setSource p (SrcMap cubeMap)) (exec (calls cs) World_new)
  = exec (calls cs) World_new.
Proof.
  intros Hk Hbad. set (w := exec (calls cs) World_new).
  rewrite setSource_map, loadFromCubeMap_unfold.
  destruct (size cubeMap =? 0)%nat eqn:Es; [reflexivity|].
  destruct (QVariantMap_eq (m_cubeMapUrls (item w)) cubeMap) eqn:Heq.
  - assert (m_cubeMapUrls (item w) <> ∅) as Hne.
    { intros He. rewrite He, QVariantMap_eq_empty_l in Heq; [discriminate|].
      intros ->. rewrite map_size_empty in Es. discriminate. }
    pose proof (switchToCube_cubeShown _ (calls_cubeShown cs Hne)) as Hsw.
    fold w in Hsw. cbn [fst snd]. unfold exec at 1, assign. cbn [snd].
    rewrite Hsw. destruct w; reflexivity.
  - destruct (checkRequiredKeys cubeMap requiredKeys) eqn:Ek; [|reflexivity].
    destruct (checkUrls p cubeMap requiredKeys) eqn:Eu; [|reflexivity].
    destruct Hbad as [H|[H|[H|H]]].
    + rewrite (checkRequiredKeys_fails cubeMap k) in Ek by auto. discriminate.
    + rewrite (checkRequiredKeys_fails cubeMap k) in Ek by auto. discriminate.
    + rewrite (checkUrls_fails p cubeMap k) in Eu by auto. discriminate.
    + cbn [negb]. rewrite (fetchFaces_fails p cubeMap k) by auto. reflexivity.
Qed.

Lemma populated_ext i j :
  m_image j = m_image i -> m_imageUrl j = m_imageUrl i ->
  m_cubeMap j = m_cubeMap i -> m_cubeMapUrls j = m_cubeMapUrls i ->
  singlePopulated j = singlePopulated i /\ cubePopulated j = cubePopulated i.
Proof.
  unfold singlePopulated, cubePopulated. intros -> -> -> ->. auto.
Qed.

(** X5. Once an item holds a source, no sequence of setter calls leaves it
    without one. *)
Theorem source_never_unloaded (cs : list Call) (w : World) :
  populated (item w) = true ->
  populated (item (exec (calls cs) w)) = true.
Proof.
  revert w. induction cs as [|c cs IH]; intros w H; [exact H|].
  rewrite exec_calls_cons. apply IH. unfold populated in *.
  destruct (call_source_cases c w)
    as [(H1 & H2 & H3 & H4 & _)|[(-> & _)|(-> & _)]];
    [|reflexivity|apply orb_true_r].
  destruct (populated_ext _ _ H1 H2 H3 H4) as [-> ->]. exact H.
Qed.

Lemma source_never_unloaded_witness :
  populated (item (exec (calls [SetSource brokenPlatform (SrcValue (VString EmptyString));
                                SetSource brokenPlatform (SrcMap ∅)])
                     cubeWorld)) = true.
Proof.
  apply (source_never_unloaded _ cubeWorld). vm_compute. reflexivity.
Defined.

Lemma call_rendererMatchesSource c w :
  rendererMatchesSource (item w) ->
  rendererMatchesSource (item (exec (call c) w)).
Proof.
  intros [Hs Hc]. unfold rendererMatchesSource.
  destruct (call_source_cases c w)
    as [(H1 & H2 & H3 & H4 & -> & _)|[(-> & -> & -> & _)|(-> & -> & -> & _)]];
    [|split; [reflexivity|discriminate]|split; [discriminate|reflexivity]].
  destruct (populated_ext _ _ H1 H2 H3 H4) as [-> ->]. auto.
Qed.

(** X6. After any sequence of setter calls on a new item, the renderer type
    is the sphere renderer when the single-image variant is populated and
    the cube renderer when the cube-map variant is; so it is the cube
    renderer when [source()] returns a map and the sphere renderer when it
    returns a non-empty locator. *)
Theorem renderer_type_follows_source (cs : list Call) :
  let i := item (exec (calls cs) World_new) in
  (singlePopulated i = true -> m_rendererType i = SphereRenderer)
  /\ (cubePopulated i = true -> m_rendererType i = CubeRenderer)
  /\ (forall m, source i = SrcMap m -> m_rendererType i = CubeRenderer)
  /\ (forall url, source i = SrcValue (VString url) -> url <> EmptyString ->
                  m_rendererType i = SphereRenderer).
Proof.
  cbv zeta.
  assert (forall w, rendererMatchesSource (item w) ->
                    rendererMatchesSource (item (exec (calls cs) w))) as H.
  { induction cs as [|c cs IH]; intros w Hw; [exact Hw|].
    rewrite exec_calls_cons. apply IH, call_rendererMatchesSource, Hw. }
  destruct (H World_new) as [Hs Hc]; [split; discriminate|].
  split; [exact Hs|]. split; [exact Hc|]. split.
  - intros m Hm. apply Hc. unfold source in Hm.
    case_bool_decide as E; [discriminate|].
    apply cubePopulated_by_urls. exact E.
  - intros url Hm Hne. apply Hs. unfold source in Hm.
    case_bool_decide as E; [|discriminate]. simpl in Hm.
    apply singlePopulated_by_url. congruence.
Qed.

Lemma renderer_type_follows_source_witness :
  m_rendererType
    (item (exec (calls [SetSource examplePlatform (SrcMap exampleCubeMap);
                        SetSource examplePlatform (SrcValue (VString "a.jpg"))])
                World_new))
  = SphereRenderer.
Proof.
  destruct (renderer_type_follows_source
              [SetSource examplePlatform (SrcMap exampleCubeMap);
               SetSource examplePlatform (SrcValue (VString "a.jpg"))])
    as (Hs & _).
  apply Hs. vm_compute. reflexivity.
Defined.

(** X8. Two setter calls on two different numeric properties commute: in
    either order they leave the same item and the same numbers of
    [update()] and [polish()] calls, and emit the same signals up to
    order. *)
Theorem numeric_writes_commute (c1 c2 : Call) (w : World) :
  is_Some (numericProperty c1) -> is_Some (numericProperty c2) ->
  numericProperty c1 <> numericProperty c2 ->
  let w12 := exec (call c2) (exec (call c1) w) in
  let w21 := exec (call c1) (exec (call c2) w) in
  item w12 = item w21
  /\ updateCalls w12 = updateCalls w21
  /\ polishCalls w12 = polishCalls w21
  /\ signals w12 ≡ₚ signals w21.
Proof.
  intros [k1 H1] [k2 H2] Hne. cbv zeta.
  destruct c1, c2; try discriminate; try congruence;
    unfold signals, exec, call, setAzimuth, setElevation, setFieldOfView,
      setMaximumTextureSize, maximumTextureSize, updateSphere, emit, update,
      polish, assign, this, bind, ret;
    simpl;
    repeat (case_match; simpl in *; simplify_eq);
    try congruence;
    (split; [reflexivity|]; split; [reflexivity|]; split; [reflexivity|]);
    rewrite ?fmap_app; simpl; try reflexivity;
    rewrite <- !app_assoc; apply Permutation_app_head; simpl; constructor.
Qed.

Lemma numeric_writes_commute_witness :
  item (exec (call (SetElevation 30)) (exec (call (SetAzimuth 45)) World_new))
  = item (exec (call (SetAzimuth 45)) (exec (call (SetElevation 30)) World_new)).
Proof.
  apply (numeric_writes_commute (SetAzimuth 45) (SetElevation 30) World_new);
    [eexists; reflexivity | eexists; reflexivity | discriminate].
Defined.

(** The three loops of [loadFromCubeMap] read the required entries only. *)
Lemma variant_value_ext (m m' : QVariantMap) k :
  m !! k = m' !! k -> variant_value m k = variant_value m' k.
Proof. unfold variant_value. intros ->. reflexivity. Qed.

Lemma checkRequiredKeys_ext (m m' : QVariantMap) : forall ks,
  (forall k, k ∈ ks -> m !! k = m' !! k) ->
  checkRequiredKeys m ks = checkRequiredKeys m' ks.
Proof.
  induction ks as [|k ks IH]; intros H; [reflexivity|]. simpl.
  assert (m !! k = m' !! k) as Hk by (apply H, elem_of_cons; auto).
  rewrite (variant_value_ext m m' k Hk), Hk, IH; [reflexivity|].
  intros k' Hk'. apply H, elem_of_cons. auto.
Qed.

Lemma checkUrls_ext p (m m' : QVariantMap) : forall ks,
  (forall k, k ∈ ks -> m !! k = m' !! k) ->
  checkUrls p m ks = checkUrls p m' ks.
Proof.
  induction ks as [|k ks IH]; intros H; [reflexivity|]. simpl.
  assert (m !! k = m' !! k) as Hk by (apply H, elem_of_cons; auto).
  rewrite (variant_value_ext m m' k Hk), IH; [reflexivity|].
  intros k' Hk'. apply H, elem_of_cons. auto.
Qed.

Lemma fetchFaces_ext p (m m' : QVariantMap) : forall ks acc,
  (forall k, k ∈ ks -> m !! k = m' !! k) ->
  fetchFaces p m ks acc = fetchFaces p m' ks acc.
Proof.
  induction ks as [|k ks IH]; intros acc H; [reflexivity|]. simpl.
  assert (m !! k = m' !! k) as Hk by (apply H, elem_of_cons; auto).
  rewrite (variant_value_ext m m' k Hk).
  repeat case_match; try reflexivity.
  apply IH. intros k' Hk'. apply H, elem_of_cons. auto.
Qed.

(** X9. Two maps that agree on the six required keys, neither of which
    the stored locator map compares equal to ([QMap::operator==], with the
    converting comparison of the values), load alike: [loadFromCubeMap]
    succeeds on both or fails on both and leaves the same face bytes. On
    success each map is stored whole, entries under other keys included,
    and [source()] returns it. *)
Theorem loadFromCubeMap_ignores_other_keys
    (p : Platform) (cubeMap cubeMap' : QVariantMap) (w : World) :
  (forall k, k ∈ requiredKeys -> cubeMap !! k = cubeMap' !! k) ->
  QVariantMap_eq (m_cubeMapUrls (item w)) cubeMap = false ->
  QVariantMap_eq (m_cubeMapUrls (item w)) cubeMap' = false ->
  let r := loadFromCubeMap p cubeMap w in
  let r' := loadFromCubeMap p cubeMap' w in
  fst r = fst r'
  /\ m_cubeMap (item (snd r)) = m_cubeMap (item (snd r'))
  /\ (fst r = true ->
      m_cubeMapUrls (item (snd r)) = cubeMap
      /\ m_cubeMapUrls (item (snd r')) = cubeMap'
      /\ source (item (snd r')) = SrcMap cubeMap').
Proof.
  intros Hagree Hne Hne'. cbv zeta. rewrite !loadFromCubeMap_unfold.
  rewrite Hne, Hne'.
  rewrite <- (checkRequiredKeys_ext cubeMap cubeMap' requiredKeys Hagree).
  rewrite <- (checkUrls_ext p cubeMap cubeMap' requiredKeys Hagree).
  rewrite <- (fetchFaces_ext p cubeMap cubeMap' requiredKeys _ Hagree).
  destruct (checkRequiredKeys cubeMap requiredKeys) eqn:Ek.
  - assert (cubeMap <> ∅ /\ cubeMap' <> ∅) as [Hn Hn'].
    { destruct (checkRequiredKeys_passes cubeMap "PositiveX" _ Ek) as [[x Hx] _].
      { unfold requiredKeys. repeat constructor. }
      split; intros E.
      - rewrite E in Hx. discriminate.
      - rewrite Hagree, E in Hx; [discriminate|].
        unfold requiredKeys. repeat constructor. }
    destruct (size cubeMap =? 0)%nat eqn:Es;
      [apply Nat.eqb_eq, map_size_empty_iff in Es; contradiction|].
    destruct (size cubeMap' =? 0)%nat eqn:Es';
      [apply Nat.eqb_eq, map_size_empty_iff in Es'; contradiction|].
    cbn [negb].
    destruct (checkUrls p cubeMap requiredKeys); cbn [negb fst snd];
      [|split; [reflexivity|]; split; [reflexivity|discriminate]].
    destruct (fetchFaces p cubeMap requiredKeys QMapFaces_empty);
      cbn [fst snd item];
      [|split; [reflexivity|]; split; [reflexivity|discriminate]].
    split; [reflexivity|]. split; [reflexivity|]. intros _.
    split; [reflexivity|]. split; [reflexivity|].
    apply source_of_cube. exact Hn'.
  - cbn [negb].
    destruct (size cubeMap =? 0)%nat, (size cubeMap' =? 0)%nat; cbn [fst snd];
      (split; [reflexivity|]; split; [reflexivity|discriminate]).
Qed.

Lemma loadFromCubeMap_ignores_other_keys_witness :
  let m' := <["Comment" := VString "panorama of the harbour"]> otherCubeMap in
  fst (loadFromCubeMap examplePlatform m' cubeWorld) = true
  /\ m_cubeMap (item (snd (loadFromCubeMap examplePlatform m' cubeWorld)))
     = m_cubeMap (item (snd (loadFromCubeMap examplePlatform otherCubeMap
                               cubeWorld)))
  /\ m_cubeMapUrls (item (snd (loadFromCubeMap examplePlatform m' cubeWorld)))
     !! "Comment" = Some (VString "panorama of the harbour").
Proof.
  cbv zeta.
  destruct (loadFromCubeMap_ignores_other_keys examplePlatform otherCubeMap
              (<["Comment" := VString "panorama of the harbour"]> otherCubeMap)
              cubeWorld) as (H1 & H2 & _).
  - intros k Hk. unfold requiredKeys in Hk.
    repeat (apply elem_of_cons in Hk as [->|Hk]); try (vm_compute; reflexivity).
    by apply elem_of_nil in Hk.
  - vm_compute. reflexivity.
  - vm_compute. reflexivity.
  - rewrite <- H1, <- H2. repeat split; vm_compute; reflexivity.
Defined.

(** [qMin] on [int]s does not depend on the order of its arguments. *)
Lemma qMin_comm a b : qMin a b = qMin b a.
Proof. unfold qMin. destruct (Z.ltb_spec a b), (Z.ltb_spec b a); lia. Qed.

(** What [updateState] does around the renderer [r]. *)
Lemma updateState_effect (r : PhotoSphereRendererBase.t) (w : World) :
  let w' := snd (updateState r w) in
  let r' := fst (updateState r w) in
  let i := item w in
  let i' := item w' in
  m_glMaxTexSize i' = PhotoSphereRendererBase.m_glMaxTexSize r
  /\ PhotoSphereRendererBase.m_glMaxTexSize r'
     = PhotoSphereRendererBase.m_glMaxTexSize r
  /\ PhotoSphereRendererBase.m_shader r' = PhotoSphereRendererBase.m_shader r
  /\ PhotoSphereRendererBase.m_oldState r' = PhotoSphereRendererBase.m_state r
  /\ PhotoSphereRenderState.maxTexSize (PhotoSphereRendererBase.m_state r')
     = maximumTextureSize i'
  /\ queuedSlots w'
     = queuedSlots w
       ++ (if maximumTextureSize i' =? maximumTextureSize i
           then [] else ["signalUpdatedMaxSize"])
  /\ emitted w' = emitted w
  /\ updateCalls w' = updateCalls w /\ polishCalls w' = polishCalls w
  /\ itemWidth w' = itemWidth w /\ itemHeight w' = itemHeight w
  /\ m_azimuth i' = m_azimuth i /\ m_elevation i' = m_elevation i
  /\ m_fieldOfView i' = m_fieldOfView i
  /\ m_maximumTextureSize i' = m_maximumTextureSize i
  /\ m_image i' = m_image i /\ m_imageUrl i' = m_imageUrl i
  /\ m_cubeMap i' = m_cubeMap i /\ m_cubeMapUrls i' = m_cubeMapUrls i
  /\ m_rendererType i' = m_rendererType i
  /\ m_recreateRenderer i' = m_recreateRenderer i
  /\ m_nodeDirty i' = m_nodeDirty i.
Proof.
  cbv zeta.
  unfold updateState, invokeMethod_queued, maximumTextureSize, assign, this,
    bind, ret.
  cbn beta iota.
  rewrite !(qMin_comm (m_maximumTextureSize _)).
  destruct (Z.eqb_spec (m_glMaxTexSize (item w))
              (PhotoSphereRendererBase.m_glMaxTexSize r)) as [E|E]; simpl.
  - rewrite Z.eqb_refl, app_nil_r, E. repeat split.
  - destruct (Z.eqb_spec
                (qMin (m_glMaxTexSize (item w)) (m_maximumTextureSize (item w)))
                (qMin (PhotoSphereRendererBase.m_glMaxTexSize r)
                      (m_maximumTextureSize (item w)))) as [E'|E']; simpl.
    + rewrite E', Z.eqb_refl, app_nil_r. repeat split.
    + rewrite (proj2 (Z.eqb_neq _ _)) by congruence. repeat split.
Qed.

(** X10. The base [synchronize] writes one member of the item, the device
    limit, which becomes the renderer's (the device's own when the renderer
    was not yet initialised); the snapshot's limit is the value the property
    [maximumTextureSize] reads afterwards; [signalUpdatedMaxSize] is queued
    exactly when that value has changed; nothing is emitted, no repaint is
    requested, and every other member is left as it was. *)
Theorem synchronize_item_effect
    (p : Platform) (r : PhotoSphereRendererBase.t) (w : World) :
  let w' := exec (synchronize p r) w in
  let r' := snd (fst (synchronize p r w)) in
  let i := item w in
  let i' := item w' in
  m_glMaxTexSize i' = PhotoSphereRendererBase.m_glMaxTexSize r'
  /\ PhotoSphereRendererBase.m_glMaxTexSize r'
     = (if PhotoSphereRendererBase.m_shader r
        then PhotoSphereRendererBase.m_glMaxTexSize r
        else glMaxTextureSize p)
  /\ PhotoSphereRenderState.maxTexSize (PhotoSphereRendererBase.m_state r')
     = maximumTextureSize i'
  /\ queuedSlots w'
     = queuedSlots w
       ++ (if maximumTextureSize i' =? maximumTextureSize i
           then [] else ["signalUpdatedMaxSize"])
  /\ emitted w' = emitted w
  /\ updateCalls w' = updateCalls w /\ polishCalls w' = polishCalls w
  /\ m_azimuth i' = m_azimuth i /\ m_elevation i' = m_elevation i
  /\ m_fieldOfView i' = m_fieldOfView i
  /\ m_maximumTextureSize i' = m_maximumTextureSize i
  /\ m_image i' = m_image i /\ m_imageUrl i' = m_imageUrl i
  /\ m_cubeMap i' = m_cubeMap i /\ m_cubeMapUrls i' = m_cubeMapUrls i
  /\ m_rendererType i' = m_rendererType i
  /\ m_recreateRenderer i' = m_recreateRenderer i
  /\ m_nodeDirty i' = m_nodeDirty i.
Proof.
  cbv zeta.
  pose proof (updateState_effect (init p r) w) as H. cbv zeta in H.
  unfold exec, synchronize, bind, ret.
  destruct (updateState (init p r) w) as [r1 w1]. cbn [fst snd] in *.
  destruct H as (H1 & H2 & _ & _ & H5 & H6 & H7 & H8 & H9 & _ & _ & H).
  assert (PhotoSphereRendererBase.m_glMaxTexSize (init p r)
          = if PhotoSphereRendererBase.m_shader r
            then PhotoSphereRendererBase.m_glMaxTexSize r
            else glMaxTextureSize p) as Hi.
  { unfold init, initBase. destruct (PhotoSphereRendererBase.m_shader r);
      reflexivity. }
  repeat split; try tauto; congruence.
Qed.

(** X11. A second [synchronize] right after a first leaves the world as it
    was and takes the same snapshot; it reports "unchanged" exactly when none
    of the snapshot's three angles is NaN. *)
Theorem synchronize_twice
    (p p' : Platform) (r : PhotoSphereRendererBase.t) (w : World) :
  let r1 := snd (fst (synchronize p r w)) in
  let w1 := snd (synchronize p r w) in
  let changed := fst (fst (synchronize p' r1 w1)) in
  let r2 := snd (fst (synchronize p' r1 w1)) in
  let w2 := snd (synchronize p' r1 w1) in
  let s := PhotoSphereRendererBase.m_state r1 in
  w2 = w1
  /\ PhotoSphereRendererBase.m_state r2 = s
  /\ PhotoSphereRendererBase.m_oldState r2 = s
  /\ (changed = false
      <-> is_nan (PhotoSphereRenderState.azimuth s) = false
          /\ is_nan (PhotoSphereRenderState.elevation s) = false
          /\ is_nan (PhotoSphereRenderState.fov s) = false).
Proof.
  cbv zeta.
  assert (forall r0, PhotoSphereRendererBase.m_shader r0 = true ->
            let r1 := fst (updateState r0 w) in
            let w1 := snd (updateState r0 w) in
            PhotoSphereRendererBase.m_shader r1 = true
            /\ updateState r1 w1 =
               ({| PhotoSphereRendererBase.m_shader := true;
                   PhotoSphereRendererBase.m_state :=
                     PhotoSphereRendererBase.m_state r1;
                   PhotoSphereRendererBase.m_oldState :=
                     PhotoSphereRendererBase.m_state r1;
                   PhotoSphereRendererBase.m_glMaxTexSize :=
                     PhotoSphereRendererBase.m_glMaxTexSize r1 |}, w1)) as Hupd.
  { intros r0 Hs. cbv zeta.
    unfold updateState, invokeMethod_queued, assign, this, bind, ret.
    cbn beta iota. rewrite Hs.
    destruct (Z.eqb_spec (m_glMaxTexSize (item w))
                (PhotoSphereRendererBase.m_glMaxTexSize r0)) as [E|E]; simpl.
    - rewrite (proj2 (Z.eqb_eq _ _) E). simpl. split; reflexivity.
    - destruct (negb (_ =? _)); simpl; rewrite Z.eqb_refl; simpl;
        split; reflexivity. }
  assert (PhotoSphereRendererBase.m_shader (init p r) = true) as Hs.
  { unfold init, initBase.
    destruct (PhotoSphereRendererBase.m_shader r) eqn:E; [exact E|reflexivity]. }
  specialize (Hupd (init p r) Hs). cbv zeta in Hupd.
  destruct (updateState (init p r) w) as [r1 w1] eqn:Hu. cbn [fst snd] in *.
  assert (synchronize p r w
          = (negb (PhotoSphereRenderState.operator_eq
                     (PhotoSphereRendererBase.m_state r1)
                     (PhotoSphereRendererBase.m_oldState r1)), r1, w1)) as ->.
  { unfold synchronize, bind, ret. rewrite Hu. reflexivity. }
  cbn [fst snd].
  destruct Hupd as [Hs1 Hupd].
  unfold synchronize, bind, ret, init. rewrite Hs1. cbn [negb].
  rewrite Hupd. cbn [fst snd PhotoSphereRendererBase.m_state
                     PhotoSphereRendererBase.m_oldState].
  split; [reflexivity|]. split; [reflexivity|]. split; [reflexivity|].
  rewrite negb_false_iff. apply operator_eq_refl_iff.
Qed.

(** After [setFieldOfView(NaN)] every [synchronize] reports a change. *)
Example synchronize_never_idle_with_nan :
  let w := exec (setFieldOfView nan) World_new in
  let r1 := snd (fst (synchronize examplePlatform PhotoSphereRendererBase.new w)) in
  let w1 := snd (synchronize examplePlatform PhotoSphereRendererBase.new w) in
  fst (fst (synchronize examplePlatform r1 w1)) = true.
Proof. vm_compute. reflexivity. Qed.

(** Without NaN the second one reports none. *)
Example synchronize_idle :
  let r1 := snd (fst (synchronize examplePlatform PhotoSphereRendererBase.new cubeWorld)) in
  let w1 := snd (synchronize examplePlatform PhotoSphereRendererBase.new cubeWorld) in
  fst (fst (synchronize examplePlatform PhotoSphereRendererBase.new cubeWorld)) = true
  /\ fst (fst (synchronize examplePlatform r1 w1)) = false.
Proof. vm_compute. split; reflexivity. Qed.

(** ** The paint node *)

Section PaintNode.

Variable base_updatePaintNode : option RendererClass -> M (option RendererClass).

(** The base class keeps the renderer of a node it is given, makes the
    renderer of a new node with [createRenderer], and does not write the
    renderer type or the recreation flag. *)
Hypothesis base_keeps : forall c w,
  fst (base_updatePaintNode (Some c) w) = Some c.
Hypothesis base_creates : forall w,
  fst (base_updatePaintNode None w) = None
  \/ fst (base_updatePaintNode None w) = Some (createRenderer (item w)).
Hypothesis base_frame : forall n w,
  m_rendererType (item (snd (base_updatePaintNode n w))) = m_rendererType (item w)
  /\ m_recreateRenderer (item (snd (base_updatePaintNode n w)))
     = m_recreateRenderer (item w).

Lemma createRenderer_ext i j :
  m_rendererType j = m_rendererType i -> createRenderer j = createRenderer i.
Proof. unfold createRenderer. intros ->. reflexivity. Qed.

Lemma write_nodeInvariant c st :
  nodeInvariant st -> nodeInvariant (hostStep base_updatePaintNode (Write c) st).
Proof.
  destruct st as [w n]. unfold nodeInvariant. simpl. intros Inv.
  destruct n as [k|]; [|left; reflexivity].
  destruct Inv as [Inv|[Inv|Inv]]; [discriminate| |].
  - destruct (call_source_cases c w)
      as [(_ & _ & _ & _ & _ & H)|[(_ & _ & _ & H)|(_ & _ & _ & H & _)]]; auto.
  - destruct (call_source_cases c w)
      as [(_ & _ & _ & _ & Ht & _)|[(_ & _ & Ht & H)|(_ & _ & Ht & H & _)]].
    + right; right. rewrite Inv. f_equal. symmetry.
      apply createRenderer_ext. exact Ht.
    + destruct (decide (m_rendererType (item w) = SphereRenderer)) as [E|E];
        [|auto].
      right; right. rewrite Inv. f_equal. unfold createRenderer.
      rewrite Ht, E. reflexivity.
    + destruct (decide (m_rendererType (item w) = CubeRenderer)) as [E|E];
        [|auto].
      right; right. rewrite Inv. f_equal. unfold createRenderer.
      rewrite Ht, E. reflexivity.
Qed.

Lemma paint_nodeCurrent st :
  nodeInvariant st -> nodeCurrent (hostStep base_updatePaintNode Paint st).
Proof.
  destruct st as [w n]. unfold nodeInvariant, nodeCurrent, hostStep,
    updatePaintNode, updatePaintNode_discard, assign, this, bind, ret.
  cbn [fst snd]. intros Inv.
  destruct n as [k|].
  - rewrite bool_decide_eq_true_2 by eauto. cbn [andb].
    destruct (m_recreateRenderer (item w)) eqn:Hr.
    + match goal with |- context [base_updatePaintNode None ?w1] =>
        destruct (base_creates w1) as [H|H];
        destruct (base_frame None w1) as [Ht _];
        destruct (base_updatePaintNode None w1) as [n' w'] end.
      * left. exact H.
      * right. cbn [fst snd] in *. rewrite H. f_equal. symmetry.
        apply createRenderer_ext. exact Ht.
    + destruct Inv as [Inv|[Inv|Inv]]; [discriminate|discriminate|].
      pose proof (base_keeps k w) as H.
      destruct (base_frame (Some k) w) as [Ht _].
      destruct (base_updatePaintNode (Some k) w) as [n' w'].
      right. cbn [fst snd] in *. rewrite H. simpl in Inv. rewrite Inv.
      f_equal. symmetry. apply createRenderer_ext. exact Ht.
  - rewrite bool_decide_eq_false_2 by (intros [? ?]; discriminate).
    cbn [andb].
    destruct (base_creates w) as [H|H];
      destruct (base_frame None w) as [Ht _];
      destruct (base_updatePaintNode None w) as [n' w'].
    + left. exact H.
    + right. cbn [fst snd] in *. rewrite H. f_equal. symmetry.
      apply createRenderer_ext. exact Ht.
Qed.

Lemma nodeCurrent_nodeInvariant st : nodeCurrent st -> nodeInvariant st.
Proof. unfold nodeCurrent, nodeInvariant. tauto. Qed.

Lemma hostSteps_nodeInvariant ss : forall st,
  nodeInvariant st -> nodeInvariant (hostSteps base_updatePaintNode ss st).
Proof.
  induction ss as [|s ss IH]; intros st H; [exact H|].
  unfold hostSteps. simpl. apply IH. destruct s.
  - apply write_nodeInvariant, H.
  - apply nodeCurrent_nodeInvariant, paint_nodeCurrent, H.
Qed.

(** X12. For a base class that keeps the renderer of the node it is given,
    creates renderers with [createRenderer] and writes neither the renderer
    type nor the recreation flag: after any writes and paints followed by an
    [updatePaintNode], the node's renderer, if there is a node, is of the
    class [createRenderer] would now choose. *)
Theorem paint_node_renderer_is_current (ss : list HostStep) :
  let st := hostSteps base_updatePaintNode (ss ++ [Paint]) (World_new, None) in
  forall c, snd st = Some c -> c = createRenderer (item (fst st)).
Proof.
  cbv zeta. unfold hostSteps. rewrite foldl_app. cbn [foldl].
  fold (hostSteps base_updatePaintNode ss (World_new, None)).
  intros c Hc.
  assert (nodeInvariant (hostSteps base_updatePaintNode ss (World_new, None)))
    as Inv by (apply hostSteps_nodeInvariant; left; reflexivity).
  destruct (paint_nodeCurrent _ Inv) as [H|H]; congruence.
Qed.

End PaintNode.

Lemma paint_node_renderer_is_current_witness :
  snd (hostSteps exampleBase
         [Paint;
          Write (SetSource examplePlatform (SrcValue (VString "a.jpg")));
          Paint]
         (World_new, None))
  = Some PhotoSphereRenderer_class.
Proof.
  assert (forall c w, fst (exampleBase (Some c) w) = Some c) as H1
    by reflexivity.
  assert (forall w, fst (exampleBase None w) = None
                    \/ fst (exampleBase None w) = Some (createRenderer (item w)))
    as H2 by (right; reflexivity).
  assert (forall n w,
             m_rendererType (item (snd (exampleBase n w))) = m_rendererType (item w)
             /\ m_recreateRenderer (item (snd (exampleBase n w)))
                = m_recreateRenderer (item w)) as H3
    by (intros [c|] w; split; reflexivity).
  pose proof (paint_node_renderer_is_current exampleBase H1 H2 H3
                [Paint;
                 Write (SetSource examplePlatform (SrcValue (VString "a.jpg")))])
    as P.
  cbv zeta in P. cbn [app] in P.
  destruct (snd (hostSteps exampleBase _ _)) as [c|] eqn:Hc.
  - rewrite (P c eq_refl). vm_compute. reflexivity.
  - vm_compute in Hc. discriminate.
Defined.

(** A source set before the first paint leaves the flag set, so the first
    renderer, although of the right class, is discarded by the second
    paint. *)
Example renderer_recreated_once_more :
  let ss := [Write (SetSource examplePlatform (SrcValue (VString "a.jpg")));
             Paint] in
  let st := hostSteps exampleBase ss (World_new, None) in
  snd st = Some PhotoSphereRenderer_class
  /\ m_recreateRenderer (item (fst st)) = true
  /\ fst (updatePaintNode_discard (snd st) (fst st)) = None.
Proof. vm_compute. repeat split. Qed.

(** ** The renderers *)

Example float_of_int_1920 : float_of_int 1920 = 1920%float.
Proof. reflexivity. Qed.

Example sphere_upload_example :
  let w := exec (calls [SetMaximumTextureSize 1024;
                        SetSource widePlatform (SrcValue (VString "a.jpg"))])
                World_new in
  let r := fst (PhotoSphereRenderer_synchronize exampleResample widePlatform
                  PhotoSphereRenderer_new w) in
  tex_storage <$> m_texPhotoSphere r
  = Some (Some {| img_isNull := false; img_width := 8192; img_height := 4096 |}).
Proof. vm_compute. reflexivity. Qed.

Example cube_upload_example :
  let w := exec (calls [SetMaximumTextureSize 1024;
                        SetSource widePlatform (SrcMap exampleCubeMap)])
                World_new in
  let r := fst (PhotoSphereRendererCube_synchronize exampleResample widePlatform
                  PhotoSphereRendererCube_new w) in
  tex_storage <$> m_texFaces r !! PX
  = Some (Some {| img_isNull := false; img_width := 1024; img_height := 512 |}).
Proof. vm_compute. reflexivity. Qed.

Section RendererProperties.

Variable resample : QImage -> Z -> QImage.

(** The base [synchronize] as [updateState] after [init]. *)
Lemma synchronize_unfold p r w :
  synchronize p r w
  = (negb (PhotoSphereRenderState.operator_eq
             (PhotoSphereRendererBase.m_state (fst (updateState (init p r) w)))
             (PhotoSphereRendererBase.m_oldState (fst (updateState (init p r) w)))),
     fst (updateState (init p r) w),
     snd (updateState (init p r) w)).
Proof.
  unfold synchronize, bind, ret. destruct (updateState (init p r) w). reflexivity.
Qed.

(** The snapshot [updateState] takes. *)
Lemma updateState_snapshot r w :
  let s := PhotoSphereRendererBase.m_state (fst (updateState r w)) in
  PhotoSphereRenderState.source s = m_image (item w)
  /\ PhotoSphereRenderState.sourceCube s = m_cubeMap (item w)
  /\ PhotoSphereRenderState.azimuth s = to_float32 (m_azimuth (item w))
  /\ PhotoSphereRenderState.elevation s = to_float32 (m_elevation (item w))
  /\ PhotoSphereRenderState.fov s = to_float32 (m_fieldOfView (item w))
  /\ PhotoSphereRenderState.viewportWidth s = itemWidth w
  /\ PhotoSphereRenderState.viewportHeight s = itemHeight w.
Proof.
  unfold updateState, invokeMethod_queued, assign, this, bind, ret.
  cbn beta iota. repeat case_match; simplify_eq/=; repeat split.
Qed.

Lemma operator_eq_source_shared a b :
  PhotoSphereRenderState.operator_eq a b = true ->
  ba_d (PhotoSphereRenderState.source a) = ba_d (PhotoSphereRenderState.source b).
Proof.
  unfold PhotoSphereRenderState.operator_eq, ba_isSharedWith.
  rewrite !andb_true_iff, N.eqb_eq. tauto.
Qed.

(** The texture [PhotoSphereRenderer::synchronize] leaves, in terms of the
    item's image alone. *)
Lemma sphere_texture_after p r w :
  let r0 := PhotoSphereRenderer_init p r in
  let old := PhotoSphereRendererBase.m_state (sphere_base r0) in
  (ba_d (m_image (item w)) = ba_d (PhotoSphereRenderState.source old) ->
   ba_bytes (m_image (item w)) = ba_bytes (PhotoSphereRenderState.source old)) ->
  m_texPhotoSphere (fst (PhotoSphereRenderer_synchronize resample p r w))
  = if ba_differs (PhotoSphereRenderState.source old) (m_image (item w))
       && negb (emptyImage (QImage_fromData p (m_image (item w))))
    then uploadPhotoSphere resample
           (PhotoSphereRendererBase.m_glMaxTexSize (sphere_base r0))
           (QImage_fromData p (m_image (item w)))
         <$> m_texPhotoSphere r0
    else m_texPhotoSphere r0.
Proof.
  cbv zeta. intros Hshared.
  unfold PhotoSphereRenderer_synchronize, bind, ret.
  set (r0 := PhotoSphereRenderer_init p r) in *.
  rewrite synchronize_unfold. cbn [fst snd].
  assert (init p (sphere_base r0) = sphere_base r0) as Hinit.
  { unfold r0, PhotoSphereRenderer_init, init.
    destruct (PhotoSphereRendererBase.m_shader (sphere_base r)) eqn:E; simpl;
      [rewrite E|]; reflexivity. }
  rewrite Hinit.
  destruct (updateState_effect (sphere_base r0) w)
    as (_ & Hgl & _ & Hold & _).
  destruct (updateState_snapshot (sphere_base r0) w) as (Hsrc & _).
  cbv zeta in *.
  set (b := fst (updateState (sphere_base r0) w)) in *.
  rewrite Hold, Hsrc, Hgl.
  destruct (ba_differs (PhotoSphereRenderState.source
                          (PhotoSphereRendererBase.m_state (sphere_base r0)))
                       (m_image (item w))) eqn:Ed.
  - assert (PhotoSphereRenderState.operator_eq
              (PhotoSphereRendererBase.m_state b)
              (PhotoSphereRendererBase.m_state (sphere_base r0)) = false) as ->.
    { destruct (PhotoSphereRenderState.operator_eq _ _) eqn:E; [|reflexivity].
      apply operator_eq_source_shared in E. rewrite Hsrc in E.
      apply Hshared in E. unfold ba_differs in Ed.
      rewrite bool_decide_eq_true_2 in Ed by congruence. discriminate. }
    cbn [negb andb]. destruct (emptyImage _); reflexivity.
  - cbn [andb]. destruct (negb (negb _)); reflexivity.
Qed.

(** X13. The texture the sphere renderer holds after [synchronize] does not
    depend on the item's user texture limit (for a renderer whose previous
    snapshot shares its image bytes with the item only when they are the
    same bytes, as implicit sharing ensures). *)
Theorem sphere_texture_ignores_user_limit
    (p : Platform) (r : PhotoSphereRenderer) (w : World) (limit : Z) :
  let old := PhotoSphereRendererBase.m_state
               (sphere_base (PhotoSphereRenderer_init p r)) in
  (ba_d (m_image (item w)) = ba_d (PhotoSphereRenderState.source old) ->
   ba_bytes (m_image (item w)) = ba_bytes (PhotoSphereRenderState.source old)) ->
  let w' := exec (assign (set_m_maximumTextureSize limit)) w in
  m_texPhotoSphere (fst (PhotoSphereRenderer_synchronize resample p r w'))
  = m_texPhotoSphere (fst (PhotoSphereRenderer_synchronize resample p r w)).
Proof.
  cbv zeta. intros Hshared.
  rewrite !sphere_texture_after; [reflexivity|exact Hshared|exact Hshared].
Qed.


End RendererProperties.

Section CubeRendererProperties.

Variable resample : QImage -> Z -> QImage.

Lemma reloadFaces_lookup p st gl (texs : gmap CubeFace QOpenGLTexture) f :
  f <> InvalidFace ->
  reloadFaces resample p st gl texs !! f
  = uploadFace resample p st gl f <$> texs !! f.
Proof.
  intros Hf. unfold reloadFaces, cubeFaces. cbn [foldl].
  destruct f; try congruence;
    repeat first [ rewrite lookup_alter_eq | rewrite lookup_alter_ne by discriminate ];
    reflexivity.
Qed.

Lemma cube_init_textures p r f :
  f <> InvalidFace ->
  PhotoSphereRendererBase.m_shader (cube_base r) = false ->
  m_texFaces (PhotoSphereRendererCube_init p r) !! f = Some QOpenGLTexture_new.
Proof.
  intros Hf Hs. unfold PhotoSphereRendererCube_init. rewrite Hs.
  cbn [negb m_texFaces]. unfold cubeFaces. cbn [foldl].
  destruct f; try congruence;
    repeat first [ rewrite lookup_insert_eq | rewrite lookup_insert_ne by discriminate ];
    reflexivity.
Qed.

Lemma operator_eq_cube_shared a b :
  PhotoSphereRenderState.operator_eq a b = true ->
  map_d (PhotoSphereRenderState.sourceCube a)
  = map_d (PhotoSphereRenderState.sourceCube b)
  /\ PhotoSphereRenderState.maxTexSize a = PhotoSphereRenderState.maxTexSize b.
Proof.
  unfold PhotoSphereRenderState.operator_eq, map_isSharedWith.
  rewrite !andb_true_iff. intros ((_ & Hm) & Hs).
  apply N.eqb_eq in Hm. apply Z.eqb_eq in Hs. auto.
Qed.

Lemma qMin_absorb a b : qMin (qMin a b) b = qMin a b.
Proof.
  unfold qMin. destruct (Z.ltb_spec a b) as [H|H].
  - rewrite (proj2 (Z.ltb_lt a b) H). reflexivity.
  - rewrite Z.ltb_irrefl. reflexivity.
Qed.

Lemma cube_init_base p r :
  init p (cube_base (PhotoSphereRendererCube_init p r))
  = cube_base (PhotoSphereRendererCube_init p r).
Proof.
  unfold PhotoSphereRendererCube_init, init.
  destruct (PhotoSphereRendererBase.m_shader (cube_base r)) eqn:E; simpl;
    [rewrite E|]; reflexivity.
Qed.

(** The cube renderer's [synchronize] leaves the world its base's
    [updateState] leaves. *)
Lemma cube_synchronize_world p r w :
  snd (PhotoSphereRendererCube_synchronize resample p r w)
  = snd (updateState (cube_base (PhotoSphereRendererCube_init p r)) w).
Proof.
  unfold PhotoSphereRendererCube_synchronize, bind, ret.
  rewrite synchronize_unfold, cube_init_base. cbn [fst snd].
  repeat case_match; reflexivity.
Qed.

(** The face textures [PhotoSphereRendererCube::synchronize] leaves. *)
Lemma cube_textures_after p r w f :
  let r0 := PhotoSphereRendererCube_init p r in
  let old := PhotoSphereRendererBase.m_state (cube_base r0) in
  let w' := snd (PhotoSphereRendererCube_synchronize resample p r w) in
  let cap := maximumTextureSize (item w') in
  f <> InvalidFace ->
  (map_d (m_cubeMap (item w)) = map_d (PhotoSphereRenderState.sourceCube old) ->
   m_cubeMap (item w) = PhotoSphereRenderState.sourceCube old) ->
  m_texFaces (fst (PhotoSphereRendererCube_synchronize resample p r w)) !! f
  = if map_differs (PhotoSphereRenderState.sourceCube old) (m_cubeMap (item w))
       || negb (PhotoSphereRenderState.maxTexSize old =? cap)
    then (fun t =>
            let image := QImage_fromData p (map_value (m_cubeMap (item w)) f) in
            let image := if cap <? img_width image
                         then scaledToWidth resample image cap else image in
            tex_call setMagnificationFilter_Linear
              (tex_call setMinificationFilter_LinearMipMapLinear
                 (tex_call setWrapMode_ClampToEdge
                    (tex_call (setMaximumAnisotropy 16)
                       (tex_call (setAutoMipMapGenerationEnabled true)
                          (tex_setData image (tex_destroy t)))))))
         <$> m_texFaces r0 !! f
    else m_texFaces r0 !! f.
Proof.
  cbv zeta. intros Hf Hshared. rewrite cube_synchronize_world.
  unfold PhotoSphereRendererCube_synchronize, bind, ret.
  set (r0 := PhotoSphereRendererCube_init p r) in *.
  rewrite synchronize_unfold. cbn [fst snd].
  pose proof (cube_init_base p r) as Hinit. fold r0 in Hinit. rewrite !Hinit.
  destruct (updateState_effect (cube_base r0) w)
    as (Hgli & Hgl & _ & Hold & Hcap & _).
  destruct (updateState_snapshot (cube_base r0) w) as (_ & Hcube & _).
  cbv zeta in *.
  set (b := fst (updateState (cube_base r0) w)) in *.
  set (w1 := snd (updateState (cube_base r0) w)) in *.
  rewrite Hold, Hcube, Hgl.
  assert (qMin (PhotoSphereRenderState.maxTexSize (PhotoSphereRendererBase.m_state b))
               (PhotoSphereRendererBase.m_glMaxTexSize (cube_base r0))
          = maximumTextureSize (item w1)) as Hq.
  { rewrite Hcap. unfold maximumTextureSize. rewrite Hgli. apply qMin_absorb. }
  rewrite <- Hcap.
  destruct (map_differs _ _ || negb _) eqn:Ed.
  - assert (PhotoSphereRenderState.operator_eq
              (PhotoSphereRendererBase.m_state b)
              (PhotoSphereRendererBase.m_state (cube_base r0)) = false) as ->.
    { destruct (PhotoSphereRenderState.operator_eq _ _) eqn:E; [|reflexivity].
      apply operator_eq_cube_shared in E as [E1 E2]. rewrite Hcube in E1.
      apply Hshared in E1. rewrite E2, E1 in Ed.
      unfold map_differs in Ed. rewrite bool_decide_eq_true_2 in Ed by reflexivity.
      rewrite Z.eqb_refl in Ed. discriminate. }
    cbn [negb fst m_texFaces]. rewrite (reloadFaces_lookup _ _ _ _ _ Hf).
    unfold uploadFace. rewrite Hcube, Hq, <- Hcap. reflexivity.
  - destruct (PhotoSphereRenderState.operator_eq _ _); reflexivity.
Qed.

End CubeRendererProperties.

Section CubeRendererTheorems.

Variable resample : QImage -> Z -> QImage.

(** The storage of a face texture after a reload, from the decoded face. *)
Lemma cube_face_storage_after_reload p r w f t :
  let r0 := PhotoSphereRendererCube_init p r in
  let old := PhotoSphereRendererBase.m_state (cube_base r0) in
  let w' := snd (PhotoSphereRendererCube_synchronize resample p r w) in
  let cap := maximumTextureSize (item w') in
  f <> InvalidFace ->
  (map_d (m_cubeMap (item w)) = map_d (PhotoSphereRenderState.sourceCube old) ->
   m_cubeMap (item w) = PhotoSphereRenderState.sourceCube old) ->
  map_differs (PhotoSphereRenderState.sourceCube old) (m_cubeMap (item w)) = true
  \/ PhotoSphereRenderState.maxTexSize old <> cap ->
  m_texFaces r0 !! f = Some t ->
  tex_storage
    <$> m_texFaces (fst (PhotoSphereRendererCube_synchronize resample p r w)) !! f
  = let image := QImage_fromData p (map_value (m_cubeMap (item w)) f) in
    let image := if cap <? img_width image
                 then scaledToWidth resample image cap else image in
    Some (if img_isNull image then None else Some image).
Proof.
  cbv zeta. intros Hf Hshared Hreload Ht.
  rewrite (cube_textures_after resample p r w f Hf Hshared).
  match goal with |- context [if ?c then _ else _] =>
    assert (c = true) as -> end.
  { destruct Hreload as [->|Hne]; [reflexivity|].
    apply orb_true_iff. right. apply negb_true_iff, Z.eqb_neq. exact Hne. }
  rewrite Ht. cbn [fmap option_fmap option_map].
  unfold tex_call, tex_setData, tex_destroy. cbn [tex_storage].
  destruct (img_isNull _); reflexivity.
Qed.

(** X15. When the cube renderer's [synchronize] reloads the faces (the face
    map differs from the previous snapshot's or the effective limit has
    changed), no face texture holds an image wider than the value the
    property [maximumTextureSize] reads afterwards, provided the resampling
    gives the width it is asked for. *)
Theorem cube_face_width_within_limit
    (p : Platform) (r : PhotoSphereRendererCube) (w : World) (f : CubeFace)
    (t : QOpenGLTexture) (image : QImage) :
  let r0 := PhotoSphereRendererCube_init p r in
  let old := PhotoSphereRendererBase.m_state (cube_base r0) in
  let r' := fst (PhotoSphereRendererCube_synchronize resample p r w) in
  let w' := snd (PhotoSphereRendererCube_synchronize resample p r w) in
  (forall i z, img_width (resample i z) = z) ->
  f <> InvalidFace ->
  (map_d (m_cubeMap (item w)) = map_d (PhotoSphereRenderState.sourceCube old) ->
   m_cubeMap (item w) = PhotoSphereRenderState.sourceCube old) ->
  map_differs (PhotoSphereRenderState.sourceCube old) (m_cubeMap (item w)) = true
  \/ PhotoSphereRenderState.maxTexSize old <> maximumTextureSize (item w') ->
  m_texFaces r' !! f = Some t ->
  tex_storage t = Some image ->
  img_width image <= maximumTextureSize (item w').
Proof.
  cbv zeta. intros Hres Hf Hshared Hreload Ht Hst.
  destruct (m_texFaces (PhotoSphereRendererCube_init p r) !! f) as [t0|] eqn:E0.
  - pose proof (cube_face_storage_after_reload p r w f t0 Hf Hshared Hreload E0)
      as H.
    cbv zeta in H. rewrite Ht in H. cbn [fmap option_fmap option_map] in H.
    rewrite Hst in H. injection H as H.
    set (cap := maximumTextureSize _) in *.
    destruct (Z.ltb_spec cap
                (img_width (QImage_fromData p (map_value (m_cubeMap (item w)) f))))
      as [Hlt|Hge].
    + unfold scaledToWidth in H.
      destruct (img_isNull (QImage_fromData p _) || (cap <=? 0)); simpl in H;
        [discriminate|].
      destruct (img_isNull (resample _ cap)); [discriminate|].
      injection H as ->. rewrite Hres. lia.
    + destruct (img_isNull _); [discriminate|]. injection H as ->. exact Hge.
  - rewrite (cube_textures_after resample p r w f Hf Hshared), E0 in Ht.
    destruct (_ || _); discriminate.
Qed.


End CubeRendererTheorems.

Lemma cube_face_width_within_limit_witness :
  let w := exec (calls [SetMaximumTextureSize 1024;
                        SetSource widePlatform (SrcMap exampleCubeMap)])
                World_new in
  let s := PhotoSphereRendererCube_synchronize exampleResample widePlatform
             PhotoSphereRendererCube_new w in
  maximumTextureSize (item (snd s)) = 1024
  /\ exists t image,
       m_texFaces (fst s) !! PX = Some t /\ tex_storage t = Some image
       /\ img_width image <= maximumTextureSize (item (snd s)).
Proof.
  cbv zeta. split; [vm_compute; reflexivity|].
  eexists. eexists.
  split; [vm_compute; reflexivity|]. split; [vm_compute; reflexivity|].
  eapply (cube_face_width_within_limit exampleResample widePlatform
            PhotoSphereRendererCube_new _ PX).
  - reflexivity.
  - discriminate.
  - vm_compute. discriminate.
  - right. vm_compute. discriminate.
  - vm_compute. reflexivity.
  - vm_compute. reflexivity.
Defined.


Lemma sphere_texture_ignores_user_limit_witness :
  let w := exec (setSource widePlatform (SrcValue (VString "a.jpg"))) World_new in
  m_texPhotoSphere
    (fst (PhotoSphereRenderer_synchronize exampleResample widePlatform
            PhotoSphereRenderer_new
            (exec (assign (set_m_maximumTextureSize 1024)) w)))
  = m_texPhotoSphere
      (fst (PhotoSphereRenderer_synchronize exampleResample widePlatform
              PhotoSphereRenderer_new w)).
Proof.
  cbv zeta.
  apply (sphere_texture_ignores_user_limit exampleResample widePlatform
           PhotoSphereRenderer_new).
  vm_compute. discriminate.
Defined.


(** ** The meshes, vertex by vertex *)

(** X19. For every scale and every face, [drawFace] draws four vertices,
    all on the side of the cube the face names ([PX]: x = scale, [MX]:
    x = -scale, and so on), with the four texture coordinates of
    [m_texCoordsFace] in order. *)
Theorem cube_face_vertices_on_named_side (scale : float) (face : CubeFace) :
  face <> InvalidFace ->
  let drawn := drawFace (Cube3D.Cube3D scale) face in
  length drawn = 4%nat
  /\ Forall (fun vt => onSide scale face (fst vt)) drawn
  /\ snd <$> drawn = Cube3D.texCoordsFace.
Proof.
  intros Hf. cbv zeta.
  destruct face; try congruence; vm_compute;
    (split; [reflexivity|]; split; [|reflexivity];
     repeat constructor).
Qed.

Lemma cube_face_vertices_on_named_side_witness :
  length (drawFace (Cube3D.Cube3D 1) MY) = 4%nat
  /\ Forall (fun vt => v3_y (fst vt) = (-1)%float) (drawFace (Cube3D.Cube3D 1) MY)
  /\ snd <$> drawFace (Cube3D.Cube3D 1) MY = Cube3D.texCoordsFace.
Proof.
  apply (cube_face_vertices_on_named_side 1 MY). discriminate.
Defined.

Section SphereTexCoords.

Variables cos sin cos' sin' : float -> float.

Lemma column_texCoords_libm i jv : forall s s',
  Sphere3D.m_texCoords s = Sphere3D.m_texCoords s' ->
  Sphere3D.m_texCoords (Sphere3D.column cos sin i s jv)
  = Sphere3D.m_texCoords (Sphere3D.column cos' sin' i s' jv).
Proof.
  induction jv as [|j jv IH]; intros s s' H; [exact H|].
  change (Sphere3D.column cos sin i s (j :: jv))
    with (Sphere3D.column cos sin i (Sphere3D.cell cos sin i j s) jv).
  change (Sphere3D.column cos' sin' i s' (j :: jv))
    with (Sphere3D.column cos' sin' i (Sphere3D.cell cos' sin' i j s') jv).
  apply IH. unfold Sphere3D.cell. cbn [Sphere3D.m_texCoords]. rewrite H.
  reflexivity.
Qed.

Lemma columns_texCoords_libm jv iv : forall s s',
  Sphere3D.m_texCoords s = Sphere3D.m_texCoords s' ->
  Sphere3D.m_texCoords (Sphere3D.columns cos sin jv s iv)
  = Sphere3D.m_texCoords (Sphere3D.columns cos' sin' jv s' iv).
Proof.
  induction iv as [|i iv IH]; intros s s' H; [exact H|].
  change (Sphere3D.columns cos sin jv s (i :: iv))
    with (Sphere3D.columns cos sin jv (Sphere3D.column cos sin i s jv) iv).
  change (Sphere3D.columns cos' sin' jv s' (i :: iv))
    with (Sphere3D.columns cos' sin' jv (Sphere3D.column cos' sin' i s' jv) iv).
  apply IH, column_texCoords_libm, H.
Qed.

End SphereTexCoords.

Lemma forallb_Forall_true {A} (f : A -> bool) (l : list A) :
  forallb f l = true -> Forall (fun x => f x = true) l.
Proof.
  induction l as [|x l IH]; simpl; intros H; [constructor|].
  apply andb_true_iff in H as [Hx Hl]. constructor; auto.
Qed.

Lemma existsb_Exists_true {A} (f : A -> bool) (l : list A) :
  existsb f l = true -> Exists (fun x => f x = true) l.
Proof.
  induction l as [|x l IH]; simpl; intros H; [discriminate|].
  apply orb_true_iff in H as [Hx|Hl]; [left|right]; auto.
Qed.

(** X20. Whatever libm computes, [generateSphere] returns, every texture
    coordinate of the mesh lies in [0, 1] x [0, 1], and the values 0 and 1
    are both reached in each direction. *)
Theorem sphere_texCoords_in_unit_square (cos sin : float -> float) :
  exists s,
    Sphere3D.generateSphere cos sin 64 = Some s
    /\ Forall (fun uv => inUnitSquare uv = true) (Sphere3D.m_texCoords s)
    /\ Exists (fun uv => (v2_x uv =? 0)%float = true) (Sphere3D.m_texCoords s)
    /\ Exists (fun uv => (v2_x uv =? 1)%float = true) (Sphere3D.m_texCoords s)
    /\ Exists (fun uv => (v2_y uv =? 0)%float = true) (Sphere3D.m_texCoords s)
    /\ Exists (fun uv => (v2_y uv =? 1)%float = true) (Sphere3D.m_texCoords s).
Proof.
  destruct (Sphere3D.counters 64 0 Sphere3D.di) as [iv|] eqn:Hi;
    [|vm_compute in Hi; discriminate].
  destruct (Sphere3D.counters 64 0 Sphere3D.dj) as [jv|] eqn:Hj;
    [|vm_compute in Hj; discriminate].
  destruct (generateSphere_cells cos sin 64 iv jv Hi Hj) as (s & Hs & Heq & _).
  exists s. split; [exact Hs|].
  rewrite Heq.
  rewrite (columns_texCoords_libm cos sin (fun _ => 0%float) (fun _ => 0%float)
             jv iv _ _ eq_refl).
  vm_compute in Hi. injection Hi as <-.
  vm_compute in Hj. injection Hj as <-.
  split; [apply forallb_Forall_true; vm_compute; reflexivity|].
  split; [apply (existsb_Exists_true (fun uv => (v2_x uv =? 0)%float));
          vm_compute; reflexivity|].
  split; [apply (existsb_Exists_true (fun uv => (v2_x uv =? 1)%float));
          vm_compute; reflexivity|].
  split; [apply (existsb_Exists_true (fun uv => (v2_y uv =? 0)%float));
          vm_compute; reflexivity|].
  apply (existsb_Exists_true (fun uv => (v2_y uv =? 1)%float));
    vm_compute; reflexivity.
Qed.
